(** * FAST & FAIR B+-tree: a shallow embedding of [concurrent/src/btree.h]

    The development follows the volatile variant ([src/concurrent/src/btree.h])
    executed by a single thread.  Every [do { ... } while (counter changed)]
    retry loop of the readers therefore runs its body exactly once, and the
    node mutex is never contended; both are left out of the model.

    Conventions.
    - [char*], [page*] and [entry_key_t] values are integers ([Z]); the null
      pointer is [0].  The tree stores pages in a heap indexed by address, so
      a value handle and a page address can be compared, as the C code does.
    - Array indices and entry counts that the code keeps non-negative are
      [nat]; [last_index] (which takes the value -1) and the walk of [count]
      are [Z].  The header fields wrap around as their C types do.
    - Reading [records[i]] past the end of the array is undefined in C.  The
      model's [rec_at] returns an empty entry there and a write past the end
      changes nothing; the theorems state the bounds under which the code
      stays inside the array.
    - Loops over the entries of a node are bounded by the length of the
      array, loops over pages by the number of pages; the recursive calls of
      the tree operations take a [fuel] argument, and [None] stands for a
      call that does not return (or dereferences a pointer that is not a
      page).
    - [clflush] calls and the pointer publications of a split are recorded
      in an event log, each flush with the content of the page at that
      instant.

    The file has two parts: the model, with the vocabulary of the statements
    and the example trees, and its properties: lemmas on the node operations,
    one theorem per claim of the specification, and further properties of
    the code on top of them. *)

From stdpp Require Import gmap list.
From Stdlib Require Import ZArith QArith Qround Lia.

Open Scope Z_scope.

(** ** Constants *)

Definition NULL : Z := 0.
Definition LONG_MAX : Z := 9223372036854775807.
Definition PAGESIZE : Z := 512.
Definition CACHE_LINE_SIZE : Z := 64.

(** [#define IS_FORWARD(c) (c % 2 == 0)] *)
Definition IS_FORWARD (c : Z) : bool := c mod 2 =? 0.

(** Integer conversions of the header fields. *)
Definition to_uint8 (z : Z) : Z := z mod 256.
Definition to_int16 (z : Z) : Z := (z + 32768) mod 65536 - 32768.
Definition to_uint32 (z : Z) : Z := z mod 4294967296.

(** ** Data model *)

(** [class header]; the mutex pointer and the padding word are left out.
    [sizeof(header)] is 48 with 8-byte pointers: 8 + 8 + 4 + 1 + 1 + 2 for
    the first six fields, then three 8-byte words. *)
Record header := mkHeader {
  leftmost_ptr : Z;
  sibling_ptr : Z;
  level : Z;
  switch_counter : Z;
  is_deleted : Z;
  last_index : Z;
  highest : Z
}.

Definition sizeof_header : Z := 48.
Definition offsetof_last_index : Z := 22.

(** [class entry] *)
Record entry := mkEntry { key : Z; ptr : Z }.

Definition sizeof_entry : Z := 16.
Definition offsetof_ptr : Z := 8.

(** [entry::entry()] *)
Definition entry_ctor : entry := mkEntry LONG_MAX NULL.

(** [const int cardinality = (PAGESIZE-sizeof(header))/sizeof(entry);] *)
Definition cardinality : Z := (PAGESIZE - sizeof_header) / sizeof_entry.

(** [class page] *)
Record page := mkPage { hdr : header; records : list entry }.

(** Events of the persistence log. *)
Inductive event :=
| EvClflush (pg off len : Z) (img : page)
    (* clflush((char* )pg + off, len), where pg is a page with content img *)
| EvSetSibling (pg sib : Z)
    (* the store  pg->hdr.sibling_ptr = sib  of a split *)
| EvSetRoot (r : Z)
    (* the store  bt->root = r *)
| EvClflushRoot (r : Z).
    (* clflush(&bt->root, sizeof(char* )) while bt->root is r *)

(** ** Field updates *)

Definition set_leftmost_ptr (v : Z) (h : header) : header :=
  mkHeader v (sibling_ptr h) (level h) (switch_counter h) (is_deleted h)
           (last_index h) (highest h).
Definition set_sibling_ptr (v : Z) (h : header) : header :=
  mkHeader (leftmost_ptr h) v (level h) (switch_counter h) (is_deleted h)
           (last_index h) (highest h).
Definition set_level (v : Z) (h : header) : header :=
  mkHeader (leftmost_ptr h) (sibling_ptr h) v (switch_counter h) (is_deleted h)
           (last_index h) (highest h).
Definition set_switch_counter (v : Z) (h : header) : header :=
  mkHeader (leftmost_ptr h) (sibling_ptr h) (level h) v (is_deleted h)
           (last_index h) (highest h).
Definition set_last_index (v : Z) (h : header) : header :=
  mkHeader (leftmost_ptr h) (sibling_ptr h) (level h) (switch_counter h)
           (is_deleted h) v (highest h).
Definition set_highest (v : Z) (h : header) : header :=
  mkHeader (leftmost_ptr h) (sibling_ptr h) (level h) (switch_counter h)
           (is_deleted h) (last_index h) v.

(** [records[i]], read. *)
Definition rec_at (rs : list entry) (i : nat) : entry :=
  default entry_ctor (rs !! i).

(** [records[i].key = k] and [records[i].ptr = v]. *)
Definition set_key (i : nat) (k : Z) (rs : list entry) : list entry :=
  <[i := mkEntry k (ptr (rec_at rs i))]> rs.
Definition set_ptr (i : nat) (v : Z) (rs : list entry) : list entry :=
  <[i := mkEntry (key (rec_at rs i)) v]> rs.

(** [offsetof(page, records[i])], and [&records[i]] for the page at [this]. *)
Definition offset_of_record (i : nat) : Z :=
  sizeof_header + sizeof_entry * Z.of_nat i.
Definition addr_of_record (this : Z) (i : nat) : Z :=
  this + offset_of_record i.

(** ** Constructors *)

(** [header::header()].  [level] and [highest] are not assigned by the
    constructor: they keep whatever the fresh memory holds, here [stale]. *)
Definition header_ctor (stale : Z) : header :=
  mkHeader NULL NULL stale 0 0 (-1) stale.

(** [page::page(uint32_t level)] *)
Definition page_ctor (stale : Z) (lvl : Z) : page :=
  let h := set_level lvl (header_ctor stale) in
  let rs := replicate (Z.to_nat cardinality) entry_ctor in
  mkPage h (set_ptr 0 NULL rs).

(** [page::page(page* left, entry_key_t key, page* right, uint32_t level)],
    without its final [clflush] (issued by the caller in [new_root]). *)
Definition page_ctor_root (stale : Z) (left k right lvl : Z) : page :=
  let h := set_level lvl (set_leftmost_ptr left (header_ctor stale)) in
  let rs := replicate (Z.to_nat cardinality) entry_ctor in
  let rs := set_key 0 k rs in
  let rs := set_ptr 0 right rs in
  let rs := set_ptr 1 NULL rs in
  mkPage (set_last_index 0 h) rs.

(** ** [page::count] *)

(** The inner [while(count >= 0 && records[count].ptr != NULL)] walk. *)
Fixpoint count_walk (fuel : nat) (fwd : bool) (rs : list entry) (c : Z) : Z :=
  match fuel with
  | O => c
  | S f =>
      if (0 <=? c) && negb (ptr (rec_at rs (Z.to_nat c)) =? NULL)
      then count_walk f fwd rs (if fwd then c + 1 else c - 1)
      else c
  end.

(** The fallback [while(records[count].ptr != NULL) ++count] from 0. *)
Fixpoint count_from (fuel : nat) (rs : list entry) (c : nat) : nat :=
  match fuel with
  | O => c
  | S f => if ptr (rec_at rs c) =? NULL then c else count_from f rs (S c)
  end.

Definition count (p : page) : nat :=
  let previous_switch_counter := switch_counter (hdr p) in
  let fuel := S (length (records p)) in
  let c := count_walk fuel (IS_FORWARD previous_switch_counter) (records p)
                      (last_index (hdr p) + 1) in
  if c <? 0 then count_from fuel (records p) 0 else Z.to_nat c.

(** ** Cache-line flush decisions *)

(** The [do_flush] test of the shift loops, on the address of the entry
    just written. *)
Definition do_flush (records_ptr : Z) : bool :=
  let remainder := records_ptr mod CACHE_LINE_SIZE in
  (remainder =? 0) ||
  (((remainder + sizeof_entry) / CACHE_LINE_SIZE =? 1) &&
   negb ((remainder + sizeof_entry) mod CACHE_LINE_SIZE =? 0)).

(** ** [page::insert_key] (FAST) *)

(** The shift loop [for(i = *num_entries - 1; i >= 0; i--)]; the argument
    [i1] is [i + 1].  The result carries the flag [inserted]. *)
Fixpoint fast_shift (this : Z) (h : header) (flush : bool) (k v : Z)
    (i1 : nat) (rs : list entry) (evs : list event)
    : list entry * list event * bool :=
  match i1 with
  | O => (rs, evs, false)
  | S i =>
      if k <? key (rec_at rs i) then
        let rs := set_ptr (S i) (ptr (rec_at rs i)) rs in
        let rs := set_key (S i) (key (rec_at rs i)) rs in
        let evs :=
          if flush && do_flush (addr_of_record this (S i))
          then evs ++ [EvClflush this (offset_of_record (S i)) CACHE_LINE_SIZE
                                 (mkPage h rs)]
          else evs in
        fast_shift this h flush k v i rs evs
      else
        let rs := set_ptr (S i) (ptr (rec_at rs i)) rs in
        let rs := set_key (S i) k rs in
        let rs := set_ptr (S i) v rs in
        let evs :=
          if flush
          then evs ++ [EvClflush this (offset_of_record (S i)) sizeof_entry
                                 (mkPage h rs)]
          else evs in
        (rs, evs, true)
  end.

(** The first statement of [insert_key]:
    [if(!IS_FORWARD(hdr.switch_counter)) ++hdr.switch_counter;] *)
Definition insert_key_counter (h : header) : header :=
  if negb (IS_FORWARD (switch_counter h))
  then set_switch_counter (to_uint8 (switch_counter h + 1)) h
  else h.

(** The body of [insert_key] after the counter update: the entry writes and
    the flushes, up to (not including) the update of [last_index]. *)
Definition insert_key_entries (this : Z) (h : header) (rs : list entry)
    (k v : Z) (num_entries : nat) (flush : bool)
    : list entry * list event :=
  match num_entries with
  | O =>
      let rs := set_key 0 k rs in
      let rs := set_ptr 0 v rs in
      let rs := set_ptr 1 NULL rs in
      (rs, if flush then [EvClflush this 0 CACHE_LINE_SIZE (mkPage h rs)] else [])
  | S _ =>
      let rs := set_ptr (S num_entries) (ptr (rec_at rs num_entries)) rs in
      let evs :=
        if flush &&
           ((addr_of_record this (S num_entries) + offsetof_ptr)
              mod CACHE_LINE_SIZE =? 0)
        then [EvClflush this (offset_of_record (S num_entries) + offsetof_ptr) 8
                        (mkPage h rs)]
        else [] in
      let '(rs, evs, inserted) := fast_shift this h flush k v num_entries rs evs in
      if inserted then (rs, evs)
      else
        let rs := set_ptr 0 (leftmost_ptr h) rs in
        let rs := set_key 0 k rs in
        let rs := set_ptr 0 v rs in
        (rs, if flush
             then evs ++ [EvClflush this (offset_of_record 0) sizeof_entry
                                    (mkPage h rs)]
             else evs)
  end.

(** [page::insert_key(key, ptr, &num_entries, flush, update_last_index)] on
    the page [p] at address [this].  Returns the page, the new value of
    [*num_entries] and the flushes issued. *)
Definition insert_key (this : Z) (p : page) (k v : Z) (num_entries : nat)
    (flush update_last_index : bool) : page * nat * list event :=
  let h := insert_key_counter (hdr p) in
  let '(rs, evs) := insert_key_entries this h (records p) k v num_entries flush in
  let h := if update_last_index
           then set_last_index (to_int16 (Z.of_nat num_entries)) h
           else h in
  (mkPage h rs, S num_entries, evs).

(** ** [page::remove_key] *)

(** The first statement of [remove_key]:
    [if(IS_FORWARD(hdr.switch_counter)) ++hdr.switch_counter;] *)
Definition remove_key_counter (h : header) : header :=
  if IS_FORWARD (switch_counter h)
  then set_switch_counter (to_uint8 (switch_counter h + 1)) h
  else h.

(** The loop [for(i = 0; records[i].ptr != NULL; ++i)]. *)
Fixpoint remove_loop (fuel : nat) (this : Z) (h : header) (k : Z) (i : nat)
    (shift : bool) (rs : list entry) (evs : list event)
    : list entry * list event * bool :=
  match fuel with
  | O => (rs, evs, shift)
  | S f =>
      if ptr (rec_at rs i) =? NULL then (rs, evs, shift)
      else
        let hit := negb shift && (key (rec_at rs i) =? k) in
        let rs :=
          if hit
          then set_ptr i (match i with
                          | O => leftmost_ptr h
                          | S j => ptr (rec_at rs j)
                          end) rs
          else rs in
        let shift := shift || hit in
        if shift then
          let rs := set_key i (key (rec_at rs (S i))) rs in
          let rs := set_ptr i (ptr (rec_at rs (S i))) rs in
          let evs :=
            if do_flush (addr_of_record this i)
            then evs ++ [EvClflush this (offset_of_record i) CACHE_LINE_SIZE
                                   (mkPage h rs)]
            else evs in
          remove_loop f this h k (S i) shift rs evs
        else remove_loop f this h k (S i) shift rs evs
  end.

(** [page::remove_key(key)]: the page, the flushes and the returned flag. *)
Definition remove_key (this : Z) (p : page) (k : Z)
    : page * list event * bool :=
  let h := remove_key_counter (hdr p) in
  let '(rs, evs, shift) :=
    remove_loop (length (records p)) this h k 0 false (records p) [] in
  let h := if shift then set_last_index (to_int16 (last_index h - 1)) h else h in
  (mkPage h rs, evs, shift).

(** ** Node-local searches *)

(** Leaf, left to right: [for(i=1; records[i].ptr != NULL; ++i)].  The
    second read of [records[i].key] returns the value just read. *)
Fixpoint leaf_scan_forward (fuel : nat) (rs : list entry) (k : Z) (i : nat) : Z :=
  match fuel with
  | O => NULL
  | S f =>
      if ptr (rec_at rs i) =? NULL then NULL
      else if (key (rec_at rs i) =? k)
              && negb (ptr (rec_at rs (i - 1)) =? ptr (rec_at rs i))
      then ptr (rec_at rs i)
      else leaf_scan_forward f rs k (S i)
  end.

(** Leaf, right to left: [for(i = count() - 1; i > 0; --i)]. *)
Fixpoint leaf_scan_backward (rs : list entry) (k : Z) (i : nat) : Z :=
  match i with
  | O => NULL
  | S j =>
      if (key (rec_at rs i) =? k)
         && negb (ptr (rec_at rs j) =? ptr (rec_at rs i))
         && negb (ptr (rec_at rs i) =? NULL)
      then ptr (rec_at rs i)
      else leaf_scan_backward rs k j
  end.

(** Internal node, left to right, from [i = 1]; returns [ret] and the final
    value of [i]. *)
Fixpoint internal_scan_forward (fuel : nat) (rs : list entry) (k : Z) (i : nat)
    : Z * nat :=
  match fuel with
  | O => (NULL, i)
  | S f =>
      if ptr (rec_at rs i) =? NULL then (NULL, i)
      else if (k <? key (rec_at rs i))
              && negb (ptr (rec_at rs (i - 1)) =? ptr (rec_at rs i))
      then (ptr (rec_at rs (i - 1)), i)
      else internal_scan_forward f rs k (S i)
  end.

(** Internal node, right to left: [for(i = count() - 1; i >= 0; --i)]; the
    argument [i1] is [i + 1]. *)
Fixpoint internal_scan_backward (h : header) (rs : list entry) (k : Z) (i1 : nat)
    : Z :=
  match i1 with
  | O => NULL
  | S i =>
      if key (rec_at rs i) <=? k then
        match i with
        | O =>
            if negb (leftmost_ptr h =? ptr (rec_at rs 0))
            then ptr (rec_at rs 0)
            else internal_scan_backward h rs k i
        | S j =>
            if negb (ptr (rec_at rs j) =? ptr (rec_at rs i))
            then ptr (rec_at rs i)
            else internal_scan_backward h rs k i
        end
      else internal_scan_backward h rs k i
  end.

(** The scan of a leaf, before the sibling test. *)
Definition linear_search_leaf (p : page) (k : Z) : Z :=
  let rs := records p in
  if IS_FORWARD (switch_counter (hdr p)) then
    if (key (rec_at rs 0) =? k) && negb (ptr (rec_at rs 0) =? NULL)
    then ptr (rec_at rs 0)
    else leaf_scan_forward (length rs) rs k 1
  else
    let ret := leaf_scan_backward rs k (count p - 1) in
    if negb (ret =? NULL) then ret
    else if (key (rec_at rs 0) =? k) && negb (ptr (rec_at rs 0) =? NULL)
    then ptr (rec_at rs 0)
    else NULL.

(** The scan of an internal node, before the sibling test. *)
Definition linear_search_internal (p : page) (k : Z) : Z :=
  let rs := records p in
  if IS_FORWARD (switch_counter (hdr p)) then
    if (k <? key (rec_at rs 0))
       && negb (leftmost_ptr (hdr p) =? ptr (rec_at rs 0))
    then leftmost_ptr (hdr p)
    else
      let '(ret, i) := internal_scan_forward (length rs) rs k 1 in
      if ret =? NULL then ptr (rec_at rs (i - 1)) else ret
  else internal_scan_backward (hdr p) rs k (count p).

(** [page::linear_search(key)] on page [p]; [hp] is the heap, read for the
    sibling's [highest].  [None] stands for the dereference of a pointer that
    is not a page. *)
Definition linear_search (hp : gmap Z page) (p : page) (k : Z) : option Z :=
  let t := sibling_ptr (hdr p) in
  if leftmost_ptr (hdr p) =? NULL then
    let ret := linear_search_leaf p k in
    if negb (ret =? NULL) then Some ret
    else if t =? NULL then Some NULL
    else
      sp ← hp !! t;
      Some (if highest (hdr sp) <=? k then t else NULL)
  else
    let ret := linear_search_internal p k in
    over ← (if t =? NULL then Some false
            else sp ← hp !! t; Some (highest (hdr sp) <=? k));
    if over : bool then Some t
    else if negb (ret =? NULL) then Some ret
    else Some (leftmost_ptr (hdr p)).

(** ** [page::linear_search_range] *)

(** One visited entry: [tmp_key], [tmp_ptr] and the pointer it is compared
    with ([NULL] for [records[0]], the left neighbour's otherwise).  The
    result is the buffer, [off], and whether the function returns. *)
Definition range_visit (min max : Z) (tmp_key tmp_ptr other : Z)
    (buf : list Z) (off : nat) : list Z * nat * bool :=
  if min <? tmp_key then
    if tmp_key <? max then
      if negb (tmp_ptr =? other) && negb (tmp_ptr =? NULL)
      then (<[off := tmp_ptr]> buf, S off, false)
      else (buf, off, false)
    else (buf, off, true)
  else (buf, off, false).

Fixpoint range_forward (fuel : nat) (min max : Z) (rs : list entry) (i : nat)
    (buf : list Z) (off : nat) : list Z * nat * bool :=
  match fuel with
  | O => (buf, off, false)
  | S f =>
      if ptr (rec_at rs i) =? NULL then (buf, off, false)
      else
        let '(buf, off, stop) :=
          range_visit min max (key (rec_at rs i)) (ptr (rec_at rs i))
                      (ptr (rec_at rs (i - 1))) buf off in
        if stop : bool then (buf, off, true)
        else range_forward f min max rs (S i) buf off
  end.

Fixpoint range_backward (min max : Z) (rs : list entry) (i : nat)
    (buf : list Z) (off : nat) : list Z * nat * bool :=
  match i with
  | O => (buf, off, false)
  | S j =>
      let '(buf, off, stop) :=
        range_visit min max (key (rec_at rs i)) (ptr (rec_at rs i))
                    (ptr (rec_at rs j)) buf off in
      if stop : bool then (buf, off, true)
      else range_backward min max rs j buf off
  end.

(** The body of the [do ... while] for the page [current]; [this_count] is
    the value of [count()], which the code evaluates on [this], the page the
    scan started from. *)
Definition range_page (min max : Z) (this_count : nat) (current : page)
    (buf : list Z) (off : nat) : list Z * nat * bool :=
  let rs := records current in
  if IS_FORWARD (switch_counter (hdr current)) then
    let '(buf, off, stop) :=
      range_visit min max (key (rec_at rs 0)) (ptr (rec_at rs 0)) NULL buf off in
    if stop : bool then (buf, off, true)
    else range_forward (length rs) min max rs 1 buf off
  else
    let '(buf, off, stop) :=
      range_backward min max rs (this_count - 1) buf off in
    if stop : bool then (buf, off, true)
    else range_visit min max (key (rec_at rs 0)) (ptr (rec_at rs 0)) NULL buf off.

(** [while(current) { ...; current = current->hdr.sibling_ptr; }] *)
Fixpoint range_chain (fuel : nat) (hp : gmap Z page) (min max : Z)
    (this_count : nat) (current : Z) (buf : list Z) (off : nat)
    : option (list Z) :=
  match fuel with
  | O => None
  | S f =>
      if current =? NULL then Some buf
      else
        cur ← hp !! current;
        let '(buf, off, stop) := range_page min max this_count cur buf off in
        if stop : bool then Some buf
        else range_chain f hp min max this_count (sibling_ptr (hdr cur)) buf off
  end.

(** [page::linear_search_range(min, max, buf)] on the page at [this]. *)
Definition linear_search_range (hp : gmap Z page) (this : Z) (min max : Z)
    (buf : list Z) : option (list Z) :=
  p ← hp !! this;
  range_chain (S (size hp)) hp min max (count p) this buf 0.

(** ** The tree and its memory *)

(** The process state seen by one thread: the pages allocated so far, the
    allocator, the [btree] object and the persistence log.  [brk] is the
    address the next [new page] returns, and [stale] the bit pattern that
    fresh memory holds in the words no constructor assigns. *)
Record state := mkState {
  heap : gmap Z page;
  brk : Z;
  stale : Z;
  root : Z;
  height : Z;
  log : list event
}.

Definition set_heap (hp : gmap Z page) (s : state) : state :=
  mkState hp (brk s) (stale s) (root s) (height s) (log s).
Definition add_log (evs : list event) (s : state) : state :=
  mkState (heap s) (brk s) (stale s) (root s) (height s) (log s ++ evs).

(** [*this = p] for the page at address [a]. *)
Definition write_page (a : Z) (p : page) (s : state) : state :=
  set_heap (<[a := p]> (heap s)) s.

(** [page::operator new]: the next [PAGESIZE] bytes, 64-byte aligned. *)
Definition operator_new (p : page) (s : state) : state * Z :=
  (mkState (<[brk s := p]> (heap s)) (brk s + PAGESIZE) (stale s)
           (root s) (height s) (log s),
   brk s).

(** [btree::btree()] with the allocator starting at [base]. *)
Definition btree_ctor (base stale : Z) : state :=
  mkState {[ base := page_ctor stale 0 ]} (base + PAGESIZE) stale base 1 [].

(** [btree::setNewRoot] *)
Definition setNewRoot (new_root : Z) (s : state) : state :=
  mkState (heap s) (brk s) (stale s) new_root (height s + 1)
          (log s ++ [EvSetRoot new_root; EvClflushRoot new_root]).

(** [new page(left, key, right, level)], with the constructor's flush. *)
Definition new_root (left k right lvl : Z) (s : state) : state * Z :=
  let p := page_ctor_root (stale s) left k right lvl in
  let '(s, a) := operator_new p s in
  (add_log [EvClflush a 0 PAGESIZE p] s, a).

(** ** FAIR split (the [else] branch of [page::store]) *)

(** [register int m = (int) ceil(num_entries/2);] the quotient is the
    integer division of two [int]s, converted to [double] for [ceil]. *)
Definition split_point (num_entries : Z) : Z :=
  Qceiling (inject_Z (num_entries ÷ 2)).

(** The migration loop [for(i = first; i < num_entries; ++i)
    sibling->insert_key(records[i].key, records[i].ptr, &sibling_cnt, false)];
    [todo] is [num_entries - i]. *)
Fixpoint migrate (todo : nat) (sa : Z) (src : list entry) (i : nat)
    (sibling : page) (sibling_cnt : nat) : page * nat :=
  match todo with
  | O => (sibling, sibling_cnt)
  | S t =>
      let '(sibling, sibling_cnt, _) :=
        insert_key sa sibling (key (rec_at src i)) (ptr (rec_at src i))
                   sibling_cnt false true in
      migrate t sa src (S i) sibling sibling_cnt
  end.

(** The new sibling as it is when it is flushed: allocated at [sa], filled
    with the upper half of [p], with [highest] and [sibling_ptr] set. *)
Definition fair_sibling (stale sa : Z) (p : page) (num_entries : nat)
    : page * nat :=
  let sibling := page_ctor stale (level (hdr p)) in
  let m := Z.to_nat (split_point (Z.of_nat num_entries)) in
  let '(sibling, sibling_cnt) :=
    if leftmost_ptr (hdr p) =? NULL then
      let '(sb, cnt) := migrate (num_entries - m) sa (records p) m sibling 0 in
      (mkPage (set_highest (key (rec_at (records p) m)) (hdr sb)) (records sb), cnt)
    else
      let '(sb, cnt) :=
        migrate (num_entries - (m + 1)) sa (records p) (m + 1) sibling 0 in
      let h := set_leftmost_ptr (ptr (rec_at (records p) m)) (hdr sb) in
      (mkPage (set_highest (key (rec_at (records p) m)) h) (records sb), cnt) in
  (mkPage (set_sibling_ptr (sibling_ptr (hdr p)) (hdr sibling)) (records sibling),
   sibling_cnt).

(** The counter update of the split: [+= 2] if forward, [++] otherwise. *)
Definition fair_counter (h : header) : header :=
  if IS_FORWARD (switch_counter h)
  then set_switch_counter (to_uint8 (switch_counter h + 2)) h
  else set_switch_counter (to_uint8 (switch_counter h + 1)) h.

(** The split of the page [p] at address [this], from [new page(hdr.level)]
    to the insertion of the key into one of the two halves.  Returns the
    state, the sibling's address, [split_key] and [ret]. *)
Definition fair_split (s : state) (this : Z) (p : page) (num_entries : nat)
    (k right : Z) : state * Z * Z * Z :=
  let sa := brk s in
  let m := Z.to_nat (split_point (Z.of_nat num_entries)) in
  let split_key := key (rec_at (records p) m) in
  (* create the sibling, migrate, link it to our sibling, flush it *)
  let '(sibling, sibling_cnt) := fair_sibling (stale s) sa p num_entries in
  let '(s, _) := operator_new sibling s in
  let s := add_log [EvClflush sa 0 PAGESIZE sibling] s in
  (* hdr.sibling_ptr = sibling; clflush(&hdr, sizeof(hdr)) *)
  let p := mkPage (set_sibling_ptr sa (hdr p)) (records p) in
  let s := add_log [EvSetSibling this sa; EvClflush this 0 sizeof_header p]
                   (write_page this p s) in
  (* switch counter, records[m].ptr = NULL, flush *)
  let p := mkPage (fair_counter (hdr p)) (set_ptr m NULL (records p)) in
  let s := add_log [EvClflush this (offset_of_record m) sizeof_entry p]
                   (write_page this p s) in
  (* hdr.last_index = m - 1, flush *)
  let p := mkPage (set_last_index (to_int16 (Z.of_nat m - 1)) (hdr p))
                  (records p) in
  let s := add_log [EvClflush this offsetof_last_index 2 p]
                   (write_page this p s) in
  let num_entries := Z.to_nat (last_index (hdr p) + 1) in
  (* insert the key *)
  if k <? split_key then
    let '(p, _, evs) := insert_key this p k right num_entries true true in
    (add_log evs (write_page this p s), sa, split_key, this)
  else
    let '(sibling, _, evs) :=
      insert_key sa sibling k right sibling_cnt true true in
    (add_log evs (write_page sa sibling s), sa, split_key, sa).

(** ** Descent *)

(** [while(p->hdr.leftmost_ptr != NULL) p = p->linear_search(key);] *)
Fixpoint descend_to_leaf (fuel : nat) (hp : gmap Z page) (p : Z) (k : Z)
    : option Z :=
  match fuel with
  | O => None
  | S f =>
      pg ← hp !! p;
      if leftmost_ptr (hdr pg) =? NULL then Some p
      else
        t ← linear_search hp pg k;
        descend_to_leaf f hp t k
  end.

(** [while(p->hdr.level > level) p = p->linear_search(key);] *)
Fixpoint descend_to_level (fuel : nat) (hp : gmap Z page) (p : Z) (k lvl : Z)
    : option Z :=
  match fuel with
  | O => None
  | S f =>
      pg ← hp !! p;
      if lvl <? level (hdr pg) then
        t ← linear_search hp pg k;
        descend_to_level f hp t k lvl
      else Some p
  end.

(** [while((t = p->linear_search(key)) == p->hdr.sibling_ptr)
      { p = t; if(!p) break; }]; returns the final [p] and [t]. *)
Fixpoint follow_siblings (fuel : nat) (hp : gmap Z page) (p : Z) (k : Z)
    : option (Z * Z) :=
  match fuel with
  | O => None
  | S f =>
      pg ← hp !! p;
      t ← linear_search hp pg k;
      if t =? sibling_ptr (hdr pg) then
        if t =? NULL then Some (t, t)
        else follow_siblings f hp t k
      else Some (p, t)
  end.

(** The loops above visit pages of the heap; more iterations than there are
    pages means that the loop revisits a page and never ends. *)
Definition loop_fuel (s : state) : nat := S (size (heap s)).

(** ** [page::store] and [btree::btree_insert_internal] *)

(** The test at the head of [store]: [hdr.sibling_ptr &&
    hdr.sibling_ptr != invalid_sibling && key >= hdr.sibling_ptr->hdr.highest]. *)
Definition sibling_overshoot (hp : gmap Z page) (p : page) (k : Z)
    (invalid_sibling : Z) : option bool :=
  let sib := sibling_ptr (hdr p) in
  if negb (sib =? NULL) && negb (sib =? invalid_sibling)
  then sp ← hp !! sib; Some (highest (hdr sp) <=? k)
  else Some false.

(** [this->store(bt, NULL, key, right, flush, true, invalid_sibling)] and
    [bt->btree_insert_internal(NULL, key, right, level)].  [fuel] bounds the
    depth of the calls ([store] on the sibling, the insertion of the split
    key one level up, the retry after a deleted node); [None] is returned
    when it runs out or a pointer that is not a page is dereferenced. *)
Fixpoint store (fuel : nat) (s : state) (this : Z) (k right : Z)
    (flush : bool) (invalid_sibling : Z) : option (state * Z) :=
  match fuel with
  | O => None
  | S f =>
      p ← heap s !! this;
      if negb (is_deleted (hdr p) =? 0) then Some (s, NULL)
      else
        over ← sibling_overshoot (heap s) p k invalid_sibling;
        if over : bool
        then store f s (sibling_ptr (hdr p)) k right true invalid_sibling
        else
          let num_entries := count p in
          if Z.of_nat num_entries <? cardinality - 1 then
            (* FAST *)
            let '(p, _, evs) :=
              insert_key this p k right num_entries flush true in
            Some (add_log evs (write_page this p s), this)
          else
            (* FAIR *)
            let '(s1, sa, split_key, ret) :=
              fair_split s this p num_entries k right in
            let lvl := to_uint32 (level (hdr p) + 1) in
            if root s1 =? this then
              let '(s2, r) := new_root this split_key sa lvl s1 in
              Some (setNewRoot r s2, ret)
            else
              s2 ← btree_insert_internal f s1 split_key sa lvl;
              Some (s2, ret)
  end
with btree_insert_internal (fuel : nat) (s : state) (k right : Z) (lvl : Z)
    : option state :=
  match fuel with
  | O => None
  | S f =>
      rt ← heap s !! root s;
      if level (hdr rt) <? lvl then Some s
      else
        p ← descend_to_level (loop_fuel s) (heap s) (root s) k lvl;
        '(s1, r) ← store f s p k right true NULL;
        if r =? NULL then btree_insert_internal f s1 k right lvl
        else Some s1
  end.

(** ** The index operations *)

(** [btree::btree_insert(key, right)] *)
Fixpoint btree_insert (fuel : nat) (k right : Z) (s : state) : option state :=
  match fuel with
  | O => None
  | S f =>
      p ← descend_to_leaf (loop_fuel s) (heap s) (root s) k;
      '(s1, r) ← store f s p k right true NULL;
      if r =? NULL then btree_insert f k right s1 else Some s1
  end.

(** [btree::btree_search(key)]; the message printed on a miss is left out. *)
Definition btree_search (k : Z) (s : state) : option Z :=
  p ← descend_to_leaf (loop_fuel s) (heap s) (root s) k;
  '(_, t) ← follow_siblings (loop_fuel s) (heap s) p k;
  if (t =? NULL) || negb (t =? k) then Some NULL else Some t.

(** [page::remove(bt, key)]: [remove_key] under the node lock. *)
Definition remove (this : Z) (k : Z) (s : state) : option (state * bool) :=
  p ← heap s !! this;
  let '(p, evs, ret) := remove_key this p k in
  Some (add_log evs (write_page this p s), ret).

(** [btree::btree_delete(key)]; the message printed when [p] is null is left
    out.  [fuel] bounds the number of nested calls of [btree_delete]. *)
Fixpoint btree_delete (fuel : nat) (k : Z) (s : state) : option state :=
  match fuel with
  | O => None
  | S f =>
      p ← descend_to_leaf (loop_fuel s) (heap s) (root s) k;
      '(p, _) ← follow_siblings (loop_fuel s) (heap s) p k;
      if p =? NULL then Some s
      else
        '(s1, ret) ← remove p k s;
        if ret : bool then Some s1 else btree_delete f k s1
  end.

(** [btree::btree_search_range(min, max, buf)] *)
Fixpoint search_range_from (fuel : nat) (hp : gmap Z page) (p : Z)
    (min max : Z) (buf : list Z) : option (list Z) :=
  match fuel with
  | O => None
  | S f =>
      if p =? NULL then Some buf
      else
        pg ← hp !! p;
        if negb (leftmost_ptr (hdr pg) =? NULL) then
          t ← linear_search hp pg min;
          search_range_from f hp t min max buf
        else linear_search_range hp p min max buf
  end.

Definition btree_search_range (min max : Z) (buf : list Z) (s : state)
    : option (list Z) :=
  search_range_from (loop_fuel s) (heap s) (root s) min max buf.

(** ** Vocabulary of the statements *)

(** The valid entries of a node: the prefix of [records] before the first
    null value handle. *)
Fixpoint valid_entries (rs : list entry) : list entry :=
  match rs with
  | [] => []
  | e :: rs' => if ptr e =? NULL then [] else e :: valid_entries rs'
  end.

(** Ascending keys (equal keys allowed). *)
Fixpoint key_sorted (es : list entry) : bool :=
  match es with
  | [] => true
  | e :: es' => forallb (λ e', key e <=? key e') es' && key_sorted es'
  end.

(** The slot that the shift loop of [insert_key] leaves for the new entry,
    when it starts from [i1] entries: one past the rightmost entry whose key
    is not greater than [k]. *)
Fixpoint ins_pos (k : Z) (es : list entry) (i1 : nat) : nat :=
  match i1 with
  | O => O
  | S i => if k <? key (rec_at es i) then ins_pos k es i else S i
  end.

(** The entries without the first one whose key is [k]. *)
Fixpoint remove_first (k : Z) (es : list entry) : list entry :=
  match es with
  | [] => []
  | e :: es' => if key e =? k then es' else e :: remove_first k es'
  end.

(** Some entry has key [k]. *)
Definition has_key (k : Z) (es : list entry) : bool :=
  existsb (λ e, key e =? k) es.

(** The switch counter that a flush event saw in the page. *)
Definition flushed_counter (e : event) : option Z :=
  match e with
  | EvClflush _ _ _ img => Some (switch_counter (hdr img))
  | _ => None
  end.

(** The ceiling of [n / 2] in exact rational arithmetic. *)
Definition ceil_half (n : Z) : Z := Qceiling (n # 2).

(** The floor of [n / 2] in exact rational arithmetic. *)
Definition floor_half (n : Z) : Z := Qfloor (n # 2).

(** A flush issued on one of the two pages [a] and [b]. *)
Definition flush_of (a b : Z) (e : event) : Prop :=
  match e with
  | EvClflush pg _ _ _ => pg = a ∨ pg = b
  | _ => False
  end.

(** ** Example trees *)

(** [btree_insert(k, (char* )k)] for each key of [ks], as the test programs
    do. *)
Definition insert_keys (ks : list Z) (s : state) : option state :=
  foldl (λ os k, s ← os; btree_insert 8 k k s) (Some s) ks.

(** A fresh tree: first page at 4096, fresh memory zeroed. *)
Definition empty_tree : state := btree_ctor 4096 0.

(** Keys 1..29: one split, leaves [1..14] and [15..29] under a new root. *)
Definition tree_1_29 : state :=
  default empty_tree (insert_keys (Z.of_nat <$> seq 1 29) empty_tree).

(** [tree_1_29] after one pass of [btree_delete(0)] over its left leaf. *)
Definition tree_1_29_touched : state :=
  default tree_1_29 (fst <$> remove 4096 0 tree_1_29).

(** Keys 1..4 in a single leaf, then [btree_delete(3)]. *)
Definition tree_124 : state :=
  default empty_tree
    (s ← insert_keys [1; 2; 3; 4] empty_tree; btree_delete 4 3 s).

(** A full leaf: 28 entries with keys 10, 20, ..., 280. *)
Definition full_leaf : page :=
  let rs := (λ i, mkEntry (10 * Z.of_nat i) (10 * Z.of_nat i)) <$> seq 1 28 in
  mkPage (mkHeader NULL NULL 0 0 0 27 0) (rs ++ [entry_ctor]).

(** The tree whose root is [full_leaf]. *)
Definition full_tree : state :=
  mkState {[ 4096 := full_leaf ]} 4608 0 4096 1 [].

(** A leaf with the three entries (10, 110), (20, 120), (30, 130). *)
Definition small_leaf : page :=
  mkPage (mkHeader NULL NULL 0 0 0 2 0)
         ([mkEntry 10 110; mkEntry 20 120; mkEntry 30 130]
          ++ replicate 26 entry_ctor).

(** ** Vocabulary of the further properties *)

(** The handle of the first, and of the last, entry with key [k]. *)
Fixpoint first_with_key (k : Z) (es : list entry) : option Z :=
  match es with
  | [] => None
  | e :: es' => if key e =? k then Some (ptr e) else first_with_key k es'
  end.

Fixpoint last_with_key (k : Z) (es : list entry) : option Z :=
  match es with
  | [] => None
  | e :: es' =>
      match last_with_key k es' with
      | Some v => Some v
      | None => if key e =? k then Some (ptr e) else None
      end
  end.

(** Neighbouring entries carry different handles; [prev] is the handle
    left of the first entry. *)
Fixpoint distinct_neighbours (prev : Z) (es : list entry) : bool :=
  match es with
  | [] => true
  | e :: es' => negb (prev =? ptr e) && distinct_neighbours (ptr e) es'
  end.

(** The child of an internal node for key [k]: [cur] is the child left of
    the entries; the walk stops at the first entry with a greater key. *)
Fixpoint child_for (k : Z) (cur : Z) (es : list entry) : Z :=
  match es with
  | [] => cur
  | e :: es' => if k <? key e then cur else child_for k (ptr e) es'
  end.

(** The handles of the entries with [min < key < max]. *)
Definition in_range (min max : Z) (es : list entry) : list Z :=
  ptr <$> filter (λ e, min < key e < max) es.

(** The array has [cardinality] slots, the valid entries leave room for the
    terminator, [last_index] names the last valid entry, and a node without
    valid entries has a null handle in slot 1 too (the forward scans start
    there). *)
Definition quiescent (p : page) : Prop :=
  let es := valid_entries (records p) in
  length (records p) = Z.to_nat cardinality ∧
  (length es < length (records p))%nat ∧
  last_index (hdr p) + 1 = Z.of_nat (length es) ∧
  (es = [] → ptr (rec_at (records p) 1) = NULL).

(** A leaf whose [last_index] lags behind: three valid entries, [last_index]
    0, odd switch counter. *)
Definition lagging_leaf : page :=
  mkPage (mkHeader NULL NULL 0 1 0 0 0)
         ([mkEntry 10 110; mkEntry 20 120; mkEntry 30 130]
          ++ replicate 26 entry_ctor).

(** A tree that consists of one leaf: the root is a quiescent leaf without
    sibling, not marked deleted. *)
Definition single_leaf (s : state) (p : page) : Prop :=
  root s ≠ NULL ∧
  heap s !! root s = Some p ∧
  leftmost_ptr (hdr p) = NULL ∧
  sibling_ptr (hdr p) = NULL ∧
  is_deleted (hdr p) = 0 ∧
  quiescent p.

(** The tree whose root is [small_leaf]. *)
Definition small_tree : state :=
  mkState {[ 4096 := small_leaf ]} 4608 0 4096 1 [].

(** A root over two leaves, the shape of a tree after its first split: the
    root [rt] has the left leaf [pa] as leftmost child and one entry, whose
    key is the right leaf's [highest] and whose pointer is the right leaf
    [pb], the sibling of [pa]. *)
Definition two_leaves (s : state) (rt pa pb : page) : Prop :=
  let a := leftmost_ptr (hdr rt) in
  let b := sibling_ptr (hdr pa) in
  heap s !! root s = Some rt ∧ heap s !! a = Some pa ∧ heap s !! b = Some pb ∧
  a ≠ NULL ∧ b ≠ NULL ∧ a ≠ b ∧
  sibling_ptr (hdr rt) = NULL ∧
  valid_entries (records rt) = [mkEntry (highest (hdr pb)) b] ∧
  leftmost_ptr (hdr pa) = NULL ∧ leftmost_ptr (hdr pb) = NULL ∧
  sibling_ptr (hdr pb) = NULL ∧
  quiescent rt ∧ quiescent pa ∧ quiescent pb.

(** The page at address [a] in the state [s] (an empty page if there is
    none). *)
Definition page_of (s : state) (a : Z) : page :=
  default (page_ctor (stale s) 0) (heap s !! a).

(** ** [clflush] *)

(** The loop of [clflush(data, len)]:
    [for(; ptr < data + len; ptr += CACHE_LINE_SIZE)] with one [clflush]
    instruction on [ptr] per iteration; the result lists these addresses.
    The delay loop that emulates the write latency has no effect on memory
    and is left out. *)
Fixpoint clflush_loop (fuel : nat) (ptr lim : Z) : list Z :=
  match fuel with
  | O => []
  | S f =>
      if ptr <? lim then ptr :: clflush_loop f (ptr + CACHE_LINE_SIZE) lim
      else []
  end.

(** [clflush(char *data, int len)]: [ptr] starts at
    [(unsigned long)data & ~(CACHE_LINE_SIZE-1)].  The loop runs at most
    [len / CACHE_LINE_SIZE + 2] times. *)
Definition clflush (data len : Z) : list Z :=
  clflush_loop (Z.to_nat (len / CACHE_LINE_SIZE + 2))
               (Z.land data (Z.lnot (CACHE_LINE_SIZE - 1)))
               (data + len).


(** ** Proof automation *)


(** * Properties *)

(** ** Array reads and writes *)

Section Records.
Implicit Types (rs es tl : list entry) (e hole : entry) (i j n : nat).

Lemma rec_at_lookup rs i e : rs !! i = Some e → rec_at rs i = e.
Proof. unfold rec_at. by intros ->. Qed.

Lemma rec_at_app_l rs tl i :
  (i < length rs)%nat → rec_at (rs ++ tl) i = rec_at rs i.
Proof. intros H. unfold rec_at. by rewrite lookup_app_l. Qed.

Lemma rec_at_middle rs tl e : rec_at (rs ++ e :: tl) (length rs) = e.
Proof. apply rec_at_lookup. by apply list_lookup_middle. Qed.

Lemma set_key_ptr i k v rs :
  set_key i k (set_ptr i v rs) = <[i := mkEntry k v]> rs.
Proof.
  unfold set_key, set_ptr, rec_at.
  destruct (decide (i < length rs)%nat) as [Hi|Hi].
  - rewrite list_lookup_insert_eq by done. simpl.
    by rewrite list_insert_insert_eq.
  - rewrite !list_insert_ge; try lia. done.
    rewrite list_insert_ge; lia.
Qed.

Lemma set_ptr_entry i k v w rs :
  set_ptr i v (<[i := mkEntry k w]> rs) = <[i := mkEntry k v]> rs.
Proof.
  unfold set_ptr, rec_at.
  destruct (decide (i < length rs)%nat) as [Hi|Hi].
  - rewrite list_lookup_insert_eq by done. simpl.
    by rewrite list_insert_insert_eq.
  - rewrite !list_insert_ge; try lia. done.
    rewrite list_insert_ge; lia.
Qed.

Lemma insert_middle rs tl hole e :
  <[length rs := e]> (rs ++ hole :: tl) = rs ++ e :: tl.
Proof.
  replace (length rs) with (length rs + 0)%nat at 1 by lia.
  by rewrite insert_app_r.
Qed.

Lemma insert_after_take es tl hole e i :
  (i ≤ length es)%nat →
  <[i := e]> (take i es ++ hole :: tl) = take i es ++ e :: tl.
Proof.
  intros Hi. rewrite insert_app_r_alt by (rewrite length_take; lia).
  rewrite length_take. by replace (i - i `min` length es)%nat with O by lia.
Qed.

Lemma length_set_key i k rs : length (set_key i k rs) = length rs.
Proof. apply length_insert. Qed.

Lemma length_set_ptr i v rs : length (set_ptr i v rs) = length rs.
Proof. apply length_insert. Qed.
End Records.

(** ** Valid entries and sortedness *)

Section Valid.
Implicit Types (rs es tl : list entry) (e t : entry).

Lemma valid_entries_nonnull rs : Forall (λ e, ptr e ≠ NULL) (valid_entries rs).
Proof.
  induction rs as [|e rs IH]; simpl; [constructor|].
  destruct (Z.eqb_spec (ptr e) NULL); constructor; auto.
Qed.

Lemma valid_entries_app es t tl :
  Forall (λ e, ptr e ≠ NULL) es → ptr t = NULL →
  valid_entries (es ++ t :: tl) = es.
Proof.
  intros Hes Ht. induction Hes as [|e es He _ IH]; simpl.
  - by rewrite Ht.
  - destruct (Z.eqb_spec (ptr e) NULL); [done|]. by rewrite IH.
Qed.

Lemma valid_entries_all es :
  Forall (λ e, ptr e ≠ NULL) es → valid_entries es = es.
Proof.
  intros Hes. induction Hes as [|e es He _ IH]; simpl; [done|].
  destruct (Z.eqb_spec (ptr e) NULL); [done|]. by rewrite IH.
Qed.

(** A node whose valid entries do not fill the array holds a terminator
    right after them. *)
Lemma valid_entries_split rs :
  (length (valid_entries rs) < length rs)%nat →
  ∃ t tl, rs = valid_entries rs ++ t :: tl ∧ ptr t = NULL.
Proof.
  induction rs as [|e rs IH]; simpl; [lia|].
  destruct (Z.eqb_spec (ptr e) NULL) as [He|He]; simpl; intros Hlen.
  - by exists e, rs.
  - destruct IH as (t & tl & Heq & Ht); [lia|].
    exists t, tl. split; [|done]. by rewrite <- Heq.
Qed.

Lemma valid_entries_prefix rs : ∃ tl, rs = valid_entries rs ++ tl.
Proof.
  induction rs as [|e rs [tl IH]]; simpl; [by exists []|].
  destruct (ptr e =? NULL); [by eexists|].
  exists tl. simpl. by rewrite <- IH.
Qed.

Lemma key_sorted_cons e es :
  key_sorted (e :: es) = true ↔
  Forall (λ e', key e ≤ key e') es ∧ key_sorted es = true.
Proof.
  simpl. rewrite andb_true_iff, forallb_forall, Forall_forall.
  split; intros [H1 H2]; split; auto; intros x Hx.
  - apply Z.leb_le, H1. by apply list_elem_of_In.
  - apply Z.leb_le, H1. by apply list_elem_of_In.
Qed.

Lemma key_sorted_app l1 l2 :
  key_sorted (l1 ++ l2) = true ↔
  key_sorted l1 = true ∧ key_sorted l2 = true ∧
  Forall (λ a, Forall (λ b, key a ≤ key b) l2) l1.
Proof.
  induction l1 as [|a l1 IH].
  - simpl. split; [intros H; by repeat split|by intros (_ & H & _)].
  - change ((a :: l1) ++ l2) with (a :: (l1 ++ l2)).
    rewrite !key_sorted_cons, IH, Forall_app, Forall_cons. tauto.
Qed.

Lemma key_sorted_take n es : key_sorted es = true → key_sorted (take n es) = true.
Proof.
  intros H. rewrite <- (take_drop n es) in H.
  by apply key_sorted_app in H as (? & _).
Qed.

Lemma key_sorted_drop n es : key_sorted es = true → key_sorted (drop n es) = true.
Proof.
  intros H. rewrite <- (take_drop n es) in H.
  by apply key_sorted_app in H as (_ & ? & _).
Qed.

Lemma key_sorted_lookup es i j a b :
  key_sorted es = true → (i < j)%nat →
  es !! i = Some a → es !! j = Some b → key a ≤ key b.
Proof.
  revert i j. induction es as [|e es IH]; intros i j Hs Hij Ha Hb; [done|].
  apply key_sorted_cons in Hs as [Hall Hs].
  destruct i as [|i], j as [|j]; try lia; simpl in *.
  - injection Ha as ->. rewrite Forall_forall in Hall.
    apply Hall. by eapply list_elem_of_lookup_2.
  - eapply (IH i j); eauto with lia.
Qed.
End Valid.

(** ** The shift of [insert_key] *)

Section Insert.
Variables (this : Z) (h : header) (flush : bool) (k v : Z).
Implicit Types (rs es tl : list entry) (e t hole : entry) (evs : list event).

Lemma entry_eta e : mkEntry (key e) (ptr e) = e.
Proof. by destruct e. Qed.

Lemma ins_pos_le es i1 : (ins_pos k es i1 ≤ i1)%nat.
Proof.
  induction i1 as [|i IH]; simpl; [lia|].
  destruct (k <? key (rec_at es i)); lia.
Qed.

(** The loop invariant: the entries at and after [i1] have moved one slot
    to the right, leaving a slot to overwrite at [i1]. *)
Lemma fast_shift_records es tl i1 hole evs :
  (i1 ≤ length es)%nat →
  let r := fast_shift this h flush k v i1
             (take i1 es ++ hole :: drop i1 es ++ tl) evs in
  let j := ins_pos k es i1 in
  (r.2 = true ∧
   r.1.1 = take j es ++ mkEntry k v :: drop j es ++ tl) ∨
  (r.2 = false ∧ j = O ∧ ∃ hole', r.1.1 = hole' :: es ++ tl).
Proof.
  revert hole evs. induction i1 as [|i IH]; intros hole evs Hi.
  - right. simpl. rewrite drop_0. eauto.
  - destruct (lookup_lt_is_Some_2 es i) as [e He]; [lia|].
    assert (Hlen : length (take (S i) es) = S i) by (rewrite length_take; lia).
    assert (Hrd : rec_at (take (S i) es ++ hole :: drop (S i) es ++ tl) i = e).
    { rewrite rec_at_app_l by lia. apply rec_at_lookup.
      rewrite lookup_take_lt by lia. done. }
    assert (Hes : rec_at es i = e) by by apply rec_at_lookup.
    cbn [fast_shift ins_pos]. rewrite Hrd, Hes.
    destruct (k <? key e).
    + assert (Hrd' : rec_at (set_ptr (S i) (ptr e)
                (take (S i) es ++ hole :: drop (S i) es ++ tl)) i = e).
      { unfold set_ptr at 1. unfold rec_at at 1.
        rewrite list_lookup_insert_ne by lia. apply Hrd. }
      rewrite Hrd', set_key_ptr, entry_eta.
      rewrite insert_after_take by lia.
      rewrite (take_S_r _ _ _ He), <- app_assoc. simpl.
      replace (e :: e :: drop (S i) es ++ tl) with (e :: drop i es ++ tl)
        by (by rewrite (drop_S _ _ _ He)).
      apply IH. lia.
    + left. split; [done|]. simpl.
      rewrite set_key_ptr, set_ptr_entry.
      by rewrite insert_after_take by lia.
Qed.

(** The array after the entry writes of [insert_key]: the new entry sits
    at [ins_pos], the entries to its right and the terminator have moved
    one slot up. *)
Lemma insert_key_entries_records es t t2 tl :
  ptr t = NULL →
  let j := ins_pos k es (length es) in
  (insert_key_entries this h (es ++ t :: t2 :: tl) k v (length es) flush).1
  = take j es ++ mkEntry k v :: drop j es ++ mkEntry (key t2) NULL :: tl.
Proof.
  intros Ht j. subst j. destruct es as [|e0 es'] eqn:Ees.
  - simpl. unfold set_key, set_ptr, rec_at. simpl. done.
  - rewrite <- Ees. assert (Hn : length es = S (length es')) by by subst.
    unfold insert_key_entries. rewrite Hn, <- Hn.
    rewrite rec_at_middle, Ht.
    assert (Hw : set_ptr (S (length es)) NULL (es ++ t :: t2 :: tl)
                 = es ++ t :: mkEntry (key t2) NULL :: tl).
    { unfold set_ptr, rec_at.
      replace (S (length es)) with (length es + 1)%nat by lia.
      rewrite insert_app_r, lookup_app_r by lia.
      replace (length es + 1 - length es)%nat with 1%nat by lia. done. }
    rewrite Hw.
    match goal with
    | |- context [fast_shift _ _ _ _ _ _ _ ?ev] =>
        pose proof (fast_shift_records es (mkEntry (key t2) NULL :: tl)
                      (length es) t ev) as Hfs
    end.
    rewrite take_ge, drop_ge in Hfs by lia. simpl in Hfs.
    specialize (Hfs ltac:(lia)).
    destruct (fast_shift _ _ _ _ _ _ _ _) as [[rs' evs'] ins].
    simpl in Hfs. destruct Hfs as [[-> Hrs]|(-> & Hj & hole' & Hrs)].
    + simpl. by rewrite Hrs.
    + simpl. rewrite Hj, Hrs. simpl.
      unfold set_key, set_ptr, rec_at. simpl. done.
Qed.
End Insert.

(** The flag [update_last_index] and the flushes do not influence the
    entries. *)
Lemma insert_key_records this p k v n flush uli :
  records (insert_key this p k v n flush uli).1.1
  = (insert_key_entries this (insert_key_counter (hdr p)) (records p) k v n flush).1.
Proof.
  unfold insert_key. destruct (insert_key_entries _ _ _ _ _ _ _) as [rs evs].
  done.
Qed.

Lemma insert_key_count this p k v n flush uli :
  (insert_key this p k v n flush uli).1.2 = S n.
Proof.
  unfold insert_key. by destruct (insert_key_entries _ _ _ _ _ _ _).
Qed.

(** The valid entries after [insert_key], when [num_entries] is the number of
    valid entries and the array has room for one more and the terminator. *)
Lemma insert_key_valid this p k v flush uli :
  let es := valid_entries (records p) in
  let j := ins_pos k es (length es) in
  (S (length es) < length (records p))%nat →
  v ≠ NULL →
  valid_entries (records (insert_key this p k v (length es) flush uli).1.1)
  = take j es ++ mkEntry k v :: drop j es.
Proof.
  intros es j Hroom Hv.
  destruct (valid_entries_split (records p)) as (t & tl & Heq & Ht); [fold es; lia|].
  fold es in Heq. destruct tl as [|t2 tl].
  { rewrite Heq, length_app in Hroom. simpl in Hroom. lia. }
  rewrite insert_key_records, Heq, insert_key_entries_records by done.
  fold j.
  replace (take j es ++ mkEntry k v :: drop j es ++ mkEntry (key t2) NULL :: tl)
    with ((take j es ++ mkEntry k v :: drop j es) ++ mkEntry (key t2) NULL :: tl)
    by (by rewrite <- app_assoc).
  apply valid_entries_app; [|done].
  pose proof (valid_entries_nonnull (records p)) as Hnn. fold es in Hnn.
  rewrite <- (take_drop j es) in Hnn. apply Forall_app in Hnn as [H1 H2].
  apply Forall_app. split; [done|]. by constructor.
Qed.

(** ** The shift of [remove_key] *)

Section Remove.
Variables (this : Z) (h : header) (k : Z).
Implicit Types (rs es pre suf tl : list entry) (e t c : entry)
  (evs : list event).

Lemma rec_at_app_r pre rs i :
  rec_at (pre ++ rs) (length pre + i) = rec_at rs i.
Proof.
  unfold rec_at. rewrite lookup_app_r by lia.
  by replace (length pre + i - length pre)%nat with i by lia.
Qed.

Lemma set_ptr_key i kk v rs :
  set_ptr i v (set_key i kk rs) = <[i := mkEntry kk v]> rs.
Proof. unfold set_key at 1. apply set_ptr_entry. Qed.

Lemma rec_at_set_key_ne i j kk rs :
  i ≠ j → rec_at (set_key i kk rs) j = rec_at rs j.
Proof.
  intros. unfold set_key. unfold rec_at at 1.
  by rewrite list_lookup_insert_ne.
Qed.

Lemma rec_at_set_ptr_ne i j v rs :
  i ≠ j → rec_at (set_ptr i v rs) j = rec_at rs j.
Proof.
  intros. unfold set_ptr. unfold rec_at at 1.
  by rewrite list_lookup_insert_ne.
Qed.

(** The three ways an iteration of the loop can go. *)
Lemma remove_loop_stop fuel i shift rs evs :
  ptr (rec_at rs i) = NULL →
  remove_loop (S fuel) this h k i shift rs evs = (rs, evs, shift).
Proof. intros H. simpl. by rewrite H. Qed.

Lemma remove_loop_skip fuel i rs evs :
  ptr (rec_at rs i) ≠ NULL → key (rec_at rs i) ≠ k →
  remove_loop (S fuel) this h k i false rs evs
  = remove_loop fuel this h k (S i) false rs evs.
Proof.
  intros Hp Hk. simpl.
  destruct (Z.eqb_spec (ptr (rec_at rs i)) NULL); [done|].
  destruct (Z.eqb_spec (key (rec_at rs i)) k); done.
Qed.

Lemma remove_loop_move fuel i shift rs evs :
  ptr (rec_at rs i) ≠ NULL →
  shift || (key (rec_at rs i) =? k) = true →
  ∃ evs', remove_loop (S fuel) this h k i shift rs evs
          = remove_loop fuel this h k (S i) true
              (<[i := rec_at rs (S i)]> rs) evs'.
Proof.
  intros Hp Hk. cbn [remove_loop].
  destruct (Z.eqb_spec (ptr (rec_at rs i)) NULL); [done|].
  assert (Hs : shift || negb shift && (key (rec_at rs i) =? k) = true).
  { destruct shift; [done|]. simpl in *. done. }
  rewrite Hs.
  destruct (negb shift && (key (rec_at rs i) =? k)).
  - rewrite rec_at_set_key_ne by lia.
    rewrite !rec_at_set_ptr_ne by lia.
    rewrite set_ptr_key. unfold set_ptr at 1.
    rewrite list_insert_insert_eq, entry_eta. eauto.
  - rewrite rec_at_set_key_ne by lia.
    rewrite set_ptr_key, entry_eta. eauto.
Qed.

(** Second phase: the entry to delete is gone, the slot at the index
    holds a copy [c] of its right neighbour. *)
Lemma remove_loop_shift suf : ∀ pre t tl fuel evs,
  Forall (λ e, ptr e ≠ NULL) suf → ptr t = NULL →
  (length suf < fuel)%nat →
  let c := hd t suf in
  let r := remove_loop fuel this h k (length pre + 1) true
             (pre ++ c :: suf ++ t :: tl) evs in
  r.1.1 = pre ++ suf ++ t :: t :: tl ∧ r.2 = true.
Proof.
  induction suf as [|y suf IH]; intros pre t tl fuel evs Hnn Ht Hfuel;
    (destruct fuel as [|fuel]; [simpl in Hfuel; lia|]); cbn zeta.
  - rewrite remove_loop_stop; [done|].
    by rewrite rec_at_app_r.
  - apply Forall_cons in Hnn as [Hy Hnn]. cbn [hd].
    destruct (remove_loop_move fuel (length pre + 1) true
                (pre ++ y :: (y :: suf) ++ t :: tl) evs) as [evs' ->];
      [by rewrite rec_at_app_r|done|].
    replace (S (length pre + 1)) with (length pre + 2)%nat by lia.
    rewrite rec_at_app_r.
    replace (rec_at (y :: (y :: suf) ++ t :: tl) 2) with (hd t suf)
      by (by destruct suf).
    rewrite insert_app_r.
    change (<[1%nat:=hd t suf]> (y :: (y :: suf) ++ t :: tl))
      with (y :: hd t suf :: suf ++ t :: tl).
    replace (pre ++ y :: hd t suf :: suf ++ t :: tl)
      with ((pre ++ [y]) ++ hd t suf :: suf ++ t :: tl)
      by (by rewrite <- app_assoc).
    replace (length pre + 2)%nat with (length (pre ++ [y]) + 1)%nat
      by (rewrite length_app; simpl; lia).
    destruct (IH (pre ++ [y]) t tl fuel evs') as [H1 H2];
      [done|done|simpl in Hfuel; lia|].
    simpl in H1, H2. rewrite H1, H2. split; [|done].
    by rewrite <- app_assoc.
Qed.

(** First phase: no entry with key [k] has been met yet. *)
Lemma remove_loop_search suf : ∀ pre t tl fuel evs,
  Forall (λ e, ptr e ≠ NULL) suf → ptr t = NULL →
  (length suf < fuel)%nat →
  let r := remove_loop fuel this h k (length pre) false
             (pre ++ suf ++ t :: tl) evs in
  r.2 = has_key k suf ∧
  r.1.1 = if has_key k suf
          then pre ++ remove_first k suf ++ t :: t :: tl
          else pre ++ suf ++ t :: tl.
Proof.
  induction suf as [|x suf IH]; intros pre t tl fuel evs Hnn Ht Hfuel;
    (destruct fuel as [|fuel]; [simpl in Hfuel; lia|]); cbn zeta.
  - rewrite remove_loop_stop; [done|].
    replace (length pre) with (length pre + 0)%nat by lia.
    by rewrite rec_at_app_r.
  - apply Forall_cons in Hnn as [Hx Hnn].
    assert (Hrd : rec_at (pre ++ (x :: suf) ++ t :: tl) (length pre) = x).
    { replace (length pre) with (length pre + 0)%nat by lia.
      by rewrite rec_at_app_r. }
    cbn [has_key existsb remove_first].
    destruct (Z.eqb_spec (key x) k) as [Hk|Hk]; cbn [orb].
    + destruct (remove_loop_move fuel (length pre) false
                  (pre ++ (x :: suf) ++ t :: tl) evs) as [evs' ->].
      { by rewrite Hrd. }
      { rewrite Hrd. simpl. by apply Z.eqb_eq. }
      replace (S (length pre)) with (length pre + 1)%nat by lia.
      rewrite rec_at_app_r.
      replace (rec_at ((x :: suf) ++ t :: tl) 1) with (hd t suf)
        by (by destruct suf).
      rewrite insert_app_r_alt by lia.
      replace (length pre - length pre)%nat with 0%nat by lia.
      change (<[0%nat:=hd t suf]> ((x :: suf) ++ t :: tl))
        with (hd t suf :: suf ++ t :: tl).
      destruct (remove_loop_shift suf pre t tl fuel evs') as [H1 H2];
        [done|done|simpl in Hfuel; lia|].
      simpl in H1, H2. by rewrite H1, H2.
    + rewrite remove_loop_skip by (by rewrite Hrd).
      replace ((x :: suf) ++ t :: tl) with ([x] ++ suf ++ t :: tl) by done.
      rewrite app_assoc.
      replace (S (length pre)) with (length (pre ++ [x]))
        by (rewrite length_app; simpl; lia).
      destruct (IH (pre ++ [x]) t tl fuel evs) as [H1 H2];
        [done|done|simpl in Hfuel; lia|].
      simpl in H1, H2. fold (has_key k suf). rewrite H1, H2.
      split; [done|]. destruct (has_key k suf); by rewrite <- !app_assoc.
Qed.
End Remove.

Lemma remove_first_nonnull k es :
  Forall (λ e, ptr e ≠ NULL) es → Forall (λ e, ptr e ≠ NULL) (remove_first k es).
Proof.
  induction 1 as [|e es He Hes IH]; simpl; [constructor|].
  destruct (key e =? k); [done|by constructor].
Qed.

Lemma remove_first_no_key k es : has_key k es = false → remove_first k es = es.
Proof.
  induction es as [|e es IH]; simpl; [done|].
  destruct (key e =? k); simpl; [done|]. intros H. by rewrite IH.
Qed.

Lemma remove_first_Forall (P : entry → Prop) k es :
  Forall P es → Forall P (remove_first k es).
Proof.
  induction 1 as [|e es He Hes IH]; simpl; [constructor|].
  destruct (key e =? k); [done|by constructor].
Qed.

Lemma remove_first_sorted k es :
  key_sorted es = true → key_sorted (remove_first k es) = true.
Proof.
  induction es as [|e es IH]; [done|].
  intros [Hall Hs]%key_sorted_cons. simpl.
  destruct (key e =? k); [done|].
  apply key_sorted_cons. split; [by apply remove_first_Forall|by apply IH].
Qed.

(** The valid entries after [remove_key]: the first entry with the key is
    gone, the others keep their order; the flag tells whether one was
    found. *)
Lemma remove_key_valid this p k :
  let es := valid_entries (records p) in
  (length es < length (records p))%nat →
  valid_entries (records (remove_key this p k).1.1) = remove_first k es ∧
  (remove_key this p k).2 = has_key k es.
Proof.
  intros es Hroom.
  destruct (valid_entries_split (records p)) as (t & tl & Heq & Ht); [done|].
  fold es in Heq.
  pose proof (valid_entries_nonnull (records p)) as Hnn. fold es in Hnn.
  unfold remove_key.
  destruct (remove_loop_search this (remove_key_counter (hdr p)) k es [] t tl
              (length (records p)) []) as [H1 H2]; [done|done|done|].
  simpl in H1, H2. rewrite <- Heq in H1, H2.
  destruct (remove_loop _ _ _ _ _ _ _ _) as [[rs evs] shift].
  simpl in *. subst shift rs. split; [|done].
  destruct (has_key k es) eqn:Hk.
  - apply valid_entries_app; [by apply remove_first_nonnull|done].
  - by rewrite remove_first_no_key.
Qed.

(** ** Where the new entry goes *)

Section InsPos.
Variable k : Z.
Implicit Types (es : list entry) (e : entry).

(** Every entry from the slot up to where the scan started has a greater
    key. *)
Lemma ins_pos_right es i1 i :
  (ins_pos k es i1 ≤ i < i1)%nat → k < key (rec_at es i).
Proof.
  induction i1 as [|i' IH]; simpl; [lia|].
  destruct (Z.ltb_spec k (key (rec_at es i'))) as [Hlt|Hge]; [|lia].
  intros Hi. destruct (decide (i = i')) as [->|]; [done|]. apply IH. lia.
Qed.

(** The entry left of the slot, if any, has a key that is not greater. *)
Lemma ins_pos_left es i1 j :
  ins_pos k es i1 = S j → key (rec_at es j) ≤ k.
Proof.
  induction i1 as [|i' IH]; simpl; [done|].
  destruct (Z.ltb_spec k (key (rec_at es i'))) as [Hlt|Hge]; [done|].
  by intros [= ->].
Qed.

(** The slot is to the right of any entry whose key is not greater. *)
Lemma ins_pos_after es i1 j :
  (j < i1)%nat → key (rec_at es j) ≤ k → (j < ins_pos k es i1)%nat.
Proof.
  intros Hj Hk. induction i1 as [|i' IH]; simpl; [lia|].
  destruct (Z.ltb_spec k (key (rec_at es i'))) as [Hlt|Hge]; [|lia].
  destruct (decide (j = i')) as [->|]; [lia|]. apply IH. lia.
Qed.

(** For ascending keys the slot at the end is the one past the last
    entry when its key is not greater. *)
Lemma ins_pos_end es e :
  key e ≤ k → ins_pos k (es ++ [e]) (length (es ++ [e])) = length (es ++ [e]).
Proof.
  intros He. rewrite length_app. simpl.
  replace (length es + 1)%nat with (S (length es)) by lia. simpl.
  replace (rec_at (es ++ [e]) (length es)) with e
    by (symmetry; apply rec_at_middle).
  destruct (Z.ltb_spec k (key e)); [lia|done].
Qed.

Lemma insert_sorted es v :
  key_sorted es = true →
  let j := ins_pos k es (length es) in
  key_sorted (take j es ++ mkEntry k v :: drop j es) = true.
Proof.
  intros Hs j.
  pose proof (ins_pos_le k es (length es)) as Hj. fold j in Hj.
  apply key_sorted_app. split; [by apply key_sorted_take|]. split.
  - apply key_sorted_cons. split; [|by apply key_sorted_drop].
    apply Forall_forall. intros b Hb.
    apply list_elem_of_lookup in Hb as [i Hi]. rewrite lookup_drop in Hi.
    pose proof (lookup_lt_Some _ _ _ Hi).
    pose proof (ins_pos_right es (length es) (j + i) ltac:(fold j; lia)).
    rewrite (rec_at_lookup _ _ _ Hi) in H0. simpl. lia.
  - apply Forall_forall. intros a Ha.
    apply list_elem_of_lookup in Ha as [i Hi].
    pose proof (lookup_lt_Some _ _ _ Hi) as Hlt. rewrite length_take in Hlt.
    rewrite lookup_take_lt in Hi by lia.
    assert (Hak : key a ≤ k).
    { destruct j as [|j'] eqn:Ej; [lia|].
      pose proof (ins_pos_left es (length es) j' Ej) as Hl.
      destruct (decide (i = j')) as [->|].
      - by rewrite (rec_at_lookup _ _ _ Hi) in Hl.
      - destruct (lookup_lt_is_Some_2 es j') as [c Hc]; [lia|].
        rewrite (rec_at_lookup _ _ _ Hc) in Hl.
        pose proof (key_sorted_lookup es i j' a c Hs ltac:(lia) Hi Hc). lia. }
    constructor; [done|].
    apply Forall_forall. intros b Hb.
    apply list_elem_of_lookup in Hb as [i' Hi']. rewrite lookup_drop in Hi'.
    apply (key_sorted_lookup es i (j + i') a b Hs); [lia|done|done].
Qed.
End InsPos.

(** The valid entries after [insert_key] for any value handle: a null handle
    ends the valid prefix at the new entry. *)
Lemma insert_key_valid_gen this p k v flush uli :
  let es := valid_entries (records p) in
  let j := ins_pos k es (length es) in
  (S (length es) < length (records p))%nat →
  valid_entries (records (insert_key this p k v (length es) flush uli).1.1)
  = if v =? NULL then take j es else take j es ++ mkEntry k v :: drop j es.
Proof.
  intros es j Hroom. destruct (Z.eqb_spec v NULL) as [->|Hv].
  - destruct (valid_entries_split (records p)) as (t & tl & Heq & Ht);
      [fold es; lia|].
    fold es in Heq. destruct tl as [|t2 tl].
    { rewrite Heq, length_app in Hroom. simpl in Hroom. lia. }
    rewrite insert_key_records, Heq, insert_key_entries_records by done.
    fold j. apply valid_entries_app; [|done].
    pose proof (valid_entries_nonnull (records p)) as Hnn. fold es in Hnn.
    rewrite <- (take_drop j es) in Hnn. by apply Forall_app in Hnn as [H1 H2].
  - by apply insert_key_valid.
Qed.

(** ** The switch counter *)

Lemma IS_FORWARD_succ c : IS_FORWARD (to_uint8 (c + 1)) = negb (IS_FORWARD c).
Proof.
  unfold IS_FORWARD, to_uint8.
  assert (H : (c + 1) mod 256 mod 2 = (c + 1) mod 2).
  { pose proof (Z.mod_pos_bound (c + 1) 256 ltac:(lia)).
    pose proof (Z.div_mod (c + 1) 256 ltac:(lia)).
    pose proof (Z.div_mod ((c + 1) mod 256) 2 ltac:(lia)).
    pose proof (Z.mod_pos_bound ((c + 1) mod 256) 2 ltac:(lia)).
    pose proof (Z.div_mod (c + 1) 2 ltac:(lia)).
    pose proof (Z.mod_pos_bound (c + 1) 2 ltac:(lia)).
    lia. }
  rewrite H.
  pose proof (Z.div_mod c 2 ltac:(lia)).
  pose proof (Z.mod_pos_bound c 2 ltac:(lia)).
  pose proof (Z.div_mod (c + 1) 2 ltac:(lia)).
  pose proof (Z.mod_pos_bound (c + 1) 2 ltac:(lia)).
  destruct (Z.eqb_spec (c mod 2) 0), (Z.eqb_spec ((c + 1) mod 2) 0); simpl; lia.
Qed.

Lemma IS_FORWARD_succ2 c : IS_FORWARD (to_uint8 (c + 2)) = IS_FORWARD c.
Proof.
  unfold IS_FORWARD, to_uint8.
  pose proof (Z.mod_pos_bound (c + 2) 256 ltac:(lia)).
  pose proof (Z.div_mod (c + 2) 256 ltac:(lia)).
  pose proof (Z.div_mod ((c + 2) mod 256) 2 ltac:(lia)).
  pose proof (Z.mod_pos_bound ((c + 2) mod 256) 2 ltac:(lia)).
  pose proof (Z.div_mod c 2 ltac:(lia)).
  pose proof (Z.mod_pos_bound c 2 ltac:(lia)).
  destruct (Z.eqb_spec (c mod 2) 0), (Z.eqb_spec ((c + 2) mod 256 mod 2) 0);
    simpl; lia.
Qed.

Lemma insert_key_counter_spec h :
  switch_counter (insert_key_counter h)
  = (if IS_FORWARD (switch_counter h) then switch_counter h
     else to_uint8 (switch_counter h + 1)) ∧
  IS_FORWARD (switch_counter (insert_key_counter h)) = true.
Proof.
  unfold insert_key_counter.
  destruct (IS_FORWARD (switch_counter h)) eqn:E; simpl; [done|].
  split; [done|]. by rewrite IS_FORWARD_succ, E.
Qed.

Lemma remove_key_counter_spec h :
  switch_counter (remove_key_counter h)
  = (if IS_FORWARD (switch_counter h) then to_uint8 (switch_counter h + 1)
     else switch_counter h) ∧
  IS_FORWARD (switch_counter (remove_key_counter h)) = false.
Proof.
  unfold remove_key_counter.
  destruct (IS_FORWARD (switch_counter h)) eqn:E; simpl; [|done].
  split; [done|]. by rewrite IS_FORWARD_succ, E.
Qed.

Lemma fair_counter_spec h :
  switch_counter (fair_counter h)
  = to_uint8 (switch_counter h + (if IS_FORWARD (switch_counter h) then 2 else 1)) ∧
  IS_FORWARD (switch_counter (fair_counter h)) = true.
Proof.
  unfold fair_counter.
  destruct (IS_FORWARD (switch_counter h)) eqn:E; simpl.
  - split; [done|]. by rewrite IS_FORWARD_succ2.
  - split; [done|]. by rewrite IS_FORWARD_succ, E.
Qed.

Lemma insert_key_hdr_counter this p k v n flush uli :
  switch_counter (hdr (insert_key this p k v n flush uli).1.1)
  = switch_counter (insert_key_counter (hdr p)).
Proof.
  unfold insert_key. destruct (insert_key_entries _ _ _ _ _ _ _) as [rs evs].
  by destruct uli.
Qed.

Lemma remove_key_hdr_counter this p k :
  switch_counter (hdr (remove_key this p k).1.1)
  = switch_counter (remove_key_counter (hdr p)).
Proof.
  unfold remove_key. destruct (remove_loop _ _ _ _ _ _ _ _) as [[rs evs] sh].
  by destruct sh.
Qed.

(** ** The flushes of [insert_key] *)

(** Every flush of [insert_key] is issued on the page itself, with the
    header that [insert_key] works with (the one after the counter update):
    any property of such flushes holds for all of them. *)
Section InsertFlushes.
Variables (this : Z) (h : header) (P : event → Prop).
Hypothesis HP : ∀ off len rs, P (EvClflush this off len (mkPage h rs)).

Lemma fast_shift_flushes flush k v i1 : ∀ rs evs,
  Forall P evs → Forall P (fast_shift this h flush k v i1 rs evs).1.2.
Proof.
  induction i1 as [|i IH]; intros rs evs Hevs; [done|].
  cbn [fast_shift]. destruct (k <? key (rec_at rs i)).
  - apply IH. destruct (flush && do_flush _); [|done].
    apply Forall_app. split; [done|]. by repeat constructor.
  - simpl. destruct flush; [|done].
    apply Forall_app. split; [done|]. by repeat constructor.
Qed.

Lemma insert_key_entries_flushes rs k v n flush :
  Forall P (insert_key_entries this h rs k v n flush).2.
Proof.
  unfold insert_key_entries. destruct n as [|n'].
  - simpl. destruct flush; by repeat constructor.
  - match goal with
    | |- context [fast_shift ?a ?b ?c ?d ?e ?f ?g ?ev] =>
        pose proof (fast_shift_flushes c d e f g ev) as Hfs;
          destruct (fast_shift a b c d e f g ev) as [[rs' evs'] ins]
    end.
    simpl in Hfs.
    assert (Hevs' : Forall P evs').
    { apply Hfs. destruct (flush && _); by repeat constructor. }
    destruct ins; [done|]. simpl. destruct flush; [|done].
    apply Forall_app. split; [done|]. by repeat constructor.
Qed.
End InsertFlushes.

Lemma insert_key_flushes (P : event → Prop) this p k v n flush uli :
  (∀ off len rs,
     P (EvClflush this off len (mkPage (insert_key_counter (hdr p)) rs))) →
  Forall P (insert_key this p k v n flush uli).2.
Proof.
  intros HP. unfold insert_key.
  pose proof (insert_key_entries_flushes this (insert_key_counter (hdr p)) P HP
                (records p) k v n flush) as H.
  by destruct (insert_key_entries _ _ _ _ _ _ _) as [rs evs].
Qed.

(** ** Migration into the new sibling *)

Lemma fast_shift_length this h flush k v i1 : ∀ rs evs,
  length (fast_shift this h flush k v i1 rs evs).1.1 = length rs.
Proof.
  induction i1 as [|i IH]; intros rs evs; [done|].
  cbn [fast_shift]. destruct (k <? key (rec_at rs i)).
  - rewrite IH. by rewrite length_set_key, length_set_ptr.
  - simpl. by rewrite length_set_ptr, length_set_key, length_set_ptr.
Qed.

Lemma insert_key_length this p k v n flush uli :
  length (records (insert_key this p k v n flush uli).1.1) = length (records p).
Proof.
  rewrite insert_key_records. unfold insert_key_entries. destruct n as [|n'].
  - simpl. by rewrite !length_set_ptr, length_set_key.
  - match goal with
    | |- context [fast_shift ?a ?b ?c ?d ?e ?f ?g ?ev] =>
        pose proof (fast_shift_length a b c d e f g ev) as Hfs;
          destruct (fast_shift a b c d e f g ev) as [[rs' evs'] ins]
    end.
    simpl in Hfs. rewrite length_set_ptr in Hfs.
    destruct ins; simpl; [done|].
    by rewrite length_set_ptr, length_set_key, length_set_ptr.
Qed.

Lemma page_ctor_valid stale lvl : valid_entries (records (page_ctor stale lvl)) = [].
Proof. done. Qed.

Lemma page_ctor_length stale lvl :
  length (records (page_ctor stale lvl)) = Z.to_nat cardinality.
Proof. done. Qed.

Section Migrate.
Variables (sa : Z) (src : list entry).
Local Abbreviation es := (valid_entries src).
Hypothesis Hsorted : key_sorted es = true.

Lemma rec_at_valid i e : es !! i = Some e → rec_at src i = e.
Proof.
  intros He. destruct (valid_entries_prefix src) as [tl Htl].
  rewrite Htl. rewrite rec_at_app_l.
  - by apply rec_at_lookup.
  - by eapply lookup_lt_Some.
Qed.

(** Appending in key order: the shift loop stops at once. *)
Lemma ins_pos_segment i0 i e :
  (i0 ≤ i)%nat → es !! i = Some e →
  let acc := drop i0 (take i es) in
  ins_pos (key e) acc (length acc) = length acc.
Proof.
  intros Hi0 He acc.
  pose proof (lookup_lt_Some _ _ _ He) as Hlt.
  assert (Hlen : length acc = (i - i0)%nat).
  { unfold acc. rewrite length_drop, length_take. lia. }
  destruct (length acc) as [|l] eqn:El; [done|].
  simpl.
  assert (Hl : acc !! l = es !! (i - 1)%nat).
  { unfold acc. rewrite lookup_drop, lookup_take_lt by lia. f_equal. lia. }
  destruct (lookup_lt_is_Some_2 es (i - 1)) as [c Hc]; [lia|].
  rewrite (rec_at_lookup acc l c) by (by rewrite Hl).
  pose proof (key_sorted_lookup es (i - 1) i c e Hsorted ltac:(lia) Hc He).
  destruct (Z.ltb_spec (key e) (key c)); [lia|done].
Qed.

Lemma migrate_valid todo : ∀ i i0 sibling,
  (i0 ≤ i)%nat → (i + todo ≤ length es)%nat →
  valid_entries (records sibling) = drop i0 (take i es) →
  (i - i0 + todo < length (records sibling))%nat →
  let r := migrate todo sa src i sibling (i - i0) in
  valid_entries (records r.1) = drop i0 (take (i + todo) es) ∧
  r.2 = (i + todo - i0)%nat ∧
  length (records r.1) = length (records sibling) ∧
  hdr r.1 = (if todo is O then hdr sibling
             else set_last_index (to_int16 (Z.of_nat (i + todo - i0 - 1)))
                    (insert_key_counter (hdr sibling))).
Proof.
  induction todo as [|todo IH]; intros i i0 sibling Hi0 Hi Hacc Hroom.
  - simpl. rewrite Nat.add_0_r. repeat split; try done; lia.
  - cbn [migrate].
    destruct (lookup_lt_is_Some_2 es i) as [e He]; [lia|].
    rewrite (rec_at_valid i e He).
    assert (Hlen : length (valid_entries (records sibling)) = (i - i0)%nat).
    { rewrite Hacc, length_drop, length_take. lia. }
    pose proof (insert_key_valid sa sibling (key e) (ptr e) false true) as Hv.
    pose proof (insert_key_length sa sibling (key e) (ptr e) (i - i0) false true)
      as Hl.
    pose proof (insert_key_count sa sibling (key e) (ptr e) (i - i0) false true)
      as Hc.
    cbn zeta in Hv. rewrite Hlen in Hv.
    assert (Hpe : ptr e ≠ NULL).
    { pose proof (valid_entries_nonnull src) as Hnn.
      rewrite Forall_forall in Hnn. apply Hnn.
      by eapply list_elem_of_lookup_2. }
    specialize (Hv ltac:(lia) Hpe).
    assert (Hh : hdr (insert_key sa sibling (key e) (ptr e) (i - i0) false true).1.1
                 = set_last_index (to_int16 (Z.of_nat (i - i0)))
                     (insert_key_counter (hdr sibling))).
    { unfold insert_key. by destruct (insert_key_entries _ _ _ _ _ _ _). }
    destruct (insert_key sa sibling (key e) (ptr e) (i - i0) false true)
      as [[sb' cnt'] evs'].
    simpl in Hv, Hl, Hc, Hh. subst cnt'.
    rewrite Hacc in Hv.
    pose proof (ins_pos_segment i0 i e Hi0 He) as Hpos. cbn zeta in Hpos.
    assert (Hlen' : length (drop i0 (take i es)) = (i - i0)%nat).
    { rewrite length_drop, length_take. lia. }
    rewrite Hlen' in Hpos. rewrite Hpos in Hv.
    rewrite (take_ge (drop i0 (take i es))), (drop_ge (drop i0 (take i es)))
      in Hv by (rewrite Hlen'; lia).
    rewrite entry_eta in Hv.
    assert (Hv' : valid_entries (records sb') = drop i0 (take (S i) es)).
    { rewrite Hv, (take_S_r _ _ _ He), drop_app_le; [done|].
      rewrite length_take. lia. }
    replace (S (i - i0)) with (S i - i0)%nat by lia.
    destruct (IH (S i) i0 sb') as (H1 & H2 & H3 & H4);
      [lia|lia|done|lia|].
    cbn zeta in H1, H2, H3, H4.
    replace (S i + todo)%nat with (i + S todo)%nat in * by lia.
    repeat split; [done|done|congruence|].
    rewrite H4, Hh. destruct todo as [|todo'].
    + do 2 f_equal. lia.
    + unfold insert_key_counter at 1. simpl.
      destruct (insert_key_counter_spec (hdr sibling)) as [_ ->]. simpl.
      done.
Qed.
End Migrate.

(** ** The split point *)

Lemma split_point_quot z : split_point z = z ÷ 2.
Proof. unfold split_point. apply Qceiling_Z. Qed.

Lemma split_point_nat n : Z.to_nat (split_point (Z.of_nat n)) = (n / 2)%nat.
Proof.
  rewrite split_point_quot, Z.quot_div_nonneg by lia.
  rewrite <- (Nat2Z.id (n / 2)). f_equal.
  by rewrite Nat2Z.inj_div.
Qed.

Lemma split_point_lt n : (0 < n)%nat → (Z.to_nat (split_point (Z.of_nat n)) < n)%nat.
Proof.
  intros Hn. rewrite split_point_nat. apply Nat.div_lt; lia.
Qed.

(** ** The sibling created by a split *)

Lemma fair_sibling_spec stale sa p :
  let es := valid_entries (records p) in
  let n := length es in
  let m := Z.to_nat (split_point (Z.of_nat n)) in
  let sb := (fair_sibling stale sa p n).1 in
  key_sorted es = true →
  (0 < n)%nat → Z.of_nat n < cardinality →
  sibling_ptr (hdr sb) = sibling_ptr (hdr p) ∧
  highest (hdr sb) = key (rec_at (records p) m) ∧
  level (hdr sb) = level (hdr p) ∧
  leftmost_ptr (hdr sb)
  = (if leftmost_ptr (hdr p) =? NULL then NULL else ptr (rec_at (records p) m)) ∧
  valid_entries (records sb)
  = (if leftmost_ptr (hdr p) =? NULL then drop m es else drop (S m) es) ∧
  length (records sb) = Z.to_nat cardinality ∧
  (fair_sibling stale sa p n).2 = length (valid_entries (records sb)).
Proof.
  intros es n m sb Hs Hn Hcard.
  assert (Hm : (m < n)%nat) by by apply split_point_lt.
  assert (Hc : Z.to_nat cardinality = 29%nat) by done.
  assert (Hn29 : (n < 29)%nat).
  { change cardinality with 29 in Hcard. lia. }
  unfold sb, fair_sibling. fold m.
  destruct (leftmost_ptr (hdr p) =? NULL) eqn:Hleaf.
  - pose proof (migrate_valid sa (records p) Hs (n - m) m m
                  (page_ctor stale (level (hdr p)))) as Hmig.
    cbn zeta in Hmig. rewrite Nat.sub_diag in Hmig.
    destruct Hmig as (H1 & H2 & H3 & H4).
    { done. }
    { fold es n. lia. }
    { rewrite page_ctor_valid, drop_ge; [done|]. rewrite length_take. lia. }
    { rewrite page_ctor_length, Hc. lia. }
    destruct (migrate _ _ _ _ _ _) as [sb' cnt'].
    simpl in *. fold es in H1.
    replace (m + (n - m))%nat with n in * by lia.
    rewrite take_ge in H1 by done.
    repeat split; try done.
    all: try (rewrite H4; by destruct (n - m)%nat).
    rewrite H2, H1, length_drop. done.
  - pose proof (migrate_valid sa (records p) Hs (n - (m + 1)) (m + 1) (m + 1)
                  (page_ctor stale (level (hdr p)))) as Hmig.
    cbn zeta in Hmig. rewrite Nat.sub_diag in Hmig.
    destruct Hmig as (H1 & H2 & H3 & H4).
    { done. }
    { fold es n. lia. }
    { rewrite page_ctor_valid, drop_ge; [done|]. rewrite length_take. lia. }
    { rewrite page_ctor_length, Hc. lia. }
    destruct (migrate _ _ _ _ _ _) as [sb' cnt'].
    simpl in *. fold es in H1.
    replace (m + 1 + (n - (m + 1)))%nat with n in * by lia.
    rewrite take_ge in H1 by done.
    replace (m + 1)%nat with (S m) in * by lia.
    repeat split; try done.
    all: try (rewrite H4; by destruct (n - S m)%nat).
    rewrite H2, H1, length_drop. done.
Qed.

(** ** The local part of a split *)

Lemma insert_key_hdr this p k v n flush uli :
  hdr (insert_key this p k v n flush uli).1.1
  = (if uli then set_last_index (to_int16 (Z.of_nat n)) (insert_key_counter (hdr p))
     else insert_key_counter (hdr p)).
Proof.
  unfold insert_key. by destruct (insert_key_entries _ _ _ _ _ _ _).
Qed.

Lemma insert_key_counter_sibling h :
  sibling_ptr (insert_key_counter h) = sibling_ptr h.
Proof. unfold insert_key_counter. by destruct (negb _). Qed.

Lemma insert_key_counter_highest h :
  highest (insert_key_counter h) = highest h.
Proof. unfold insert_key_counter. by destruct (negb _). Qed.

Lemma fair_counter_sibling h : sibling_ptr (fair_counter h) = sibling_ptr h.
Proof. unfold fair_counter. by destruct (IS_FORWARD _). Qed.

Lemma insert_key_flush_of this p k v n flush uli b :
  Forall (flush_of this b) (insert_key this p k v n flush uli).2.
Proof. apply insert_key_flushes. intros. simpl. by left. Qed.

Lemma insert_key_flush_of_r this p k v n flush uli a :
  Forall (flush_of a this) (insert_key this p k v n flush uli).2.
Proof. apply insert_key_flushes. intros. simpl. by right. Qed.

Lemma fair_split_spec s this p n k right :
  this ≠ brk s →
  let r := fair_split s this p n k right in
  let sa := brk s in
  let sb := (fair_sibling (stale s) sa p n).1 in
  let m := Z.to_nat (split_point (Z.of_nat n)) in
  r.1.1.2 = sa ∧
  r.1.2 = key (rec_at (records p) m) ∧
  (r.2 = this ∨ r.2 = sa) ∧
  root r.1.1.1 = root s ∧
  stale r.1.1.1 = stale s ∧
  brk r.1.1.1 = brk s + PAGESIZE ∧
  (∀ a, a ≠ this → a ≠ sa → heap r.1.1.1 !! a = heap s !! a) ∧
  (∃ mid,
     log r.1.1.1
     = log s ++ [EvClflush sa 0 PAGESIZE sb; EvSetSibling this sa;
                 EvClflush this 0 sizeof_header
                   (mkPage (set_sibling_ptr sa (hdr p)) (records p))] ++ mid ∧
     Forall (flush_of this sa) mid) ∧
  (∃ p', heap r.1.1.1 !! this = Some p' ∧
         IS_FORWARD (switch_counter (hdr p')) = true ∧
         sibling_ptr (hdr p') = sa) ∧
  (∃ sb', heap r.1.1.1 !! sa = Some sb' ∧
          sibling_ptr (hdr sb') = sibling_ptr (hdr sb) ∧
          highest (hdr sb') = highest (hdr sb)).
Proof.
  intros Hne r sa sb m. subst r sb. unfold fair_split. fold sa m.
  destruct (fair_sibling (stale s) sa p n) as [sb cnt]. cbn [fst snd].
  cbn [operator_new add_log write_page set_heap heap brk stale root height log].
  set (p1 := mkPage (set_sibling_ptr sa (hdr p)) (records p)).
  set (p2 := mkPage (fair_counter (hdr p1)) (set_ptr m NULL (records p1))).
  set (p3 := mkPage (set_last_index (to_int16 (Z.of_nat m - 1)) (hdr p2))
                    (records p2)).
  destruct (k <? key (rec_at (records p) m)).
  - pose proof (insert_key_flush_of this p3 k right
                  (Z.to_nat (last_index (hdr p3) + 1)) true true sa) as Hev.
    pose proof (insert_key_hdr this p3 k right
                  (Z.to_nat (last_index (hdr p3) + 1)) true true) as Hh.
    destruct (insert_key this p3 k right _ true true) as [[p4 n4] evs].
    cbn [fst snd] in *.
    cbn [operator_new add_log write_page set_heap heap brk stale root height log].
    repeat split; try done; try (by left).
    + intros a Ha1 Ha2. by rewrite !lookup_insert_ne.
    + eexists. split.
      * rewrite <- !app_assoc. simpl. reflexivity.
      * repeat constructor; try done; simpl; auto.
    + exists p4. rewrite lookup_insert_eq. split; [done|].
      rewrite Hh. cbn [switch_counter sibling_ptr set_last_index].
      destruct (insert_key_counter_spec (hdr p3)) as [_ ->].
      rewrite insert_key_counter_sibling. simpl.
      by rewrite fair_counter_sibling.
    + exists sb. rewrite !lookup_insert_ne by done.
      by rewrite lookup_insert_eq.
  - pose proof (insert_key_flush_of_r sa sb k right cnt true true this) as Hev.
    pose proof (insert_key_hdr sa sb k right cnt true true) as Hh.
    destruct (insert_key sa sb k right cnt true true) as [[sb4 n4] evs].
    cbn [fst snd] in *.
    cbn [operator_new add_log write_page set_heap heap brk stale root height log].
    repeat split; try done; try (by right).
    + intros a Ha1 Ha2. by rewrite !lookup_insert_ne.
    + eexists. split.
      * rewrite <- !app_assoc. simpl. reflexivity.
      * repeat constructor; try done; simpl; auto.
    + exists p3. rewrite lookup_insert_ne, lookup_insert_eq by done.
      split; [done|]. simpl.
      destruct (fair_counter_spec (set_sibling_ptr sa (hdr p))) as [_ ->].
      by rewrite fair_counter_sibling.
    + exists sb4. rewrite lookup_insert_eq. split; [done|].
      rewrite Hh. simpl.
      by rewrite insert_key_counter_sibling, insert_key_counter_highest.
Qed.

(** ** [store]: the FAIR branch and the log *)

Lemma store_fair f s this p k right flush inv :
  heap s !! this = Some p →
  is_deleted (hdr p) = 0 →
  sibling_overshoot (heap s) p k inv = Some false →
  cardinality - 1 ≤ Z.of_nat (count p) →
  store (S f) s this k right flush inv
  = (let '(s1, sa, split_key, ret) := fair_split s this p (count p) k right in
     let lvl := to_uint32 (level (hdr p) + 1) in
     if root s1 =? this then
       let '(s2, r) := new_root this split_key sa lvl s1 in
       Some (setNewRoot r s2, ret)
     else
       s2 ← btree_insert_internal f s1 split_key sa lvl;
       Some (s2, ret)).
Proof.
  intros Hp Hdel Hover Hfull. cbn [store]. rewrite Hp. cbn [mbind option_bind].
  rewrite Hdel. cbn [negb Z.eqb]. rewrite Hover. cbn [mbind option_bind].
  destruct (Z.ltb_spec (Z.of_nat (count p)) (cardinality - 1)); [lia|].
  done.
Qed.

Lemma store_fast f s this p k right flush inv :
  heap s !! this = Some p →
  is_deleted (hdr p) = 0 →
  sibling_overshoot (heap s) p k inv = Some false →
  Z.of_nat (count p) < cardinality - 1 →
  store (S f) s this k right flush inv
  = (let '(p', _, evs) := insert_key this p k right (count p) flush true in
     Some (add_log evs (write_page this p' s), this)).
Proof.
  intros Hp Hdel Hover Hfull. cbn [store]. rewrite Hp. cbn [mbind option_bind].
  rewrite Hdel. cbn [negb Z.eqb]. rewrite Hover. cbn [mbind option_bind].
  destruct (Z.ltb_spec (Z.of_nat (count p)) (cardinality - 1)); [|lia].
  done.
Qed.

(** The log only grows. *)
Lemma log_grows f :
  (∀ s this k right flush inv s' r,
     store f s this k right flush inv = Some (s', r) →
     ∃ l, log s' = log s ++ l) ∧
  (∀ s k right lvl s',
     btree_insert_internal f s k right lvl = Some s' →
     ∃ l, log s' = log s ++ l).
Proof.
  induction f as [|f [IHs IHb]]; [by split|]. split.
  - intros s this k right flush inv s' r. cbn [store].
    destruct (heap s !! this) as [p|]; [|done]. cbn [mbind option_bind].
    destruct (negb (is_deleted (hdr p) =? 0)).
    { intros [= <- <-]. exists []. by rewrite app_nil_r. }
    destruct (sibling_overshoot (heap s) p k inv) as [[|]|]; [| |done];
      cbn [mbind option_bind].
    { apply IHs. }
    destruct (Z.of_nat (count p) <? cardinality - 1).
    + destruct (insert_key this p k right (count p) flush true) as [[p' n'] evs].
      intros [= <- <-]. by exists evs.
    + destruct (decide (this = brk s)) as [->|Hne].
      * (* the page being split is the one the allocator hands out *)
        unfold fair_split.
        destruct (fair_sibling _ _ _ _) as [sb cnt].
        cbn [operator_new add_log write_page set_heap heap brk stale root
             height log fst snd].
        destruct (k <? _).
        -- destruct (insert_key _ _ _ _ _ _ _) as [[p4 n4] evs].
           cbn [add_log write_page set_heap heap brk stale root height log].
           destruct (_ =? _).
           ++ unfold new_root, setNewRoot. simpl. intros [= <- <-].
              rewrite <- !app_assoc. eauto.
           ++ destruct (btree_insert_internal f _ _ _ _) as [s2|] eqn:E; [|done].
              simpl. intros [= <- <-]. apply IHb in E as [l ->]. simpl.
              rewrite <- !app_assoc. eauto.
        -- destruct (insert_key _ _ _ _ _ _ _) as [[p4 n4] evs].
           cbn [add_log write_page set_heap heap brk stale root height log].
           destruct (_ =? _).
           ++ unfold new_root, setNewRoot. simpl. intros [= <- <-].
              rewrite <- !app_assoc. eauto.
           ++ destruct (btree_insert_internal f _ _ _ _) as [s2|] eqn:E; [|done].
              simpl. intros [= <- <-]. apply IHb in E as [l ->]. simpl.
              rewrite <- !app_assoc. eauto.
      * pose proof (fair_split_spec s this p (count p) k right Hne) as Hfs.
        cbn zeta in Hfs.
        destruct (fair_split s this p (count p) k right) as [[[s1 sa] sk] ret].
        cbn [fst snd] in Hfs.
        destruct Hfs as (_ & _ & _ & _ & _ & _ & _ & (mid & Hlog & _) & _).
        destruct (root s1 =? this).
        -- unfold new_root, setNewRoot. simpl. intros [= <- <-].
           rewrite Hlog, <- !app_assoc. eauto.
        -- destruct (btree_insert_internal f _ _ _ _) as [s2|] eqn:E; [|done].
           simpl. intros [= <- <-]. apply IHb in E as [l ->].
           rewrite Hlog, <- !app_assoc. eauto.
  - intros s k right lvl s'. cbn [btree_insert_internal].
    destruct (heap s !! root s) as [rt|]; [|done]. cbn [mbind option_bind].
    destruct (level (hdr rt) <? lvl).
    { intros [= <-]. exists []. by rewrite app_nil_r. }
    destruct (descend_to_level _ _ _ _ _) as [p|]; [|done].
    cbn [mbind option_bind].
    destruct (store f s p k right true NULL) as [[s1 r]|] eqn:E; [|done].
    cbn [mbind option_bind]. apply IHs in E as [l1 Hl1].
    destruct (r =? NULL).
    + intros E2. apply IHb in E2 as [l2 ->]. rewrite Hl1, <- app_assoc. eauto.
    + intros [= <-]. eauto.
Qed.

(** ** [count] on a quiescent node *)

(** When [last_index] names the last valid entry, both scan directions of
    [count] stop at once on the terminator. *)
Lemma count_quiescent p :
  let es := valid_entries (records p) in
  last_index (hdr p) + 1 = Z.of_nat (length es) →
  count p = length es.
Proof.
  intros es Hli. unfold count. rewrite Hli. cbn [count_walk].
  assert (Hz : (0 <=? Z.of_nat (length es)) = true) by (apply Z.leb_le; lia).
  rewrite Hz, Nat2Z.id.
  assert (Ht : ptr (rec_at (records p) (length es)) = NULL).
  { destruct (valid_entries_prefix (records p)) as [tl Htl]. fold es in Htl.
    destruct tl as [|t tl].
    - rewrite app_nil_r in Htl. rewrite Htl. unfold rec_at.
      by rewrite lookup_ge_None_2.
    - assert (Hpt : ptr t = NULL).
      { clear Hli Hz. subst es. revert t tl Htl.
        induction (records p) as [|e rs IH]; intros t tl Htl; [done|].
        simpl in Htl. destruct (Z.eqb_spec (ptr e) NULL) as [He|He].
        - simpl in Htl. by injection Htl as <- _.
        - simpl in Htl. injection Htl as Htl. by eapply IH. }
      rewrite Htl. by rewrite rec_at_middle. }
  rewrite Ht. cbn [Z.eqb NULL negb andb].
  destruct (Z.ltb_spec (Z.of_nat (length es)) 0); [lia|].
  by rewrite Nat2Z.id.
Qed.

(** ** Helpers for the tree-level statements *)

(** [btree_search] returns null or a handle equal to the key. *)
Lemma btree_search_result k s t :
  btree_search k s = Some t → t = NULL ∨ t = k.
Proof.
  unfold btree_search.
  destruct (descend_to_leaf (loop_fuel s) (heap s) (root s) k) as [p|];
    [|done].
  cbn [mbind option_bind].
  destruct (follow_siblings (loop_fuel s) (heap s) p k) as [[p' t']|]; [|done].
  cbn [mbind option_bind].
  destruct (Z.eqb_spec t' NULL) as [->|]; simpl; [intros [= <-]; by left|].
  destruct (Z.eqb_spec t' k) as [->|]; simpl; intros [= <-]; auto.
Qed.

(** One call of [btree_delete] that finds the leaf, does not find the key
    there and has a leaf to pass to [remove] calls itself again. *)
Lemma btree_delete_retry f k s p0 p t s1 :
  descend_to_leaf (loop_fuel s) (heap s) (root s) k = Some p0 →
  follow_siblings (loop_fuel s) (heap s) p0 k = Some (p, t) →
  p ≠ NULL →
  remove p k s = Some (s1, false) →
  btree_delete (S f) k s = btree_delete f k s1.
Proof.
  intros Hd Hf Hp Hr. cbn [btree_delete]. rewrite Hd. cbn [mbind option_bind].
  rewrite Hf. cbn [mbind option_bind].
  destruct (Z.eqb_spec p NULL); [done|]. by rewrite Hr.
Qed.

Lemma btree_delete_touched_diverges f :
  btree_delete f 0 tree_1_29_touched = None.
Proof.
  induction f as [|f IH]; [done|].
  rewrite (btree_delete_retry f 0 tree_1_29_touched 4096 4096 NULL
             tree_1_29_touched); [done| | | |]; by vm_compute.
Qed.

(** The only size at which [store] splits a quiescent node of this page
    layout is 28 entries, and there the split point is the ceiling too. *)
Lemma split_size p :
  let es := valid_entries (records p) in
  last_index (hdr p) + 1 = Z.of_nat (length es) →
  length (records p) = Z.to_nat cardinality →
  (length es < length (records p))%nat →
  cardinality - 1 ≤ Z.of_nat (count p) →
  count p = 28%nat ∧
  split_point (Z.of_nat (count p)) = ceil_half (Z.of_nat (count p)).
Proof.
  intros es Hli Hlen Hroom Hfull.
  rewrite (count_quiescent p Hli) in *. fold es in Hfull |- *.
  rewrite Hlen in Hroom. change (Z.to_nat cardinality) with 29%nat in Hroom.
  change cardinality with 29 in Hfull.
  assert (length es = 28%nat) as -> by lia. done.
Qed.

(** The expression [(int) ceil(num_entries/2)] divides two [int]s first:
    it is the floor of the exact quotient, and the ceiling exactly for an
    even number of entries. *)
Lemma split_point_is_floor (n : nat) :
  split_point (Z.of_nat n) = floor_half (Z.of_nat n) ∧
  (split_point (Z.of_nat n) = ceil_half (Z.of_nat n) ↔ Z.of_nat n mod 2 = 0).
Proof.
  rewrite split_point_quot, Z.quot_div_nonneg by lia.
  unfold floor_half, ceil_half, Qceiling, Qfloor. cbn [Qopp Qnum Qden].
  pose proof (Z.div_mod (Z.of_nat n) 2 ltac:(lia)) as H1.
  pose proof (Z.mod_pos_bound (Z.of_nat n) 2 ltac:(lia)) as H2.
  pose proof (Z.div_mod (- Z.of_nat n) 2 ltac:(lia)) as H3.
  pose proof (Z.mod_pos_bound (- Z.of_nat n) 2 ltac:(lia)) as H4.
  split; [done|lia].
Qed.


(** [count] does not read [highest]. *)
Lemma count_set_highest h p :
  count (mkPage (set_highest h (hdr p)) (records p)) = count p.
Proof. done. Qed.

(** The right-to-left scan of an internal node reads the header's
    [leftmost_ptr] only. *)
Lemma internal_scan_backward_set_highest x h rs k i1 :
  internal_scan_backward (set_highest x h) rs k i1
  = internal_scan_backward h rs k i1.
Proof.
  induction i1 as [|i IH]; [done|].
  cbn [internal_scan_backward]. rewrite IH.
  by destruct i.
Qed.

(** ** The flushes of [remove_key] *)

(** Every flush of [remove_key] is issued on the page itself, with the
    header that [remove_key] works with (the one after the counter update):
    any property of such flushes holds for all of them. *)
Lemma remove_loop_flushes (P : event → Prop) this h k fuel :
  (∀ off len rs, P (EvClflush this off len (mkPage h rs))) →
  ∀ i shift rs evs,
    Forall P evs → Forall P (remove_loop fuel this h k i shift rs evs).1.2.
Proof.
  intros HP. induction fuel as [|f IH]; intros i shift rs evs Hevs; [done|].
  cbn [remove_loop]. destruct (ptr (rec_at rs i) =? NULL); [done|].
  cbv zeta. destruct (shift || _); [|by apply IH].
  apply IH. destruct (do_flush _); [|done].
  apply Forall_app. split; [done|]. by repeat constructor.
Qed.

Lemma remove_key_flushes (P : event → Prop) this p k :
  (∀ off len rs,
     P (EvClflush this off len (mkPage (remove_key_counter (hdr p)) rs))) →
  Forall P (remove_key this p k).1.2.
Proof.
  intros HP. unfold remove_key.
  pose proof (remove_loop_flushes P this (remove_key_counter (hdr p)) k
                (length (records p)) HP 0%nat false (records p) []
                (Forall_nil_2 _)) as H.
  by destruct (remove_loop _ _ _ _ _ _ _ _) as [[rs evs] sh].
Qed.

(** ** The scenarios of the specification, run on the model *)

(** Keys 5, 3, 8, 1, 4, 7, 9, 2, 6 with the key as value handle. *)
Example scenario_1 :
  let t := insert_keys [5; 3; 8; 1; 4; 7; 9; 2; 6] empty_tree in
  (s ← t; btree_search 4 s) = Some 4 ∧
  (s ← t; btree_search 10 s) = Some NULL ∧
  (s ← t; btree_search_range 2 8 [0; 0; 0; 0; 0; 0] s) = Some [3; 4; 5; 6; 7; 0].
Proof. repeat split; by vm_compute. Qed.

(** A leaf filled to its limit and one more key: one split, a root over two
    leaves, and every key is still found. *)
Example scenario_2 :
  height tree_1_29 = 2 ∧
  size (heap tree_1_29) = 3%nat ∧
  mapM (λ k, btree_search k tree_1_29) (Z.of_nat <$> seq 1 29)
  = Some (Z.of_nat <$> seq 1 29).
Proof. repeat split; by vm_compute. Qed.

(** * The claims *)

(** C1.  [btree_search] rejects a hit whose value handle differs from the
    key: after [btree_insert(5, 7)] the leaf holds the entry (5, 7), yet
    [btree_search(5)] returns null.  (After [btree_insert(5, 5)] it returns
    the handle.) *)
Theorem C1_search_rejects_other_handles :
  (s ← btree_insert 8 5 7 empty_tree;
   p ← heap s !! root s;
   Some (valid_entries (records p))) = Some [mkEntry 5 7] ∧
  (s ← btree_insert 8 5 7 empty_tree; btree_search 5 s) = Some NULL ∧
  (s ← btree_insert 8 5 5 empty_tree; btree_search 5 s) = Some 5.
Proof. repeat split; by vm_compute. Qed.

(** C2.  In the tree with keys 1..29 the key 0 is absent and belongs to the
    left leaf, which has a right sibling.  [btree_delete(0)] changes that
    leaf (its switch counter goes from 2 to 3) and calls itself on the
    changed tree, where every call leads to the same call again: no number
    of nested calls suffices for it to return.  (For the absent key 40,
    which belongs to the rightmost leaf, the call returns and the tree is
    unchanged.) *)
Theorem C2_delete_absent_key_diverges :
  btree_search 0 tree_1_29 = Some NULL ∧
  (switch_counter ∘ hdr) <$> heap tree_1_29 !! 4096 = Some 2 ∧
  (switch_counter ∘ hdr) <$> heap tree_1_29_touched !! 4096 = Some 3 ∧
  (∀ f, btree_delete (S f) 0 tree_1_29 = btree_delete f 0 tree_1_29_touched) ∧
  (∀ f, btree_delete (S f) 0 tree_1_29_touched
        = btree_delete f 0 tree_1_29_touched) ∧
  (∀ fuel, btree_delete fuel 0 tree_1_29 = None) ∧
  btree_delete 1 40 tree_1_29 = Some tree_1_29.
Proof.
  assert (H1 : ∀ f, btree_delete (S f) 0 tree_1_29
                    = btree_delete f 0 tree_1_29_touched).
  { intros f.
    apply (btree_delete_retry f 0 tree_1_29 4096 4096 NULL tree_1_29_touched);
      by vm_compute. }
  split; [by vm_compute|]. split; [by vm_compute|]. split; [by vm_compute|].
  split; [done|]. split.
  - intros f.
    apply (btree_delete_retry f 0 tree_1_29_touched 4096 4096 NULL
             tree_1_29_touched); by vm_compute.
  - split; [|by vm_compute].
    intros [|f]; [done|]. rewrite H1. apply btree_delete_touched_diverges.
Qed.

(** C3 (as the code has it).  [insert_key] increments the switch counter
    (modulo 256) exactly when it is odd, so the counter is even, the
    direction in which readers scan forward, in every flush of the shift
    and when [insert_key] returns. *)
Theorem C3_insert_makes_counter_even this p k v n flush uli :
  let c := switch_counter (hdr p) in
  let c' := if IS_FORWARD c then c else to_uint8 (c + 1) in
  let r := insert_key this p k v n flush uli in
  switch_counter (hdr r.1.1) = c' ∧
  IS_FORWARD c' = true ∧
  Forall (λ e, flushed_counter e = Some c') r.2.
Proof.
  intros c c' r. subst r.
  destruct (insert_key_counter_spec (hdr p)) as [H1 H2]. fold c c' in H1.
  rewrite insert_key_hdr_counter, H1. split; [done|].
  split; [by rewrite <- H1|].
  apply insert_key_flushes. intros off len rs. simpl. by rewrite H1.
Qed.

(** C3, as stated, fails: on a fresh page, whose counter is 0 and so even,
    [insert_key] does not increment the counter, which stays even. *)
Lemma C3_counterexample :
  IS_FORWARD (switch_counter (hdr (page_ctor 0 0))) = true ∧
  switch_counter (hdr (insert_key 4096 (page_ctor 0 0) 5 5 0 true true).1.1)
  ≠ to_uint8 (switch_counter (hdr (page_ctor 0 0)) + 1) ∧
  IS_FORWARD
    (switch_counter (hdr (insert_key 4096 (page_ctor 0 0) 5 5 0 true true).1.1))
  = true.
Proof. vm_compute. repeat split; discriminate. Qed.

(** C4.  Whenever [store] takes the FAIR branch (the node is not marked
    deleted, the key does not belong to its sibling, and [count()] is at
    least [cardinality - 1]) on a node whose array has its [cardinality]
    slots with the terminator inside and whose [last_index] names the last
    valid entry, the split runs with [num_entries = count()], the number of
    valid entries, which is [cardinality - 1 = 28]; the split position [m]
    is the ceiling of [num_entries / 2] in exact rational arithmetic, the
    split key is the key of the valid entry at index [m], and the new
    sibling records it as [highest]. *)
Theorem C4_split_point_is_ceiling f s this p k right flush inv :
  let es := valid_entries (records p) in
  let num_entries := count p in
  let m := split_point (Z.of_nat num_entries) in
  heap s !! this = Some p →
  is_deleted (hdr p) = 0 →
  sibling_overshoot (heap s) p k inv = Some false →
  last_index (hdr p) + 1 = Z.of_nat (length es) →
  length (records p) = Z.to_nat cardinality →
  (length es < length (records p))%nat →
  cardinality - 1 ≤ Z.of_nat (count p) →
  store (S f) s this k right flush inv
  = (let '(s1, sa, split_key, ret) :=
       fair_split s this p num_entries k right in
     let lvl := to_uint32 (level (hdr p) + 1) in
     if root s1 =? this then
       let '(s2, r) := new_root this split_key sa lvl s1 in
       Some (setNewRoot r s2, ret)
     else
       s2 ← btree_insert_internal f s1 split_key sa lvl;
       Some (s2, ret)) ∧
  num_entries = length es ∧
  Z.of_nat num_entries = cardinality - 1 ∧
  m = ceil_half (Z.of_nat num_entries) ∧
  ∃ e, es !! Z.to_nat m = Some e ∧
       (fair_split s this p num_entries k right).1.2 = key e ∧
       highest (hdr (fair_sibling (stale s) (brk s) p num_entries).1) = key e.
Proof.
  intros es num_entries m Hp Hdel Hover Hli Hlen Hroom Hfull.
  destruct (split_size p Hli Hlen Hroom Hfull) as [H28 Hceil].
  pose proof (count_quiescent p Hli) as Hcount. fold es num_entries in Hcount.
  fold num_entries in H28, Hceil.
  split; [by apply store_fair|]. split; [done|].
  split; [by rewrite H28|]. split; [done|].
  assert (Hm : (Z.to_nat m < length es)%nat).
  { rewrite <- Hcount. unfold m. rewrite H28. vm_compute. lia. }
  destruct (lookup_lt_is_Some_2 es (Z.to_nat m) Hm) as [e He].
  assert (Hrec : rec_at (records p) (Z.to_nat m) = e).
  { destruct (valid_entries_prefix (records p)) as [tl Htl]. fold es in Htl.
    rewrite Htl, rec_at_app_l by done. by apply rec_at_lookup. }
  exists e. split; [done|]. rewrite <- Hrec. split.
  - unfold fair_split. fold m.
    destruct (fair_sibling _ _ _ _) as [sb cnt]. cbn [operator_new].
    destruct (_ <? _); by destruct (insert_key _ _ _ _ _ _ _) as [[? ?] ?].
  - unfold fair_sibling. fold m.
    destruct (_ =? _); by destruct (migrate _ _ _ _ _ _).
Qed.

(** The split of the full root leaf of [full_tree]: 28 entries, position
    14, split key 150. *)
Lemma C4_witness :
  cardinality - 1 ≤ Z.of_nat (count full_leaf) ∧
  split_point (Z.of_nat (count full_leaf)) = ceil_half 28 ∧
  ceil_half 28 = 14 ∧
  ∃ e, valid_entries (records full_leaf) !! 14%nat = Some e ∧
       (fair_split full_tree 4096 full_leaf (count full_leaf) 145 145).1.2
       = key e.
Proof.
  assert (Hfull : cardinality - 1 ≤ Z.of_nat (count full_leaf)) by (by vm_compute).
  split; [exact Hfull|].
  destruct (C4_split_point_is_ceiling 0 full_tree 4096 full_leaf 145 145 true NULL
              eq_refl eq_refl eq_refl eq_refl eq_refl
              ltac:(vm_compute; lia) Hfull)
    as (_ & _ & _ & H1 & e & H2 & H3 & _).
  split; [exact H1|]. split; [reflexivity|].
  exists e. split; [exact H2|exact H3].
Defined.

(** C5 (as the code has it).  The constructors do not assign [highest]: a
    new node keeps whatever its fresh memory holds ([st]).  A FAIR split
    (of a node that does not lie at the address the allocator hands out
    next) assigns the split key to the [highest] of the sibling it creates,
    and the node's [sibling_ptr] then leads to that sibling.
    [linear_search] and the sibling test of [store] read the [highest] of a
    node's sibling only: the node's own [highest] has no influence on them,
    and with a null [sibling_ptr] they read no [highest] at all. *)
Theorem C5_highest_set_by_split s this p n k right st lvl left k0 right0
    hp q h k1 inv :
  let m := Z.to_nat (split_point (Z.of_nat n)) in
  let s1 := (fair_split s this p n k right).1.1.1 in
  highest (hdr (page_ctor st lvl)) = st ∧
  highest (hdr (page_ctor_root st left k0 right0 lvl)) = st ∧
  (this ≠ brk s →
   ∃ p' sb',
     heap s1 !! this = Some p' ∧ sibling_ptr (hdr p') = brk s ∧
     heap s1 !! brk s = Some sb' ∧
     highest (hdr sb') = key (rec_at (records p) m)) ∧
  linear_search hp (mkPage (set_highest h (hdr q)) (records q)) k1
  = linear_search hp q k1 ∧
  sibling_overshoot hp (mkPage (set_highest h (hdr q)) (records q)) k1 inv
  = sibling_overshoot hp q k1 inv ∧
  (sibling_ptr (hdr q) = NULL →
   linear_search hp q k1 = linear_search ∅ q k1 ∧
   sibling_overshoot hp q k1 inv = Some false).
Proof.
  intros m s1.
  split; [done|]. split; [done|]. split; [|split; [|split]].
  - intros Hne.
    pose proof (fair_split_spec s this p n k right Hne) as Hfs.
    cbn zeta in Hfs. fold m s1 in Hfs.
    destruct Hfs as (_ & _ & _ & _ & _ & _ & _ & _ & (p' & Hp' & _ & Hsib)
                     & (sb' & Hsb' & _ & Hhigh)).
    exists p', sb'. split; [done|]. split; [done|]. split; [done|].
    rewrite Hhigh. unfold fair_sibling. fold m.
    destruct (_ =? _); by destruct (migrate _ _ _ _ _ _).
  - unfold linear_search, linear_search_leaf, linear_search_internal.
    cbn [hdr]. rewrite count_set_highest, internal_scan_backward_set_highest.
    by destruct q as [[a1 a2 a3 a4 a5 a6 a7] rs].
  - by destruct q as [[] ?].
  - intros Hsib. unfold linear_search, sibling_overshoot. rewrite Hsib.
    cbn [Z.eqb NULL negb andb]. split; [|done].
    by destruct (leftmost_ptr (hdr q) =? NULL).
Qed.

(** C5, as stated, fails: the root of a new tree, built on zeroed memory,
    has [highest] 0, not [LONG_MAX]. *)
Lemma C5_counterexample :
  highest (hdr (page_ctor 0 0)) = 0 ∧
  (highest ∘ hdr) <$> heap empty_tree !! root empty_tree = Some 0 ∧
  highest (hdr (page_ctor 0 0)) ≠ LONG_MAX.
Proof. repeat split; discriminate. Qed.

(** The split of [full_leaf]: the sibling at 4608 gets the split key 150;
    and the search for the key 145 in [full_leaf], which has no sibling and
    lies in no heap at all here. *)
Lemma C5_witness :
  (4096 ≠ brk full_tree ∧
   ∃ p' sb',
     heap (fair_split full_tree 4096 full_leaf 28 145 145).1.1.1 !! 4096
     = Some p' ∧ sibling_ptr (hdr p') = 4608 ∧
     heap (fair_split full_tree 4096 full_leaf 28 145 145).1.1.1 !! 4608
     = Some sb' ∧ highest (hdr sb') = 150) ∧
  (sibling_ptr (hdr full_leaf) = NULL ∧
   linear_search (heap full_tree) full_leaf 145 = linear_search ∅ full_leaf 145 ∧
   sibling_overshoot (heap full_tree) full_leaf 145 NULL = Some false).
Proof.
  destruct (C5_highest_set_by_split full_tree 4096 full_leaf 28 145 145
              0 0 0 0 0 (heap full_tree) full_leaf 0 145 NULL)
    as (_ & _ & Hsplit & _ & _ & Hnull).
  split.
  - split; [discriminate|].
    destruct (Hsplit ltac:(discriminate)) as (p' & sb' & H1 & H2 & H3 & H4).
    exists p', sb'. split; [exact H1|]. split; [exact H2|].
    split; [exact H3|exact H4].
  - split; [reflexivity|]. destruct (Hnull eq_refl) as [H1 H2].
    split; [exact H1|exact H2].
Defined.

(** C6.  In the single-leaf tree holding the keys 1, 2 and 4 after
    [btree_delete(3)], the leaf's switch counter is odd and the scan runs
    right to left: [btree_search_range(0, 3, buf)] meets the key 4 first
    and returns without writing the handles of 1 and 2, and
    [btree_search_range(0, 10, buf)] writes the handles in descending
    order.  (On the leaf with the same three entries and an even counter,
    built by inserts alone, the scans write 1, 2 and 1, 2, 4.) *)
Theorem C6_range_scan_after_delete :
  (p ← heap tree_124 !! root tree_124;
   Some (valid_entries (records p), IS_FORWARD (switch_counter (hdr p))))
  = Some ([mkEntry 1 1; mkEntry 2 2; mkEntry 4 4], false) ∧
  btree_search_range 0 3 [0; 0; 0; 0] tree_124 = Some [0; 0; 0; 0] ∧
  btree_search_range 0 10 [0; 0; 0; 0] tree_124 = Some [4; 2; 1; 0] ∧
  (s ← insert_keys [1; 2; 4] empty_tree;
   btree_search_range 0 3 [0; 0; 0; 0] s) = Some [1; 2; 0; 0] ∧
  (s ← insert_keys [1; 2; 4] empty_tree;
   btree_search_range 0 10 [0; 0; 0; 0] s) = Some [1; 2; 4; 0].
Proof. repeat split; by vm_compute. Qed.

(** C7.  If the valid entries of a node are sorted by key, they are still
    sorted after [insert_key] (called, as [store] does, with the number of
    valid entries) when the array has room for one more entry and the
    terminator, and after [remove_key] when the array has room for the
    terminator, which includes a full node. *)
Theorem C7_sorted_preserved this p k v k' flush uli :
  let es := valid_entries (records p) in
  key_sorted es = true →
  ((S (length es) < length (records p))%nat →
   key_sorted (valid_entries
                 (records (insert_key this p k v (length es) flush uli).1.1))
   = true) ∧
  ((length es < length (records p))%nat →
   key_sorted (valid_entries (records (remove_key this p k').1.1)) = true).
Proof.
  intros es Hs. split; intros Hroom.
  - rewrite insert_key_valid_gen by done. fold es.
    destruct (v =? NULL).
    + by apply key_sorted_take.
    + by apply insert_sorted.
  - destruct (remove_key_valid this p k') as [-> _]; [done|].
    by apply remove_first_sorted.
Qed.

(** Insertion of (25, 125) into [small_leaf], and removal of 150 from
    [full_leaf], whose 28 entries leave room for the terminator only. *)
Lemma C7_witness :
  (key_sorted (valid_entries (records small_leaf)) = true ∧
   (S (length (valid_entries (records small_leaf)))
    < length (records small_leaf))%nat ∧
   key_sorted (valid_entries
                 (records (insert_key 4096 small_leaf 25 125 3 true true).1.1))
   = true) ∧
  (key_sorted (valid_entries (records full_leaf)) = true ∧
   S (length (valid_entries (records full_leaf))) = length (records full_leaf) ∧
   key_sorted (valid_entries (records (remove_key 4096 full_leaf 150).1.1))
   = true).
Proof.
  split.
  - split; [reflexivity|]. split; [vm_compute; lia|].
    apply (C7_sorted_preserved 4096 small_leaf 25 125 20 true true).
    + reflexivity.
    + vm_compute. lia.
  - split; [reflexivity|]. split; [reflexivity|].
    apply (C7_sorted_preserved 4096 full_leaf 25 125 150 true true).
    + reflexivity.
    + vm_compute. lia.
Defined.



(** C9.  Inserting a key that a valid entry of the node already carries
    (with a non-null value handle, into a node with room) adds a second
    entry: the node has one more valid entry, the existing entry is still at
    its index with its value handle, and the new entry stands to its
    right. *)
Theorem C9_duplicate_key_appended this p k v flush uli j e :
  let es := valid_entries (records p) in
  let es' := valid_entries
               (records (insert_key this p k v (length es) flush uli).1.1) in
  (S (length es) < length (records p))%nat →
  v ≠ NULL →
  es !! j = Some e → key e = k →
  length es' = S (length es) ∧
  es' !! j = Some e ∧
  ∃ j', (j < j')%nat ∧ es' !! j' = Some (mkEntry k v) ∧
        es' = take j' es ++ mkEntry k v :: drop j' es.
Proof.
  intros es es' Hroom Hv He Hk. subst es'.
  rewrite insert_key_valid by done. fold es.
  set (j' := ins_pos k es (length es)).
  pose proof (lookup_lt_Some _ _ _ He) as Hj.
  assert (Hjj : (j < j')%nat).
  { apply ins_pos_after; [done|]. rewrite (rec_at_lookup _ _ _ He). lia. }
  pose proof (ins_pos_le k es (length es)) as Hle. fold j' in Hle.
  split; [|split].
  - rewrite length_app. simpl. rewrite length_take, length_drop. lia.
  - rewrite lookup_app_l by (rewrite length_take; lia).
    by rewrite lookup_take_lt.
  - exists j'. split; [done|]. split; [|done].
    apply list_lookup_middle. rewrite length_take. lia.
Qed.

(** A second entry with key 20 in [small_leaf]. *)
Lemma C9_witness :
  (S (length (valid_entries (records small_leaf)))
   < length (records small_leaf))%nat ∧
  valid_entries (records (insert_key 4096 small_leaf 20 777 3 true true).1.1)
  !! 1%nat = Some (mkEntry 20 120) ∧
  ∃ j', (1 < j')%nat ∧
        valid_entries
          (records (insert_key 4096 small_leaf 20 777 3 true true).1.1) !! j'
        = Some (mkEntry 20 777).
Proof.
  split; [vm_compute; lia|].
  destruct (C9_duplicate_key_appended 4096 small_leaf 20 777 true true 1
              (mkEntry 20 120))
    as (_ & H1 & j' & H2 & H3 & _).
  - vm_compute. lia.
  - discriminate.
  - reflexivity.
  - reflexivity.
  - split; [exact H1|]. exists j'. split; [exact H2|exact H3].
Defined.

(** C10.  After [insert_key] the switch counter is even and after
    [remove_key] it is odd: [insert_key] increments it only when it is odd,
    [remove_key] only when it is even, in both cases before the shift, so
    that every flush of the shift of [insert_key] sees the even counter and
    every flush of the shift of [remove_key] the odd one; the bump of the
    FAIR split (+2 when even, +1 when odd, modulo 256) gives an even counter,
    and the node split by [fair_split] (at an address other than the one the
    allocator hands out next) has an even counter when the split is done. *)
Theorem C10_counter_parity s this p k v n flush uli :
  let c := switch_counter (hdr p) in
  let ci := if IS_FORWARD c then c else to_uint8 (c + 1) in
  let cr := if IS_FORWARD c then to_uint8 (c + 1) else c in
  this ≠ brk s →
  switch_counter (hdr (insert_key this p k v n flush uli).1.1) = ci ∧
  IS_FORWARD (switch_counter (hdr (insert_key this p k v n flush uli).1.1))
  = true ∧
  Forall (λ e, flushed_counter e = Some ci)
         (insert_key this p k v n flush uli).2 ∧
  switch_counter (hdr (remove_key this p k).1.1) = cr ∧
  IS_FORWARD (switch_counter (hdr (remove_key this p k).1.1)) = false ∧
  Forall (λ e, flushed_counter e = Some cr) (remove_key this p k).1.2 ∧
  switch_counter (fair_counter (hdr p))
  = to_uint8 (c + (if IS_FORWARD c then 2 else 1)) ∧
  IS_FORWARD (switch_counter (fair_counter (hdr p))) = true ∧
  ∃ p', heap (fair_split s this p n k v).1.1.1 !! this = Some p' ∧
        IS_FORWARD (switch_counter (hdr p')) = true.
Proof.
  intros c ci cr Hne.
  destruct (insert_key_counter_spec (hdr p)) as [Hi1 Hi2].
  destruct (remove_key_counter_spec (hdr p)) as [Hr1 Hr2].
  destruct (fair_counter_spec (hdr p)) as [Hf1 Hf2].
  fold c ci in Hi1. fold c cr in Hr1.
  rewrite insert_key_hdr_counter, remove_key_hdr_counter.
  split; [done|]. split; [done|].
  split. { apply insert_key_flushes. intros off len rs. simpl. by rewrite Hi1. }
  split; [done|]. split; [done|].
  split. { apply remove_key_flushes. intros off len rs. simpl. by rewrite Hr1. }
  split; [done|]. split; [done|].
  pose proof (fair_split_spec s this p n k v Hne) as Hfs. cbn zeta in Hfs.
  destruct Hfs as (_ & _ & _ & _ & _ & _ & _ & _ & (p' & Hp' & Hc & _) & _).
  by exists p'.
Qed.

(** The counter of [small_leaf], which is 0, after each of the three
    operations and in their flushes: the insertion of (25, 125) flushes one
    cache line, which carries the counter 0, the removal of key 10 flushes
    one cache line, which carries the counter 1. *)
Lemma C10_witness :
  4096 ≠ brk full_tree ∧
  IS_FORWARD
    (switch_counter (hdr (insert_key 4096 small_leaf 25 125 3 true true).1.1))
  = true ∧
  Forall (λ e, flushed_counter e = Some 0)
         (insert_key 4096 small_leaf 25 125 3 true true).2 ∧
  length (insert_key 4096 small_leaf 25 125 3 true true).2 = 1%nat ∧
  IS_FORWARD (switch_counter (hdr (remove_key 4096 small_leaf 10).1.1)) = false ∧
  Forall (λ e, flushed_counter e = Some 1) (remove_key 4096 small_leaf 10).1.2 ∧
  length (remove_key 4096 small_leaf 10).1.2 = 1%nat ∧
  IS_FORWARD (switch_counter (fair_counter (hdr small_leaf))) = true.
Proof.
  split; [discriminate|].
  destruct (C10_counter_parity full_tree 4096 small_leaf 10 125 3 true true)
    as (_ & _ & _ & _ & H2 & H2' & _ & H3 & _).
  - discriminate.
  - destruct (C10_counter_parity full_tree 4096 small_leaf 25 125 3 true true)
      as (_ & H1 & H1' & _).
    + discriminate.
    + split; [exact H1|]. split; [exact H1'|]. split; [reflexivity|].
      split; [exact H2|]. split; [exact H2'|]. split; [reflexivity|exact H3].
Defined.

(** * Further properties of the code *)

(** ** [page::count] *)

Section Count.
Variables (es : list entry) (t : entry) (tl : list entry).
Hypothesis Hnn : Forall (λ e, ptr e ≠ NULL) es.
Hypothesis Ht : ptr t = NULL.
Local Abbreviation rs := (es ++ t :: tl).

Lemma rec_at_valid_nonnull i : (i < length es)%nat → ptr (rec_at rs i) ≠ NULL.
Proof.
  intros Hi. rewrite rec_at_app_l by done.
  destruct (lookup_lt_is_Some_2 es i Hi) as [e He].
  rewrite (rec_at_lookup _ _ _ He).
  rewrite Forall_forall in Hnn. apply Hnn. by eapply list_elem_of_lookup_2.
Qed.

Lemma count_walk_forward fuel : ∀ c,
  0 ≤ c ≤ Z.of_nat (length es) →
  Z.of_nat (length es) - c < Z.of_nat fuel →
  count_walk fuel true rs c = Z.of_nat (length es).
Proof.
  induction fuel as [|fuel IH]; intros c Hc Hfuel; [lia|].
  cbn [count_walk].
  destruct (Z.leb_spec 0 c); [|lia]. cbn [andb].
  destruct (decide (c = Z.of_nat (length es))) as [->|Hne].
  - rewrite Nat2Z.id, rec_at_middle, Ht. done.
  - pose proof (rec_at_valid_nonnull (Z.to_nat c) ltac:(lia)) as Hp.
    destruct (Z.eqb_spec (ptr (rec_at rs (Z.to_nat c))) NULL); [done|].
    cbn [negb]. apply IH; lia.
Qed.

Lemma count_walk_backward fuel : ∀ c,
  -1 ≤ c < Z.of_nat (length es) →
  c + 1 < Z.of_nat fuel →
  count_walk fuel false rs c = -1.
Proof.
  induction fuel as [|fuel IH]; intros c Hc Hfuel; [lia|].
  cbn [count_walk].
  destruct (Z.leb_spec 0 c); cbn [andb]; [|lia].
  pose proof (rec_at_valid_nonnull (Z.to_nat c) ltac:(lia)) as Hp.
  destruct (Z.eqb_spec (ptr (rec_at rs (Z.to_nat c))) NULL); [done|].
  cbn [negb]. apply IH; lia.
Qed.

Lemma count_from_valid fuel : ∀ c,
  (c ≤ length es)%nat → (length es - c < fuel)%nat →
  count_from fuel rs c = length es.
Proof.
  induction fuel as [|fuel IH]; intros c Hc Hfuel; [lia|].
  cbn [count_from].
  destruct (decide (c = length es)) as [->|Hne].
  - by rewrite rec_at_middle, Ht.
  - pose proof (rec_at_valid_nonnull c ltac:(lia)) as Hp.
    destruct (Z.eqb_spec (ptr (rec_at rs c)) NULL); [done|].
    apply IH; lia.
Qed.
End Count.

(** X1.  [count] returns the number of valid entries in either scan
    direction whenever [last_index] names a valid entry or is -1: a lagging
    [last_index] is made up for by the forward walk, or, when the counter is
    odd, by the fallback scan from slot 0. *)
Theorem count_valid p :
  let es := valid_entries (records p) in
  (length es < length (records p))%nat →
  -1 ≤ last_index (hdr p) →
  last_index (hdr p) + 1 ≤ Z.of_nat (length es) →
  count p = length es.
Proof.
  intros es Hroom Hlo Hhi.
  destruct (valid_entries_split (records p)) as (t & tl & Heq & Ht); [done|].
  fold es in Heq.
  pose proof (valid_entries_nonnull (records p)) as Hnn. fold es in Hnn.
  assert (Hlen : (length es < length (es ++ t :: tl))%nat).
  { rewrite length_app. simpl. lia. }
  unfold count. rewrite Heq.
  destruct (IS_FORWARD (switch_counter (hdr p))).
  - rewrite (count_walk_forward es t tl Hnn Ht); [|lia|lia].
    destruct (Z.ltb_spec (Z.of_nat (length es)) 0); [lia|].
    by rewrite Nat2Z.id.
  - destruct (decide (last_index (hdr p) + 1 = Z.of_nat (length es))) as [E|E].
    + rewrite E. cbn [count_walk].
      destruct (Z.leb_spec 0 (Z.of_nat (length es))); [|lia].
      rewrite Nat2Z.id, rec_at_middle, Ht. cbn.
      destruct (Z.ltb_spec (Z.of_nat (length es)) 0); [lia|].
      by rewrite Nat2Z.id.
    + rewrite (count_walk_backward es t tl Hnn); [|lia|lia].
      destruct (Z.ltb_spec (-1) 0); [|lia].
      apply (count_from_valid es t tl Hnn Ht); lia.
Qed.

(** [lagging_leaf]: odd counter, [last_index] 0, three valid entries. *)
Lemma count_valid_witness :
  (length (valid_entries (records lagging_leaf))
   < length (records lagging_leaf))%nat ∧
  -1 ≤ last_index (hdr lagging_leaf) ∧
  count lagging_leaf = 3%nat.
Proof.
  split; [vm_compute; lia|]. split; [by vm_compute|].
  apply (count_valid lagging_leaf); [vm_compute; lia|by vm_compute..].
Defined.

(** ** [insert_key] and [remove_key] on a quiescent node *)

Lemma to_int16_small z : -32768 ≤ z < 32768 → to_int16 z = z.
Proof. intros H. unfold to_int16. rewrite Z.mod_small; lia. Qed.

Lemma quiescent_count p : quiescent p → count p = length (valid_entries (records p)).
Proof. intros (_ & _ & Hli & _). by apply count_quiescent. Qed.

Lemma has_key_app k l1 l2 : has_key k (l1 ++ l2) = has_key k l1 || has_key k l2.
Proof. unfold has_key. apply existsb_app. Qed.

Lemma remove_first_app_r k l1 l2 :
  has_key k l1 = false → remove_first k (l1 ++ l2) = l1 ++ remove_first k l2.
Proof.
  induction l1 as [|e l1 IH]; [done|]. simpl.
  destruct (key e =? k); [done|]. simpl. intros H. by rewrite IH.
Qed.

Lemma remove_first_length k es :
  has_key k es = true → S (length (remove_first k es)) = length es.
Proof.
  induction es as [|e es IH]; [done|]. simpl.
  destruct (key e =? k); [done|]. simpl. intros H. by rewrite IH.
Qed.

(** The array after [remove_key]. *)
Lemma remove_key_records this p k :
  let es := valid_entries (records p) in
  (length es < length (records p))%nat →
  ∃ t tl, records p = es ++ t :: tl ∧ ptr t = NULL ∧
    records (remove_key this p k).1.1
    = (if has_key k es then remove_first k es ++ t :: t :: tl else records p) ∧
    (remove_key this p k).2 = has_key k es.
Proof.
  intros es Hroom.
  destruct (valid_entries_split (records p)) as (t & tl & Heq & Ht); [done|].
  fold es in Heq.
  pose proof (valid_entries_nonnull (records p)) as Hnn. fold es in Hnn.
  exists t, tl. split; [done|]. split; [done|]. unfold remove_key.
  destruct (remove_loop_search this (remove_key_counter (hdr p)) k es [] t tl
              (length (records p)) []) as [H1 H2]; [done|done|done|].
  simpl in H1, H2. rewrite <- Heq in H1, H2.
  destruct (remove_loop _ _ _ _ _ _ _ _) as [[rs evs] shift].
  simpl in *. subst shift rs. split; [|done].
  destruct (has_key k es); [done|]. by rewrite Heq.
Qed.

Lemma remove_key_last_index this p k :
  last_index (hdr (remove_key this p k).1.1)
  = (if (remove_key this p k).2 then to_int16 (last_index (hdr p) - 1)
     else last_index (hdr p)).
Proof.
  unfold remove_key.
  destruct (remove_loop _ _ _ _ _ _ _ _) as [[rs evs] shift]. simpl.
  unfold remove_key_counter. by destruct shift, (IS_FORWARD _).
Qed.

(** The next theorem, in the form that the later proofs use. *)
Lemma insert_key_adds_entry_spec this p k v flush :
  let es := valid_entries (records p) in
  let r := insert_key this p k v (length es) flush true in
  quiescent p →
  (S (length es) < length (records p))%nat →
  v ≠ NULL →
  valid_entries (records r.1.1) ≡ₚ mkEntry k v :: es ∧
  r.1.2 = S (length es) ∧
  last_index (hdr r.1.1) = Z.of_nat (length es) ∧
  quiescent r.1.1 ∧
  count r.1.1 = S (length es).
Proof.
  intros es r (Hlen & _ & Hli & _) Hroom Hv. subst r.
  pose proof (insert_key_valid this p k v flush true Hroom Hv) as Hval.
  cbn zeta in Hval. fold es in Hval.
  set (j := ins_pos k es (length es)) in *.
  assert (Hc : Z.to_nat cardinality = 29%nat) by done.
  assert (Hl : last_index (hdr (insert_key this p k v (length es) flush true).1.1)
               = Z.of_nat (length es)).
  { rewrite insert_key_hdr. simpl. apply to_int16_small. lia. }
  assert (Hn : length (valid_entries
                 (records (insert_key this p k v (length es) flush true).1.1))
               = S (length es)).
  { rewrite Hval, length_app. simpl. rewrite length_take, length_drop.
    pose proof (ins_pos_le k es (length es)). fold j in H. lia. }
  assert (Hq : quiescent (insert_key this p k v (length es) flush true).1.1).
  { unfold quiescent. rewrite insert_key_length, Hn, Hl.
    repeat split; try lia. intros E. rewrite E in Hn. done. }
  split; [|split; [|split; [|split]]].
  - rewrite Hval, <- Permutation_middle. by rewrite take_drop.
  - apply insert_key_count.
  - done.
  - done.
  - rewrite (quiescent_count _ Hq). done.
Qed.

(** X2.  On a quiescent node with room, [insert_key] (called with the number
    of valid entries and a non-null handle) adds exactly the new entry: the
    valid entries are the old ones and the new one, [*num_entries] is one
    more, [last_index] names the last valid entry, and the node is quiescent
    again, so [count] returns the new number. *)
Theorem insert_key_adds_entry this p k v flush :
  let es := valid_entries (records p) in
  let r := insert_key this p k v (length es) flush true in
  quiescent p →
  (S (length es) < length (records p))%nat →
  v ≠ NULL →
  valid_entries (records r.1.1) ≡ₚ mkEntry k v :: es ∧
  r.1.2 = S (length es) ∧
  last_index (hdr r.1.1) = Z.of_nat (length es) ∧
  quiescent r.1.1 ∧
  count r.1.1 = S (length es).
Proof. exact (insert_key_adds_entry_spec this p k v flush). Qed.

(** An insertion of (25, 125) into [small_leaf]. *)
Lemma insert_key_adds_entry_witness :
  quiescent small_leaf ∧
  valid_entries (records (insert_key 4096 small_leaf 25 125 3 true true).1.1)
  ≡ₚ mkEntry 25 125 :: valid_entries (records small_leaf) ∧
  count (insert_key 4096 small_leaf 25 125 3 true true).1.1 = 4%nat.
Proof.
  assert (Hq : quiescent small_leaf).
  { unfold quiescent. repeat split; try by vm_compute. vm_compute. lia. }
  split; [exact Hq|].
  destruct (insert_key_adds_entry 4096 small_leaf 25 125 true)
    as (H1 & _ & _ & _ & H2).
  - exact Hq.
  - vm_compute. lia.
  - discriminate.
  - split; [exact H1|exact H2].
Defined.

(** The next theorem, in the form that the later proofs use. *)
Lemma remove_key_removes_first_spec this p k :
  let es := valid_entries (records p) in
  let r := remove_key this p k in
  quiescent p →
  r.2 = has_key k es ∧
  valid_entries (records r.1.1) = remove_first k es ∧
  (has_key k es = false →
   records r.1.1 = records p ∧ last_index (hdr r.1.1) = last_index (hdr p)) ∧
  quiescent r.1.1 ∧
  count r.1.1 = length (remove_first k es).
Proof.
  intros es r (Hlen & Hroom & Hli & H1) . subst r. fold es in Hroom, Hli, H1.
  destruct (remove_key_records this p k Hroom) as (t & tl & Heq & Ht & Hrs & Hfl).
  fold es in Heq, Hrs, Hfl.
  destruct (remove_key_valid this p k Hroom) as [Hval _]. fold es in Hval.
  pose proof (remove_key_last_index this p k) as Hl. rewrite Hfl in Hl.
  assert (Hc : Z.to_nat cardinality = 29%nat) by done.
  assert (Hq : quiescent (remove_key this p k).1.1).
  { unfold quiescent. rewrite Hval, Hl, Hrs.
    destruct (has_key k es) eqn:Hk.
    - pose proof (remove_first_length k es Hk) as Hrl.
      assert (Hlen' : length (remove_first k es ++ t :: t :: tl)
                      = length (records p)).
      { rewrite Heq, !length_app. simpl. lia. }
      rewrite Hlen'. repeat split; try lia.
      + rewrite to_int16_small; lia.
      + intros ->. by cbn.
    - rewrite remove_first_no_key by done. by repeat split. }
  split; [done|]. split; [done|]. split; [|split; [done|]].
  - intros Hk. rewrite Hk in Hrs, Hl. done.
  - rewrite (quiescent_count _ Hq). by rewrite Hval.
Qed.

(** X3.  On a quiescent node [remove_key] returns whether some valid entry
    has the key; it removes the first such entry and keeps the others in
    order, leaving the node quiescent; when no entry has the key the array
    and [last_index] are untouched (only the switch counter may change). *)
Theorem remove_key_removes_first this p k :
  let es := valid_entries (records p) in
  let r := remove_key this p k in
  quiescent p →
  r.2 = has_key k es ∧
  valid_entries (records r.1.1) = remove_first k es ∧
  (has_key k es = false →
   records r.1.1 = records p ∧ last_index (hdr r.1.1) = last_index (hdr p)) ∧
  quiescent r.1.1 ∧
  count r.1.1 = length (remove_first k es).
Proof. exact (remove_key_removes_first_spec this p k). Qed.

(** Removal of the key 20, and of the absent key 25, from [small_leaf]. *)
Lemma remove_key_removes_first_witness :
  quiescent small_leaf ∧
  (remove_key 4096 small_leaf 20).2 = true ∧
  valid_entries (records (remove_key 4096 small_leaf 20).1.1)
  = [mkEntry 10 110; mkEntry 30 130] ∧
  (remove_key 4096 small_leaf 25).2 = false.
Proof.
  assert (Hq : quiescent small_leaf).
  { unfold quiescent. repeat split; try by vm_compute. vm_compute. lia. }
  split; [exact Hq|].
  destruct (remove_key_removes_first 4096 small_leaf 20 Hq) as (H1 & H2 & _).
  destruct (remove_key_removes_first 4096 small_leaf 25 Hq) as (H3 & _).
  split; [exact H1|]. split; [exact H2|exact H3].
Defined.

(** X4.  Round trip: on a quiescent node that has room for one more entry
    and the terminator and holds no entry with key [k], [insert_key] of [k]
    with a non-null value handle (called with the number of valid entries
    and updating [last_index]) followed by [remove_key] of [k] gives back
    the valid entries the node had, and [remove_key] reports success. *)
Theorem insert_then_remove this p k v flush :
  let es := valid_entries (records p) in
  let p1 := (insert_key this p k v (length es) flush true).1.1 in
  quiescent p →
  (S (length es) < length (records p))%nat →
  v ≠ NULL →
  has_key k es = false →
  (remove_key this p1 k).2 = true ∧
  valid_entries (records (remove_key this p1 k).1.1) = es.
Proof.
  intros es p1 Hq Hroom Hv Hk.
  destruct (insert_key_adds_entry_spec this p k v flush Hq Hroom Hv)
    as (_ & _ & _ & Hq1 & _).
  fold es p1 in Hq1.
  destruct (remove_key_removes_first_spec this p1 k Hq1) as (H1 & H2 & _).
  rewrite H1, H2. unfold p1.
  pose proof (insert_key_valid this p k v flush true Hroom Hv) as Hiv.
  cbn zeta in Hiv. fold es in Hiv. rewrite Hiv.
  set (j := ins_pos k es (length es)).
  assert (Hkj : has_key k (take j es) = false).
  { rewrite <- (take_drop j es), has_key_app in Hk.
    by apply orb_false_iff in Hk as [? _]. }
  split.
  - rewrite has_key_app, Hkj. simpl. by rewrite Z.eqb_refl.
  - rewrite remove_first_app_r by done. simpl. rewrite Z.eqb_refl.
    apply take_drop.
Qed.

(** Key 25 inserted into and removed from [small_leaf]. *)
Lemma insert_then_remove_witness :
  quiescent small_leaf ∧
  has_key 25 (valid_entries (records small_leaf)) = false ∧
  valid_entries
    (records (remove_key 4096
                (insert_key 4096 small_leaf 25 125 3 true true).1.1 25).1.1)
  = valid_entries (records small_leaf).
Proof.
  assert (Hq : quiescent small_leaf).
  { unfold quiescent. repeat split; try by vm_compute. vm_compute. lia. }
  split; [exact Hq|]. split; [reflexivity|].
  apply (insert_then_remove 4096 small_leaf 25 125 true).
  - exact Hq.
  - vm_compute. lia.
  - discriminate.
  - reflexivity.
Defined.

(** ** [linear_search] on a leaf *)

Lemma first_with_key_None k es :
  first_with_key k es = None ↔ has_key k es = false.
Proof.
  induction es as [|e es IH]; [done|]. simpl.
  destruct (key e =? k); simpl; [split; discriminate|done].
Qed.

Lemma last_with_key_None k es :
  last_with_key k es = None ↔ has_key k es = false.
Proof.
  induction es as [|e es IH]; [done|]. simpl.
  destruct (last_with_key k es) as [v|].
  - split; [done|]. intros [_ H]%orb_false_iff. apply IH in H. done.
  - destruct IH as [IH _]. rewrite (IH eq_refl), orb_false_r.
    destruct (key e =? k); split; done.
Qed.

Lemma first_with_key_elem k es v :
  first_with_key k es = Some v → ∃ e, e ∈ es ∧ key e = k ∧ ptr e = v.
Proof.
  induction es as [|e es IH]; [done|]. simpl.
  destruct (Z.eqb_spec (key e) k).
  - intros [= <-]. exists e. split; [left|done].
  - intros (e' & ? & ?)%IH. exists e'. split; [by right|done].
Qed.

Lemma last_with_key_elem k es v :
  last_with_key k es = Some v → ∃ e, e ∈ es ∧ key e = k ∧ ptr e = v.
Proof.
  induction es as [|e es IH]; [done|]. simpl.
  destruct (last_with_key k es) as [w|].
  - intros [= <-]. destruct (IH eq_refl) as (e' & ? & ?).
    exists e'. split; [by right|done].
  - destruct (Z.eqb_spec (key e) k); [|done].
    intros [= <-]. exists e. split; [left|done].
Qed.

Lemma last_with_key_snoc k es e :
  last_with_key k (es ++ [e])
  = if key e =? k then Some (ptr e) else last_with_key k es.
Proof.
  induction es as [|a es IH]; simpl.
  - by destruct (key e =? k).
  - rewrite IH. destruct (key e =? k); [done|].
    by destruct (last_with_key k es).
Qed.

Lemma distinct_neighbours_lookup prev es i a b :
  distinct_neighbours prev es = true →
  es !! i = Some a → es !! S i = Some b → ptr a ≠ ptr b.
Proof.
  revert prev i. induction es as [|e es IH]; intros prev i Hd Ha Hb; [done|].
  simpl in Hd. apply andb_true_iff in Hd as [_ Hd].
  destruct i as [|i]; simpl in *.
  - injection Ha as ->. destruct es as [|e' es]; [done|].
    simpl in Hb. injection Hb as ->. simpl in Hd.
    apply andb_true_iff in Hd as [Hd _].
    destruct (Z.eqb_spec (ptr a) (ptr b)); done.
  - by eapply IH.
Qed.

Section LeafScan.
Variable k : Z.

(** Left to right from slot [|pre| + 1], whose left neighbour is [a]. *)
Lemma leaf_scan_forward_spec suf : ∀ pre a t tl fuel,
  Forall (λ e, ptr e ≠ NULL) suf → ptr t = NULL →
  distinct_neighbours (ptr a) suf = true →
  (length suf < fuel)%nat →
  leaf_scan_forward fuel (pre ++ a :: suf ++ t :: tl) k (S (length pre))
  = default NULL (first_with_key k suf).
Proof.
  induction suf as [|e suf IH]; intros pre a t tl fuel Hnn Ht Hd Hfuel;
    (destruct fuel as [|fuel]; [simpl in Hfuel; lia|]); cbn [leaf_scan_forward].
  - replace (S (length pre)) with (length pre + 1)%nat by lia.
    rewrite rec_at_app_r. cbn. by rewrite Ht.
  - apply Forall_cons in Hnn as [He Hnn].
    simpl in Hd. apply andb_true_iff in Hd as [Hae Hd].
    assert (H0 : rec_at (pre ++ a :: (e :: suf) ++ t :: tl)
                   (S (length pre) - 1) = a).
    { replace (S (length pre) - 1)%nat with (length pre) by lia.
      apply rec_at_middle. }
    assert (H1 : rec_at (pre ++ a :: (e :: suf) ++ t :: tl)
                   (S (length pre)) = e).
    { replace (S (length pre)) with (length pre + 1)%nat by lia.
      by rewrite rec_at_app_r. }
    rewrite H0, H1.
    destruct (Z.eqb_spec (ptr e) NULL); [done|].
    rewrite Hae. cbn [first_with_key].
    destruct (key e =? k); [done|]. cbn [andb].
    replace (pre ++ a :: (e :: suf) ++ t :: tl)
      with ((pre ++ [a]) ++ e :: suf ++ t :: tl)
      by (by rewrite <- app_assoc).
    replace (S (S (length pre))) with (S (length (pre ++ [a])))
      by (rewrite length_app; simpl; lia).
    apply IH; try done. simpl in Hfuel. lia.
Qed.

(** Right to left from slot [i] down to slot 1. *)
Lemma leaf_scan_backward_spec prev es t tl i :
  Forall (λ e, ptr e ≠ NULL) es →
  distinct_neighbours prev es = true →
  (i < length es)%nat →
  leaf_scan_backward (es ++ t :: tl) k i
  = default NULL (last_with_key k (drop 1 (take (S i) es))).
Proof.
  intros Hnn Hd. induction i as [|j IH]; intros Hi.
  - simpl. by destruct es.
  - cbn [leaf_scan_backward].
    destruct (lookup_lt_is_Some_2 es (S j) Hi) as [e He].
    destruct (lookup_lt_is_Some_2 es j ltac:(lia)) as [a Ha].
    rewrite !rec_at_app_l by lia.
    rewrite (rec_at_lookup _ _ _ He), (rec_at_lookup _ _ _ Ha).
    pose proof (distinct_neighbours_lookup _ _ _ _ _ Hd Ha He) as Hae.
    assert (Hpe : ptr e ≠ NULL).
    { rewrite Forall_forall in Hnn. apply Hnn.
      by eapply list_elem_of_lookup_2. }
    rewrite (take_S_r _ _ _ He), drop_app_le
      by (rewrite length_take; lia).
    rewrite last_with_key_snoc.
    destruct (Z.eqb_spec (ptr a) (ptr e)); [done|].
    destruct (Z.eqb_spec (ptr e) NULL); [done|].
    destruct (key e =? k); [done|]. cbn [andb]. apply IH. lia.
Qed.
End LeafScan.

Lemma last_with_key_nonnull k es v :
  Forall (λ e, ptr e ≠ NULL) es → last_with_key k es = Some v → v ≠ NULL.
Proof.
  intros Hnn (e & He & _ & <-)%last_with_key_elem.
  rewrite Forall_forall in Hnn. by apply Hnn.
Qed.

(** The scan of a leaf, in both directions. *)
Lemma linear_search_leaf_spec p k :
  let es := valid_entries (records p) in
  quiescent p →
  distinct_neighbours NULL es = true →
  linear_search_leaf p k
  = default NULL (if IS_FORWARD (switch_counter (hdr p))
                  then first_with_key k es else last_with_key k es).
Proof.
  intros es Hq Hd. pose proof (quiescent_count p Hq) as Hcount.
  destruct Hq as (Hlen & Hroom & Hli & H1). fold es in Hroom, Hli, H1, Hcount.
  destruct (valid_entries_split (records p)) as (t & tl & Heq & Ht); [done|].
  fold es in Heq.
  pose proof (valid_entries_nonnull (records p)) as Hnn. fold es in Hnn.
  unfold linear_search_leaf. rewrite Hcount.
  destruct (IS_FORWARD (switch_counter (hdr p))).
  - destruct es as [|e0 es'] eqn:Ees.
    + specialize (H1 eq_refl). cbn [app] in Heq. rewrite Heq in H1 |- *.
      change (rec_at (t :: tl) 0) with t. rewrite Ht.
      rewrite andb_false_r. cbn [length].
      cbn [leaf_scan_forward]. by rewrite H1.
    + rewrite Heq. change (rec_at ((e0 :: es') ++ t :: tl) 0) with e0.
      simpl in Hd. apply andb_true_iff in Hd as [H0 Hd].
      apply Forall_cons in Hnn as [Hn0 Hnn].
      destruct (Z.eqb_spec (ptr e0) NULL); [done|].
      cbn [first_with_key negb].
      destruct (key e0 =? k); [done|]. cbn [andb].
      apply (leaf_scan_forward_spec k es' [] e0 t tl); try done.
      rewrite length_app. cbn [length]. lia.
  - assert (Hscan : leaf_scan_backward (records p) k (length es - 1)
                    = default NULL (last_with_key k (drop 1 es))).
    { destruct es as [|e0 es'] eqn:Ees; [done|]. rewrite Heq, <- Ees.
      rewrite (leaf_scan_backward_spec k NULL es t tl);
        [|by rewrite Ees..|rewrite Ees; simpl; lia].
      replace (S (length es - 1)) with (length es)
        by (rewrite Ees; simpl; lia).
      by rewrite take_ge. }
    rewrite Hscan.
    destruct es as [|e0 es'] eqn:Ees.
    + rewrite Heq. cbn. by rewrite Ht, andb_false_r.
    + rewrite Heq. change (drop 1 (e0 :: es')) with es'.
      cbn [last_with_key].
      change (rec_at ((e0 :: es') ++ t :: tl) 0) with e0.
      apply Forall_cons in Hnn as [Hn0 Hnn].
      destruct (last_with_key k es') as [v|] eqn:El.
      * pose proof (last_with_key_nonnull _ _ _ Hnn El).
        simpl. by destruct (Z.eqb_spec v NULL).
      * simpl default. rewrite Z.eqb_refl. cbn [negb].
        destruct (Z.eqb_spec (ptr e0) NULL); [done|].
        cbn [negb]. rewrite andb_true_r. by destruct (key e0 =? k).
Qed.

Lemma first_with_key_nonnull k es v :
  Forall (λ e, ptr e ≠ NULL) es → first_with_key k es = Some v → v ≠ NULL.
Proof.
  intros Hnn (e & He & _ & <-)%first_with_key_elem.
  rewrite Forall_forall in Hnn. by apply Hnn.
Qed.

(** The next theorem, in the form that the later proofs use. *)
Lemma linear_search_leaf_lookup_spec hp p k :
  let es := valid_entries (records p) in
  let found := if IS_FORWARD (switch_counter (hdr p))
               then first_with_key k es else last_with_key k es in
  leftmost_ptr (hdr p) = NULL →
  quiescent p →
  distinct_neighbours NULL es = true →
  linear_search hp p k
  = match found with
    | Some v => Some v
    | None =>
        if sibling_ptr (hdr p) =? NULL then Some NULL
        else sp ← hp !! sibling_ptr (hdr p);
             Some (if highest (hdr sp) <=? k then sibling_ptr (hdr p) else NULL)
    end ∧
  (found = None ↔ has_key k es = false) ∧
  (∀ v, found = Some v → v ≠ NULL ∧ ∃ e, e ∈ es ∧ key e = k ∧ ptr e = v).
Proof.
  intros es found Hleaf Hq Hd.
  pose proof (valid_entries_nonnull (records p)) as Hnn. fold es in Hnn.
  assert (Hsome : ∀ v, found = Some v →
            v ≠ NULL ∧ ∃ e, e ∈ es ∧ key e = k ∧ ptr e = v).
  { intros v Hv. unfold found in Hv.
    destruct (IS_FORWARD _).
    - split; [by eapply first_with_key_nonnull|by apply first_with_key_elem].
    - split; [by eapply last_with_key_nonnull|by apply last_with_key_elem]. }
  split; [|split; [|done]].
  - unfold linear_search. rewrite Hleaf. cbn [Z.eqb NULL].
    change (0 =? 0) with true. cbv iota.
    rewrite (linear_search_leaf_spec p k Hq Hd). fold es found.
    destruct found as [v|] eqn:Ef; simpl.
    + destruct (Hsome v eq_refl) as [Hv _].
      by destruct (Z.eqb_spec v NULL).
    + done.
  - unfold found. destruct (IS_FORWARD _).
    + apply first_with_key_None.
    + apply last_with_key_None.
Qed.

(** X5. [page::linear_search] on a quiescent leaf whose neighbouring entries
    have different handles returns the handle of the first entry with the
    key when the switch counter is even and of the last one when it is odd;
    when no entry has the key it returns the sibling if there is one whose
    [highest] is not above the key, and [NULL] otherwise.  A handle that it
    returns is that of an entry with the key. *)
Theorem linear_search_leaf_lookup hp p k :
  let es := valid_entries (records p) in
  let found := if IS_FORWARD (switch_counter (hdr p))
               then first_with_key k es else last_with_key k es in
  leftmost_ptr (hdr p) = NULL →
  quiescent p →
  distinct_neighbours NULL es = true →
  linear_search hp p k
  = match found with
    | Some v => Some v
    | None =>
        if sibling_ptr (hdr p) =? NULL then Some NULL
        else sp ← hp !! sibling_ptr (hdr p);
             Some (if highest (hdr sp) <=? k then sibling_ptr (hdr p) else NULL)
    end ∧
  (found = None ↔ has_key k es = false) ∧
  (∀ v, found = Some v → v ≠ NULL ∧ ∃ e, e ∈ es ∧ key e = k ∧ ptr e = v).
Proof. exact (linear_search_leaf_lookup_spec hp p k). Qed.

(** Lookups of 20 (present) and 25 (absent) in [small_leaf]. *)
Lemma linear_search_leaf_lookup_witness :
  quiescent small_leaf ∧
  linear_search ∅ small_leaf 20 = Some 120 ∧
  linear_search ∅ small_leaf 25 = Some NULL.
Proof.
  assert (Hq : quiescent small_leaf).
  { unfold quiescent. repeat split; try by vm_compute. vm_compute. lia. }
  split; [exact Hq|].
  destruct (linear_search_leaf_lookup ∅ small_leaf 20 eq_refl Hq eq_refl)
    as (H1 & _).
  destruct (linear_search_leaf_lookup ∅ small_leaf 25 eq_refl Hq eq_refl)
    as (H2 & _).
  split; [exact H1|exact H2].
Defined.

(** ** Lookup after an insertion or a removal in the same leaf *)

Lemma NoDup_distinct_neighbours prev es :
  NoDup (prev :: (ptr <$> es)) → distinct_neighbours prev es = true.
Proof.
  revert prev. induction es as [|e es IH]; intros prev Hnd; [done|].
  simpl. apply andb_true_iff. split.
  - apply NoDup_cons in Hnd as [Hnot _].
    destruct (Z.eqb_spec prev (ptr e)) as [->|]; [|done].
    exfalso. apply Hnot. left.
  - apply IH. by apply NoDup_cons in Hnd as [_ Hnd].
Qed.

Lemma leaf_distinct_neighbours es :
  Forall (λ e, ptr e ≠ NULL) es → NoDup (ptr <$> es) →
  distinct_neighbours NULL es = true.
Proof.
  intros Hnn Hnd. apply NoDup_distinct_neighbours, NoDup_cons. split; [|done].
  intros (e & He & Hin)%list_elem_of_fmap.
  rewrite Forall_forall in Hnn. by apply (Hnn e).
Qed.

Lemma first_with_key_app k l1 l2 :
  first_with_key k (l1 ++ l2)
  = match first_with_key k l1 with
    | Some v => Some v
    | None => first_with_key k l2
    end.
Proof.
  induction l1 as [|e l1 IH]; [done|]. simpl. by destruct (key e =? k).
Qed.

Lemma last_with_key_app k l1 l2 :
  last_with_key k (l1 ++ l2)
  = match last_with_key k l2 with
    | Some v => Some v
    | None => last_with_key k l1
    end.
Proof.
  induction l1 as [|e l1 IH]; simpl.
  - by destruct (last_with_key k l2).
  - rewrite IH. by destruct (last_with_key k l2), (last_with_key k l1).
Qed.

Lemma has_key_take k n es : has_key k es = false → has_key k (take n es) = false.
Proof.
  intros H. rewrite <- (take_drop n es), has_key_app in H.
  by apply orb_false_iff in H as [? _].
Qed.

Lemma last_with_key_remove_first k k' es :
  k' ≠ k → last_with_key k' (remove_first k es) = last_with_key k' es.
Proof.
  intros Hk. induction es as [|e es IH]; [done|]. simpl.
  destruct (Z.eqb_spec (key e) k) as [He|He].
  - destruct (Z.eqb_spec (key e) k'); [lia|].
    by destruct (last_with_key k' es).
  - simpl. by rewrite IH.
Qed.

Lemma remove_first_sublist k es : remove_first k es `sublist_of` es.
Proof.
  induction es as [|e es IH]; [done|]. simpl.
  destruct (key e =? k); [by apply sublist_cons|by apply sublist_skip].
Qed.

(** X6. After [insert_key] of a new key with a fresh non-null handle into a
    quiescent leaf whose handles are pairwise distinct, [linear_search] on
    the leaf's new content finds that handle for the key and, for every other
    key, the handle it found before when the counter was even (the first
    entry with the key). *)
Theorem insert_then_search this p k v flush :
  let es := valid_entries (records p) in
  let p1 := (insert_key this p k v (length es) flush true).1.1 in
  quiescent p →
  (S (length es) < length (records p))%nat →
  v ≠ NULL → v ∉ (ptr <$> es) → NoDup (ptr <$> es) →
  has_key k es = false →
  linear_search_leaf p1 k = v ∧
  ∀ k', k' ≠ k →
    linear_search_leaf p1 k' = default NULL (first_with_key k' es).
Proof.
  intros es p1 Hq Hroom Hv Hfresh Hnd Hk.
  destruct (insert_key_adds_entry_spec this p k v flush Hq Hroom Hv)
    as (Hperm & _ & _ & Hq1 & _).
  fold es p1 in Hperm, Hq1.
  pose proof (insert_key_valid this p k v flush true Hroom Hv) as Hval.
  cbn zeta in Hval. fold es p1 in Hval.
  set (j := ins_pos k es (length es)) in Hval.
  assert (Hd1 : distinct_neighbours NULL (valid_entries (records p1)) = true).
  { apply leaf_distinct_neighbours; [apply valid_entries_nonnull|].
    rewrite Hperm. simpl. by apply NoDup_cons. }
  assert (Hfw : IS_FORWARD (switch_counter (hdr p1)) = true).
  { unfold p1. rewrite insert_key_hdr_counter.
    apply insert_key_counter_spec. }
  assert (Hls : ∀ k', linear_search_leaf p1 k'
                = default NULL (first_with_key k' (take j es ++ mkEntry k v :: drop j es))).
  { intros k'. rewrite (linear_search_leaf_spec p1 k' Hq1 Hd1), Hfw.
    by rewrite Hval. }
  split.
  - rewrite Hls, first_with_key_app.
    destruct (first_with_key k (take j es)) eqn:E.
    + assert (Hn : first_with_key k (take j es) = None)
        by (by apply first_with_key_None, has_key_take).
      congruence.
    + simpl. by rewrite Z.eqb_refl.
  - intros k' Hk'. rewrite Hls, first_with_key_app. cbn [first_with_key key].
    destruct (Z.eqb_spec k k'); [congruence|].
    rewrite <- first_with_key_app. by rewrite take_drop.
Qed.

(** Key 25 with handle 125 inserted into [small_leaf]. *)
Lemma insert_then_search_witness :
  quiescent small_leaf ∧
  linear_search_leaf (insert_key 4096 small_leaf 25 125 3 true true).1.1 25 = 125.
Proof.
  assert (Hq : quiescent small_leaf).
  { unfold quiescent. repeat split; try by vm_compute. vm_compute. lia. }
  split; [exact Hq|].
  apply (insert_then_search 4096 small_leaf 25 125 true).
  - exact Hq.
  - vm_compute. lia.
  - done.
  - by apply (bool_decide_unpack _); vm_compute.
  - by apply (bool_decide_unpack _); vm_compute.
  - reflexivity.
Defined.

(** X7. After [remove_key] of a key that occurs once in a quiescent leaf
    whose handles are pairwise distinct, [linear_search] on the leaf's new
    content finds nothing for that key and, for every other key, the handle
    of the last entry with that key (the counter is odd, the scan goes from
    right to left). *)
Theorem remove_then_search this p k :
  let es := valid_entries (records p) in
  let p1 := (remove_key this p k).1.1 in
  quiescent p →
  NoDup (ptr <$> es) →
  has_key k (remove_first k es) = false →
  linear_search_leaf p1 k = NULL ∧
  ∀ k', k' ≠ k →
    linear_search_leaf p1 k' = default NULL (last_with_key k' es).
Proof.
  intros es p1 Hq Hnd Hk.
  destruct (remove_key_removes_first_spec this p k Hq) as (_ & Hval & _ & Hq1 & _).
  fold es p1 in Hval, Hq1.
  assert (Hd1 : distinct_neighbours NULL (valid_entries (records p1)) = true).
  { apply leaf_distinct_neighbours; [apply valid_entries_nonnull|].
    rewrite Hval. eapply sublist_NoDup; [exact Hnd|].
    apply fmap_sublist, remove_first_sublist. }
  assert (Hbw : IS_FORWARD (switch_counter (hdr p1)) = false).
  { unfold p1. rewrite remove_key_hdr_counter.
    apply remove_key_counter_spec. }
  assert (Hls : ∀ k', linear_search_leaf p1 k'
                = default NULL (last_with_key k' (remove_first k es))).
  { intros k'. rewrite (linear_search_leaf_spec p1 k' Hq1 Hd1), Hbw.
    by rewrite Hval. }
  split.
  - rewrite Hls. apply last_with_key_None in Hk. by rewrite Hk.
  - intros k' Hk'. by rewrite Hls, last_with_key_remove_first.
Qed.

(** Key 20 removed from [small_leaf]. *)
Lemma remove_then_search_witness :
  quiescent small_leaf ∧
  linear_search_leaf (remove_key 4096 small_leaf 20).1.1 20 = NULL ∧
  linear_search_leaf (remove_key 4096 small_leaf 20).1.1 30 = 130.
Proof.
  assert (Hq : quiescent small_leaf).
  { unfold quiescent. repeat split; try by vm_compute. vm_compute. lia. }
  split; [exact Hq|].
  destruct (remove_then_search 4096 small_leaf 20) as [H1 H2].
  - exact Hq.
  - by apply (bool_decide_unpack _); vm_compute.
  - reflexivity.
  - split; [exact H1|]. apply (H2 30). lia.
Defined.

(** ** [linear_search] on an internal node *)

Lemma child_for_nonnull k cur es :
  cur ≠ NULL → Forall (λ e, ptr e ≠ NULL) es → child_for k cur es ≠ NULL.
Proof.
  revert cur. induction es as [|e es IH]; intros cur Hc Hnn; [done|].
  apply Forall_cons in Hnn as [He Hnn]. simpl.
  destruct (k <? key e); [done|]. by apply IH.
Qed.

Lemma child_for_snoc_gt k cur es e :
  k < key e → child_for k cur (es ++ [e]) = child_for k cur es.
Proof.
  intros Hk. revert cur. induction es as [|a es IH]; intros cur; simpl.
  - by destruct (Z.ltb_spec k (key e)); [|lia].
  - destruct (k <? key a); [done|]. apply IH.
Qed.

Lemma child_for_all_le k cur es e :
  Forall (λ a, key a ≤ k) es → key e ≤ k → child_for k cur (es ++ [e]) = ptr e.
Proof.
  intros Hall He. revert cur. induction Hall as [|a es Ha Hall IH]; intros cur; simpl.
  - by destruct (Z.ltb_spec k (key e)); [lia|].
  - destruct (Z.ltb_spec k (key a)); [lia|]. apply IH.
Qed.

Section InternalScan.
Variable k : Z.

Lemma internal_scan_forward_spec suf : ∀ pre a t tl fuel,
  Forall (λ e, ptr e ≠ NULL) suf → ptr a ≠ NULL → ptr t = NULL →
  distinct_neighbours (ptr a) suf = true →
  (length suf < fuel)%nat →
  let rs := pre ++ a :: suf ++ t :: tl in
  let r := internal_scan_forward fuel rs k (S (length pre)) in
  (if r.1 =? NULL then ptr (rec_at rs (r.2 - 1)) else r.1)
  = child_for k (ptr a) suf.
Proof.
  induction suf as [|e suf IH]; intros pre a t tl fuel Hnn Ha Ht Hd Hfuel;
    (destruct fuel as [|fuel]; [simpl in Hfuel; lia|]);
    cbn zeta; cbn [internal_scan_forward].
  - assert (H1 : rec_at (pre ++ a :: [] ++ t :: tl) (S (length pre)) = t).
    { replace (S (length pre)) with (length pre + 1)%nat by lia.
      by rewrite rec_at_app_r. }
    rewrite H1, Ht. cbn.
    replace (length pre - 0)%nat with (length pre) by lia.
    by rewrite rec_at_middle.
  - apply Forall_cons in Hnn as [He Hnn].
    simpl in Hd. apply andb_true_iff in Hd as [Hae Hd].
    assert (H0 : rec_at (pre ++ a :: (e :: suf) ++ t :: tl)
                   (S (length pre) - 1) = a).
    { replace (S (length pre) - 1)%nat with (length pre) by lia.
      apply rec_at_middle. }
    assert (H1 : rec_at (pre ++ a :: (e :: suf) ++ t :: tl)
                   (S (length pre)) = e).
    { replace (S (length pre)) with (length pre + 1)%nat by lia.
      by rewrite rec_at_app_r. }
    rewrite H0, H1.
    destruct (Z.eqb_spec (ptr e) NULL); [done|].
    rewrite Hae. cbn [child_for].
    destruct (k <? key e); cbn [andb fst snd].
    + by destruct (Z.eqb_spec (ptr a) NULL).
    + replace (pre ++ a :: (e :: suf) ++ t :: tl)
        with ((pre ++ [a]) ++ e :: suf ++ t :: tl)
        by (by rewrite <- app_assoc).
      replace (S (S (length pre))) with (S (length (pre ++ [a])))
        by (rewrite length_app; simpl; lia).
      apply IH; try done. simpl in Hfuel. lia.
Qed.

Lemma internal_scan_backward_spec h es t tl i1 :
  Forall (λ e, ptr e ≠ NULL) es →
  distinct_neighbours (leftmost_ptr h) es = true →
  key_sorted es = true →
  (i1 ≤ length es)%nat →
  let r := internal_scan_backward h (es ++ t :: tl) k i1 in
  (if r =? NULL then leftmost_ptr h else r)
  = child_for k (leftmost_ptr h) (take i1 es).
Proof.
  intros Hnn Hd Hs. induction i1 as [|i IH]; intros Hi; cbn zeta.
  - by rewrite take_0.
  - cbn [internal_scan_backward].
    destruct (lookup_lt_is_Some_2 es i Hi) as [e He].
    rewrite (take_S_r _ _ _ He).
    assert (Hri : rec_at (es ++ t :: tl) i = e).
    { rewrite rec_at_app_l by lia. by apply rec_at_lookup. }
    assert (Hpe : ptr e ≠ NULL).
    { rewrite Forall_forall in Hnn. apply Hnn.
      by eapply list_elem_of_lookup_2. }
    rewrite Hri.
    destruct (Z.leb_spec (key e) k) as [Hle|Hgt].
    + assert (Hres : child_for k (leftmost_ptr h) (take i es ++ [e]) = ptr e).
      { apply child_for_all_le; [|done].
        apply Forall_forall. intros a [j Ha]%list_elem_of_lookup_1.
        apply lookup_take_Some in Ha as [Ha Hj].
        pose proof (key_sorted_lookup _ _ _ _ _ Hs Hj Ha He). lia. }
      rewrite Hres. destruct i as [|j].
      * assert (H0 : rec_at (es ++ t :: tl) 0 = e) by done.
        rewrite H0. destruct es as [|e0 es']; [done|].
        injection He as ->. simpl in Hd.
        apply andb_true_iff in Hd as [Hd _]. rewrite Hd.
        by destruct (Z.eqb_spec (ptr e) NULL).
      * destruct (lookup_lt_is_Some_2 es j ltac:(lia)) as [a Ha].
        assert (Hrj : rec_at (es ++ t :: tl) j = a).
        { rewrite rec_at_app_l by lia. by apply rec_at_lookup. }
        rewrite Hrj.
        pose proof (distinct_neighbours_lookup _ _ _ _ _ Hd Ha He).
        destruct (Z.eqb_spec (ptr a) (ptr e)); [done|]. cbn [negb].
        by destruct (Z.eqb_spec (ptr e) NULL).
    + rewrite child_for_snoc_gt by lia.
      apply IH. lia.
Qed.
End InternalScan.

(** The next theorem, in the form that the later proofs use. *)
Lemma linear_search_internal_child_spec hp p k :
  let es := valid_entries (records p) in
  leftmost_ptr (hdr p) ≠ NULL →
  quiescent p →
  distinct_neighbours (leftmost_ptr (hdr p)) es = true →
  (IS_FORWARD (switch_counter (hdr p)) = false → key_sorted es = true) →
  linear_search hp p k
  = (if sibling_ptr (hdr p) =? NULL
     then Some (child_for k (leftmost_ptr (hdr p)) es)
     else sp ← hp !! sibling_ptr (hdr p);
          Some (if highest (hdr sp) <=? k then sibling_ptr (hdr p)
                else child_for k (leftmost_ptr (hdr p)) es)) ∧
  child_for k (leftmost_ptr (hdr p)) es ≠ NULL.
Proof.
  intros es Hlm Hq Hd Hsorted.
  pose proof (quiescent_count p Hq) as Hcount.
  destruct Hq as (Hlen & Hroom & Hli & H1). fold es in Hroom, Hli, H1, Hcount.
  destruct (valid_entries_split (records p)) as (t & tl & Heq & Ht); [done|].
  fold es in Heq.
  pose proof (valid_entries_nonnull (records p)) as Hnn. fold es in Hnn.
  pose proof (child_for_nonnull k _ _ Hlm Hnn) as Hc.
  split; [|done].
  assert (Hret : (if linear_search_internal p k =? NULL
                  then leftmost_ptr (hdr p) else linear_search_internal p k)
                 = child_for k (leftmost_ptr (hdr p)) es).
  { unfold linear_search_internal. rewrite Hcount.
    destruct (IS_FORWARD (switch_counter (hdr p))).
    - destruct es as [|e0 es'] eqn:Ees.
      + specialize (H1 eq_refl). cbn [app] in Heq. rewrite Heq in H1 |- *.
        change (rec_at (t :: tl) 0) with t. rewrite Ht.
        cbn [child_for length internal_scan_forward]. rewrite H1.
        cbn. change (rec_at (t :: tl) 0) with t. rewrite Ht.
        destruct (k <? key t); cbn [andb]; [|done].
        destruct (Z.eqb_spec (leftmost_ptr (hdr p)) NULL); cbn [negb]; [done|].
        by destruct (Z.eqb_spec (leftmost_ptr (hdr p)) NULL).
      + rewrite Heq. change (rec_at ((e0 :: es') ++ t :: tl) 0) with e0.
        simpl in Hd. apply andb_true_iff in Hd as [H0 Hd].
        apply Forall_cons in Hnn as [Hn0 Hnn].
        rewrite H0. cbn [child_for].
        destruct (k <? key e0); cbn [andb].
        * by destruct (Z.eqb_spec (leftmost_ptr (hdr p)) NULL).
        * pose proof (internal_scan_forward_spec k es' [] e0 t tl
                        (length ((e0 :: es') ++ t :: tl)) Hnn Hn0 Ht Hd) as Hsc.
          cbn zeta in Hsc. cbn [app length] in Hsc |- *.
          assert (Hfuel : (length es' < S (length (es' ++ t :: tl)))%nat)
            by (rewrite length_app; cbn [length]; lia).
          specialize (Hsc Hfuel).
          pose proof (child_for_nonnull k _ _ Hn0 Hnn) as Hc'.
          destruct (internal_scan_forward _ _ _ _) as [ret i].
          cbn [fst snd] in Hsc. rewrite Hsc.
          by destruct (Z.eqb_spec (child_for k (ptr e0) es') NULL).
    - pose proof (internal_scan_backward_spec k (hdr p) es t tl (length es)
                    Hnn Hd (Hsorted eq_refl) ltac:(lia)) as Hsc.
      cbn zeta in Hsc. rewrite take_ge in Hsc by lia. by rewrite Heq. }
  unfold linear_search.
  destruct (Z.eqb_spec (leftmost_ptr (hdr p)) NULL) as [|_]; [done|].
  cbn zeta.
  assert (Hfin : (if negb (linear_search_internal p k =? NULL)
                  then Some (linear_search_internal p k)
                  else Some (leftmost_ptr (hdr p)))
                 = Some (child_for k (leftmost_ptr (hdr p)) es)).
  { rewrite <- Hret. by destruct (_ =? NULL). }
  destruct (sibling_ptr (hdr p) =? NULL); cbn.
  - exact Hfin.
  - destruct (hp !! sibling_ptr (hdr p)) as [sp|]; cbn; [|done].
    destruct (highest (hdr sp) <=? k); [done|exact Hfin].
Qed.

(** X8. [page::linear_search] on a quiescent internal node whose header has
    no sibling above the key returns the child that covers the key: the
    leftmost child when the key is below every separator, otherwise the child
    to the right of the last separator not above the key.  The right-to-left
    scan gives this child when the separators are in ascending order; when a
    sibling's [highest] is not above the key the sibling is returned. *)
Theorem linear_search_internal_child hp p k :
  let es := valid_entries (records p) in
  leftmost_ptr (hdr p) ≠ NULL →
  quiescent p →
  distinct_neighbours (leftmost_ptr (hdr p)) es = true →
  (IS_FORWARD (switch_counter (hdr p)) = false → key_sorted es = true) →
  linear_search hp p k
  = (if sibling_ptr (hdr p) =? NULL
     then Some (child_for k (leftmost_ptr (hdr p)) es)
     else sp ← hp !! sibling_ptr (hdr p);
          Some (if highest (hdr sp) <=? k then sibling_ptr (hdr p)
                else child_for k (leftmost_ptr (hdr p)) es)) ∧
  child_for k (leftmost_ptr (hdr p)) es ≠ NULL.
Proof. exact (linear_search_internal_child_spec hp p k). Qed.

(** The root that a split of the first leaf creates, with separator 15. *)
Lemma linear_search_internal_child_witness :
  quiescent (page_ctor_root 0 4096 15 4608 1) ∧
  linear_search ∅ (page_ctor_root 0 4096 15 4608 1) 3 = Some 4096 ∧
  linear_search ∅ (page_ctor_root 0 4096 15 4608 1) 20 = Some 4608.
Proof.
  assert (Hq : quiescent (page_ctor_root 0 4096 15 4608 1)).
  { unfold quiescent. repeat split; try by vm_compute. vm_compute. lia. }
  split; [exact Hq|].
  assert (Hl : leftmost_ptr (hdr (page_ctor_root 0 4096 15 4608 1)) ≠ NULL)
    by (by vm_compute).
  assert (Hs : IS_FORWARD (switch_counter (hdr (page_ctor_root 0 4096 15 4608 1)))
               = false →
               key_sorted (valid_entries (records (page_ctor_root 0 4096 15 4608 1)))
               = true) by reflexivity.
  destruct (linear_search_internal_child ∅ _ 3 Hl Hq eq_refl Hs) as [H1 _].
  destruct (linear_search_internal_child ∅ _ 20 Hl Hq eq_refl Hs) as [H2 _].
  split; [exact H1|exact H2].
Defined.

(** ** [linear_search_range] on one page, left to right *)

Lemma in_range_cons min max e es :
  in_range min max (e :: es)
  = if (min <? key e) && (key e <? max) then ptr e :: in_range min max es
    else in_range min max es.
Proof.
  unfold in_range. rewrite filter_cons.
  destruct (decide (min < key e < max)) as [H|H];
    destruct (Z.ltb_spec min (key e)), (Z.ltb_spec (key e) max); simpl;
    try done; lia.
Qed.

Lemma in_range_nil_ge min max es :
  Forall (λ e, max ≤ key e) es → in_range min max es = [].
Proof.
  induction 1 as [|e es He _ IH]; [done|].
  rewrite in_range_cons, IH.
  by destruct (Z.ltb_spec (key e) max); [lia|rewrite andb_false_r].
Qed.

(** Storing [x] at [off] and a run [hs] after it is storing [x :: hs] at
    [off]. *)
Lemma buffer_write_cons (buf : list Z) off x hs :
  (off + S (length hs) ≤ length buf)%nat →
  take (S off) (<[off := x]> buf) ++ hs
    ++ drop (S off + length hs) (<[off := x]> buf)
  = take off buf ++ (x :: hs) ++ drop (off + S (length hs)) buf.
Proof.
  intros Hlen.
  rewrite insert_take_drop by lia.
  rewrite take_app_ge, drop_app_ge by (rewrite length_take; lia).
  rewrite !length_take.
  replace (S off - off `min` length buf)%nat with 1%nat by lia.
  replace (S off + length hs - off `min` length buf)%nat
    with (S (length hs)) by lia.
  cbn [take drop]. rewrite take_0, drop_drop, <- app_assoc. cbn [app].
  by replace (S off + length hs)%nat with (off + S (length hs))%nat by lia.
Qed.

Section RangeForward.
Variables min max : Z.

Local Abbreviation beyond :=
  (existsb (λ e, (min <? key e) && (max <=? key e))).

Lemma range_forward_spec suf : ∀ pre a t tl fuel buf off,
  Forall (λ e, ptr e ≠ NULL) suf → ptr t = NULL →
  distinct_neighbours (ptr a) suf = true →
  key_sorted suf = true →
  (length suf < fuel)%nat →
  (off + length (in_range min max suf) ≤ length buf)%nat →
  range_forward fuel min max (pre ++ a :: suf ++ t :: tl) (S (length pre))
                buf off
  = (take off buf ++ in_range min max suf
       ++ drop (off + length (in_range min max suf)) buf,
     (off + length (in_range min max suf))%nat,
     beyond suf).
Proof.
  induction suf as [|e suf IH];
    intros pre a t tl fuel buf off Hnn Ht Hd Hs Hfuel Hbuf;
    (destruct fuel as [|fuel]; [simpl in Hfuel; lia|]);
    cbn [range_forward].
  - assert (H1 : rec_at (pre ++ a :: [] ++ t :: tl) (S (length pre)) = t).
    { replace (S (length pre)) with (length pre + 1)%nat by lia.
      by rewrite rec_at_app_r. }
    rewrite H1, Ht. cbn.
    by rewrite Nat.add_0_r, take_drop.
  - apply Forall_cons in Hnn as [He Hnn].
    simpl in Hd. apply andb_true_iff in Hd as [Hae Hd].
    apply key_sorted_cons in Hs as [Hall Hs].
    assert (H0 : rec_at (pre ++ a :: (e :: suf) ++ t :: tl)
                   (S (length pre) - 1) = a).
    { replace (S (length pre) - 1)%nat with (length pre) by lia.
      apply rec_at_middle. }
    assert (H1 : rec_at (pre ++ a :: (e :: suf) ++ t :: tl)
                   (S (length pre)) = e).
    { replace (S (length pre)) with (length pre + 1)%nat by lia.
      by rewrite rec_at_app_r. }
    rewrite H0, H1.
    destruct (Z.eqb_spec (ptr e) NULL) as [|_]; [done|].
    assert (Hrs : pre ++ a :: (e :: suf) ++ t :: tl
                  = (pre ++ [a]) ++ e :: suf ++ t :: tl)
      by (by rewrite <- app_assoc).
    assert (Hi : S (S (length pre)) = S (length (pre ++ [a])))
      by (rewrite length_app; simpl; lia).
    simpl in Hfuel.
    rewrite in_range_cons in Hbuf |- *. unfold range_visit.
    cbn [existsb]. revert Hbuf.
    destruct (Z.ltb_spec min (key e)) as [Hmin|Hmin]; cbn [andb orb].
    + destruct (Z.ltb_spec (key e) max) as [Hmax|Hmax]; intros Hbuf.
      * assert (Hne : (ptr e =? ptr a) = false).
        { destruct (Z.eqb_spec (ptr a) (ptr e)); [done|].
          apply Z.eqb_neq. congruence. }
        assert (Hnz : (ptr e =? NULL) = false) by (by apply Z.eqb_neq).
        rewrite Hne, Hnz. cbn [negb andb].
        destruct (Z.leb_spec max (key e)); [lia|]. cbn [orb].
        cbn [length] in Hbuf.
        rewrite Hrs, Hi, IH; try done; try lia.
        2:{ rewrite length_insert. lia. }
        rewrite buffer_write_cons by lia.
        cbn [length].
        by replace (S off + length (in_range min max suf))%nat
          with (off + S (length (in_range min max suf)))%nat by lia.
      * destruct (Z.leb_spec max (key e)); [|lia]. cbn [orb].
        rewrite in_range_nil_ge.
        2:{ eapply Forall_impl; [exact Hall|]. simpl. intros. lia. }
        cbn. by rewrite Nat.add_0_r, take_drop.
    + intros Hbuf. rewrite Hrs, Hi. apply IH; try done; lia.
Qed.
End RangeForward.

(** The next theorem, in the form that the later proofs use. *)
Lemma range_page_forward_spec min max n current buf off :
  let es := valid_entries (records current) in
  let hs := in_range min max es in
  quiescent current →
  IS_FORWARD (switch_counter (hdr current)) = true →
  key_sorted es = true →
  distinct_neighbours NULL es = true →
  (off + length hs ≤ length buf)%nat →
  range_page min max n current buf off
  = (take off buf ++ hs ++ drop (off + length hs) buf,
     (off + length hs)%nat,
     existsb (λ e, (min <? key e) && (max <=? key e))
             (rec_at (records current) 0 :: drop 1 es)).
Proof.
  intros es hs Hq Hfw Hs Hd Hbuf.
  destruct Hq as (Hlen & Hroom & Hli & H1). fold es in Hroom, Hli, H1.
  destruct (valid_entries_split (records current)) as (t & tl & Heq & Ht);
    [done|].
  fold es in Heq.
  pose proof (valid_entries_nonnull (records current)) as Hnn. fold es in Hnn.
  unfold range_page. rewrite Hfw. subst hs.
  destruct es as [|e es'] eqn:Ees.
  - specialize (H1 eq_refl). cbn [app] in Heq. rewrite Heq in H1 |- *.
    change (rec_at (t :: tl) 0) with t.
    unfold range_visit. rewrite Ht, Z.eqb_refl. cbn [negb andb].
    assert (Hend : range_forward (length (t :: tl)) min max (t :: tl) 1 buf off
                   = (buf, off, false)).
    { cbn [length range_forward]. by rewrite H1. }
    unfold in_range. cbn.
    rewrite Nat.add_0_r, take_drop, orb_false_r.
    destruct (min <? key t); [|done].
    destruct (Z.ltb_spec (key t) max), (Z.leb_spec max (key t));
      try done; lia.
  - rewrite Heq. change (rec_at ((e :: es') ++ t :: tl) 0) with e.
    change (drop 1 (e :: es')) with es'.
    apply Forall_cons in Hnn as [He Hnn].
    simpl in Hd. apply andb_true_iff in Hd as [_ Hd].
    apply key_sorted_cons in Hs as [Hall Hs].
    rewrite in_range_cons in Hbuf |- *. unfold range_visit. cbn [existsb].
    revert Hbuf.
    assert (Hnz : (ptr e =? NULL) = false) by (by apply Z.eqb_neq).
    assert (Hfuel : (length es' < length ((e :: es') ++ t :: tl))%nat)
      by (rewrite length_app; cbn [length]; lia).
    pose proof (range_forward_spec min max es' [] e t tl) as Hrf.
    cbn [app length] in Hrf, Hfuel |- *.
    destruct (Z.ltb_spec min (key e)) as [Hmin|Hmin]; cbn [andb orb].
    + destruct (Z.ltb_spec (key e) max) as [Hmax|Hmax]; intros Hbuf.
      * rewrite Hnz. cbn [negb andb].
        destruct (Z.leb_spec max (key e)); [lia|]. cbn [orb].
        cbn [length] in Hbuf.
        rewrite Hrf; try done; try lia.
        2:{ rewrite length_insert. lia. }
        rewrite buffer_write_cons by lia.
        cbn [length].
        by replace (S off + length (in_range min max es'))%nat
          with (off + S (length (in_range min max es')))%nat by lia.
      * destruct (Z.leb_spec max (key e)); [|lia]. cbn [orb].
        rewrite in_range_nil_ge.
        2:{ eapply Forall_impl; [exact Hall|]. simpl. intros. lia. }
        cbn. by rewrite Nat.add_0_r, take_drop.
    + intros Hbuf. by apply Hrf.
Qed.

(** X9. One page of [linear_search_range], scanned left to right: on a
    quiescent page with an even switch counter, ascending keys and different
    handles in neighbouring valid entries (no valid entry has the handle of
    the entry before it), and with a buffer that has room for the hits from
    [off] on, the handles of exactly the entries with [min < key < max] are
    stored into the buffer from [off] on, in ascending key order, [off]
    advances by their number and the rest of the buffer is unchanged.  The
    scan returns without moving to the sibling exactly when a visited slot
    holds a key above [min] and not below [max]; slot 0 is visited even when
    the page is empty. *)
Theorem range_page_forward min max n current buf off :
  let es := valid_entries (records current) in
  let hs := in_range min max es in
  quiescent current →
  IS_FORWARD (switch_counter (hdr current)) = true →
  key_sorted es = true →
  distinct_neighbours NULL es = true →
  (off + length hs ≤ length buf)%nat →
  range_page min max n current buf off
  = (take off buf ++ hs ++ drop (off + length hs) buf,
     (off + length hs)%nat,
     existsb (λ e, (min <? key e) && (max <=? key e))
             (rec_at (records current) 0 :: drop 1 es)).
Proof. exact (range_page_forward_spec min max n current buf off). Qed.

(** The keys 10, 20, 30 of [small_leaf] against the range (15, 30). *)
Lemma range_page_forward_witness :
  quiescent small_leaf ∧
  range_page 15 30 3 small_leaf [0; 0; 0; 0] 1 = ([0; 120; 0; 0], 2%nat, true).
Proof.
  assert (Hq : quiescent small_leaf).
  { unfold quiescent. repeat split; try by vm_compute. vm_compute. lia. }
  split; [exact Hq|].
  apply (range_page_forward 15 30 3 small_leaf [0; 0; 0; 0] 1 Hq);
    try reflexivity.
  vm_compute. lia.
Defined.

(** ** The index operations on a tree of one leaf *)

Lemma loop_fuel_S s : loop_fuel s = S (size (heap s)).
Proof. done. Qed.

Lemma size_pos (hp : gmap Z page) a p : hp !! a = Some p → ∃ n, size hp = S n.
Proof.
  intros Hp. destruct (size hp) as [|n] eqn:E; [|by exists n].
  apply map_size_empty_iff in E. subst. by rewrite lookup_empty in Hp.
Qed.

Lemma btree_insert_S f k v s :
  btree_insert (S f) k v s
  = (p ← descend_to_leaf (loop_fuel s) (heap s) (root s) k;
     '(s1, r) ← store f s p k v true NULL;
     if r =? NULL then btree_insert f k v s1 else Some s1).
Proof. done. Qed.

Lemma btree_delete_S f k s :
  btree_delete (S f) k s
  = (p ← descend_to_leaf (loop_fuel s) (heap s) (root s) k;
     '(p, _) ← follow_siblings (loop_fuel s) (heap s) p k;
     if p =? NULL then Some s
     else '(s1, ret) ← remove p k s;
          if ret : bool then Some s1 else btree_delete f k s1).
Proof. done. Qed.

Section SingleLeaf.
Variables (s : state) (p : page).
Hypothesis Hsl : single_leaf s p.

Local Abbreviation es := (valid_entries (records p)).

Lemma single_leaf_descend k :
  descend_to_leaf (loop_fuel s) (heap s) (root s) k = Some (root s).
Proof.
  destruct Hsl as (_ & Hp & Hleaf & _).
  rewrite loop_fuel_S. cbn [descend_to_leaf]. rewrite Hp.
  cbn [mbind option_bind]. by rewrite Hleaf.
Qed.

Lemma single_leaf_overshoot k inv :
  sibling_overshoot (heap s) p k inv = Some false.
Proof.
  destruct Hsl as (_ & _ & _ & Hsib & _).
  unfold sibling_overshoot. by rewrite Hsib.
Qed.

(** The search in the leaf and along its (absent) siblings. *)
Lemma single_leaf_follow k :
  distinct_neighbours NULL es = true →
  follow_siblings (loop_fuel s) (heap s) (root s) k
  = Some (match (if IS_FORWARD (switch_counter (hdr p))
                 then first_with_key k es else last_with_key k es) with
          | Some v => (root s, v)
          | None => (NULL, NULL)
          end).
Proof.
  intros Hd. destruct Hsl as (_ & Hp & Hleaf & Hsib & _ & Hq).
  rewrite loop_fuel_S. cbn [follow_siblings]. rewrite Hp.
  cbn [mbind option_bind].
  destruct (linear_search_leaf_lookup_spec (heap s) p k Hleaf Hq Hd)
    as (-> & _ & Hsome).
  rewrite Hsib.
  destruct (if IS_FORWARD _ then _ else _) as [v|].
  - cbn [mbind option_bind]. destruct (Hsome v eq_refl) as [Hv _].
    by destruct (Z.eqb_spec v NULL).
  - done.
Qed.
End SingleLeaf.

(** The next theorem, in the form that the later proofs use. *)
Lemma btree_insert_single_leaf_spec fuel k v s p :
  let es := valid_entries (records p) in
  let r := insert_key (root s) p k v (length es) true true in
  let s' := add_log r.2 (write_page (root s) r.1.1 s) in
  single_leaf s p →
  (S (length es) < length (records p))%nat →
  v ≠ NULL →
  btree_insert (S (S fuel)) k v s = Some s' ∧
  root s' = root s ∧ height s' = height s ∧ brk s' = brk s ∧
  (∀ a, a ≠ root s → heap s' !! a = heap s !! a) ∧
  single_leaf s' r.1.1 ∧
  valid_entries (records r.1.1) ≡ₚ mkEntry k v :: es.
Proof.
  intros es r s' Hsl Hroom Hv.
  pose proof Hsl as (Hroot & Hp & Hleaf & Hsib & Hdel & Hq).
  pose proof (quiescent_count p Hq) as Hcount. fold es in Hcount.
  destruct (insert_key_adds_entry_spec (root s) p k v true Hq Hroom Hv)
    as (Hperm & _ & _ & Hq1 & _).
  fold es r in Hperm, Hq1.
  pose proof (insert_key_hdr (root s) p k v (length es) true true) as Hh.
  fold r in Hh.
  assert (Hhdr : leftmost_ptr (hdr r.1.1) = leftmost_ptr (hdr p) ∧
                 sibling_ptr (hdr r.1.1) = sibling_ptr (hdr p) ∧
                 is_deleted (hdr r.1.1) = is_deleted (hdr p)).
  { rewrite Hh. cbn. unfold insert_key_counter. by destruct (negb _). }
  destruct Hhdr as (Hh1 & Hh2 & Hh3).
  split; [|split; [done|split; [done|split; [done|split; [|split; [|done]]]]]].
  - rewrite btree_insert_S, (single_leaf_descend s p Hsl).
    cbn [mbind option_bind].
    rewrite (store_fast fuel s (root s) p k v true NULL Hp Hdel
               (single_leaf_overshoot s p Hsl k NULL)).
    2:{ rewrite Hcount. destruct Hq as (Hlen & _). rewrite Hlen in Hroom.
        change (Z.to_nat cardinality) with 29%nat in Hroom.
        change cardinality with 29. lia. }
    rewrite Hcount. fold r. destruct r as [[p1 n1] evs]. cbn [fst snd].
    cbn [mbind option_bind]. by destruct (Z.eqb_spec (root s) NULL).
  - intros a Ha. unfold s'. cbn. by rewrite lookup_insert_ne.
  - split; [done|]. split; [unfold s'; cbn; by rewrite lookup_insert_eq|].
    split; [congruence|]. split; [congruence|]. split; [congruence|done].
Qed.

(** X10. [btree_insert] of a key with a non-null value handle into a tree
    of one leaf (a quiescent root leaf without sibling, not marked deleted)
    that has room for one more entry and the terminator runs the FAST
    insertion on the root and returns: root, height and allocator are
    unchanged, no other page changes, the leaf holds the former entries and
    the new one, and the tree is again a single quiescent leaf. *)
Theorem btree_insert_single_leaf fuel k v s p :
  let es := valid_entries (records p) in
  let r := insert_key (root s) p k v (length es) true true in
  let s' := add_log r.2 (write_page (root s) r.1.1 s) in
  single_leaf s p →
  (S (length es) < length (records p))%nat →
  v ≠ NULL →
  btree_insert (S (S fuel)) k v s = Some s' ∧
  root s' = root s ∧ height s' = height s ∧ brk s' = brk s ∧
  (∀ a, a ≠ root s → heap s' !! a = heap s !! a) ∧
  single_leaf s' r.1.1 ∧
  valid_entries (records r.1.1) ≡ₚ mkEntry k v :: es.
Proof. exact (btree_insert_single_leaf_spec fuel k v s p). Qed.

(** Key 25 inserted into [small_tree]. *)
Lemma btree_insert_single_leaf_witness :
  single_leaf small_tree small_leaf ∧
  ∃ s', btree_insert 2 25 25 small_tree = Some s' ∧ root s' = 4096.
Proof.
  assert (Hsl : single_leaf small_tree small_leaf).
  { unfold single_leaf, quiescent. repeat split; try by vm_compute.
    vm_compute. lia. }
  split; [exact Hsl|].
  destruct (btree_insert_single_leaf 0 25 25 small_tree small_leaf Hsl)
    as (H1 & H2 & _).
  - vm_compute. lia.
  - done.
  - eexists. split; [exact H1|exact H2].
Defined.

(** The next theorem, in the form that the later proofs use. *)
Lemma btree_search_single_leaf_spec k s p :
  let es := valid_entries (records p) in
  let found := if IS_FORWARD (switch_counter (hdr p))
               then first_with_key k es else last_with_key k es in
  single_leaf s p →
  distinct_neighbours NULL es = true →
  btree_search k s
  = Some (match found with
          | Some v => if v =? k then k else NULL
          | None => NULL
          end).
Proof.
  intros es found Hsl Hd. unfold btree_search.
  rewrite (single_leaf_descend s p Hsl). cbn [mbind option_bind].
  rewrite (single_leaf_follow s p Hsl k Hd). fold es found.
  cbn [mbind option_bind].
  destruct found as [v|]; [|done].
  destruct (Z.eqb_spec v k) as [->|]; cbn [negb orb].
  - destruct (k =? NULL) eqn:E; [|done]. apply Z.eqb_eq in E. by rewrite E.
  - by rewrite orb_true_r.
Qed.

(** X11. [btree_search] on a tree of one leaf in which neighbouring valid
    entries have different handles (no valid entry has the handle of the
    entry before it): the handle found in the leaf (the first entry with the
    key when the switch counter is even, the last when it is odd) is
    returned when it equals the key, and null otherwise or when no entry has
    the key. *)
Theorem btree_search_single_leaf k s p :
  let es := valid_entries (records p) in
  let found := if IS_FORWARD (switch_counter (hdr p))
               then first_with_key k es else last_with_key k es in
  single_leaf s p →
  distinct_neighbours NULL es = true →
  btree_search k s
  = Some (match found with
          | Some v => if v =? k then k else NULL
          | None => NULL
          end).
Proof. exact (btree_search_single_leaf_spec k s p). Qed.

(** A search in [small_tree], whose handles differ from the keys. *)
Lemma btree_search_single_leaf_witness :
  single_leaf small_tree small_leaf ∧
  btree_search 20 small_tree = Some NULL.
Proof.
  assert (Hsl : single_leaf small_tree small_leaf).
  { unfold single_leaf, quiescent. repeat split; try by vm_compute.
    vm_compute. lia. }
  split; [exact Hsl|].
  exact (btree_search_single_leaf 20 small_tree small_leaf Hsl eq_refl).
Defined.

(** X12. [btree_insert(k, k)] into a tree of one leaf that has room for one
    more entry and the terminator, where [k] is not null, no valid entry of
    the leaf has the key [k], no valid entry of the leaf has the handle [k],
    and the handles of the leaf's valid entries are pairwise distinct,
    followed by [btree_search(k)]: the search returns [k]. *)
Theorem btree_insert_then_search fuel k s p :
  let es := valid_entries (records p) in
  single_leaf s p →
  (S (length es) < length (records p))%nat →
  k ≠ NULL → k ∉ (ptr <$> es) → NoDup (ptr <$> es) →
  has_key k es = false →
  (s' ← btree_insert (S (S fuel)) k k s; btree_search k s') = Some k.
Proof.
  intros es Hsl Hroom Hk Hfresh Hnd Hnew. subst es.
  pose proof Hsl as (_ & _ & _ & _ & _ & Hq).
  destruct (btree_insert_single_leaf_spec fuel k k s p Hsl Hroom Hk)
    as (-> & _ & _ & _ & _ & Hsl1 & Hperm).
  cbn [mbind option_bind].
  set (es := valid_entries (records p)) in *.
  set (p1 := (insert_key (root s) p k k (length es) true true).1.1) in *.
  assert (Hval : valid_entries (records p1)
                 = take (ins_pos k es (length es)) es
                     ++ mkEntry k k :: drop (ins_pos k es (length es)) es)
    by (by apply insert_key_valid).
  assert (Hd1 : distinct_neighbours NULL (valid_entries (records p1)) = true).
  { apply leaf_distinct_neighbours; [apply valid_entries_nonnull|].
    rewrite Hperm. simpl. by apply NoDup_cons. }
  assert (Hfw : IS_FORWARD (switch_counter (hdr p1)) = true).
  { unfold p1. rewrite insert_key_hdr_counter. apply insert_key_counter_spec. }
  rewrite (btree_search_single_leaf_spec k _ p1 Hsl1 Hd1), Hfw, Hval.
  rewrite first_with_key_app.
  assert (Hn : first_with_key k (take (ins_pos k es (length es)) es) = None)
    by (by apply first_with_key_None, has_key_take).
  rewrite Hn. cbn. by rewrite !Z.eqb_refl.
Qed.

(** Key 25 inserted into [small_tree] and looked up. *)
Lemma btree_insert_then_search_witness :
  single_leaf small_tree small_leaf ∧
  (s' ← btree_insert 2 25 25 small_tree; btree_search 25 s') = Some 25.
Proof.
  assert (Hsl : single_leaf small_tree small_leaf).
  { unfold single_leaf, quiescent. repeat split; try by vm_compute.
    vm_compute. lia. }
  split; [exact Hsl|].
  apply (btree_insert_then_search 0 25 small_tree small_leaf Hsl).
  - vm_compute. lia.
  - done.
  - by apply (bool_decide_unpack _); vm_compute.
  - by apply (bool_decide_unpack _); vm_compute.
  - reflexivity.
Defined.

(** X13. [btree_delete] on a tree of one leaf in which neighbouring valid
    entries have different handles (no valid entry has the handle of the
    entry before it) returns after one pass: for a key that no entry has the
    tree is unchanged, otherwise [remove_key] has taken out the first entry
    with the key; the tree is again a single quiescent leaf. *)
Theorem btree_delete_single_leaf fuel k s p :
  let es := valid_entries (records p) in
  let r := remove_key (root s) p k in
  let s' := if has_key k es then add_log r.1.2 (write_page (root s) r.1.1 s)
            else s in
  let p' := if has_key k es then r.1.1 else p in
  single_leaf s p →
  distinct_neighbours NULL es = true →
  btree_delete (S fuel) k s = Some s' ∧
  single_leaf s' p' ∧
  valid_entries (records p') = remove_first k es.
Proof.
  intros es r s' p' Hsl Hd.
  pose proof Hsl as (Hroot & Hp & Hleaf & Hsib & Hdel & Hq).
  destruct (remove_key_removes_first_spec (root s) p k Hq)
    as (Hret & Hval & Hsame & Hq1 & _).
  fold es r in Hret, Hval, Hsame, Hq1.
  assert (Hfound : (if IS_FORWARD (switch_counter (hdr p))
                    then first_with_key k es else last_with_key k es) = None
                   ↔ has_key k es = false).
  { destruct (IS_FORWARD _);
      [apply first_with_key_None|apply last_with_key_None]. }
  rewrite btree_delete_S, (single_leaf_descend s p Hsl).
  cbn [mbind option_bind].
  rewrite (single_leaf_follow s p Hsl k Hd).
  cbn [mbind option_bind]. subst s' p'.
  destruct (if IS_FORWARD _ then _ else _) as [v|] eqn:Ef.
  - assert (Hk : has_key k es = true).
    { destruct (has_key k es); [done|].
      destruct Hfound as [_ H]. by specialize (H eq_refl). }
    rewrite Hk in *.
    destruct (Z.eqb_spec (root s) NULL) as [|_]; [done|].
    unfold remove. rewrite Hp. cbn [mbind option_bind]. fold r.
    destruct r as [[p1 evs] ret] eqn:Er. cbn [fst snd] in *. subst ret.
    split; [done|]. split; [|done].
    assert (Hh : leftmost_ptr (hdr p1) = leftmost_ptr (hdr p) ∧
                 sibling_ptr (hdr p1) = sibling_ptr (hdr p) ∧
                 is_deleted (hdr p1) = is_deleted (hdr p)).
    { replace p1 with (remove_key (root s) p k).1.1
        by (fold r; by rewrite Er).
      unfold remove_key.
      destruct (remove_loop _ _ _ _ _ _ _ _) as [[rs evs'] sh].
      unfold remove_key_counter.
      by destruct sh, (IS_FORWARD _). }
    destruct Hh as (Hh1 & Hh2 & Hh3).
    split; [done|]. split; [cbn; by rewrite lookup_insert_eq|].
    split; [congruence|]. split; [congruence|]. split; [congruence|done].
  - assert (Hk : has_key k es = false) by (by apply Hfound).
    rewrite Hk. cbn [Z.eqb NULL]. split; [done|]. split; [done|].
    by rewrite remove_first_no_key.
Qed.

(** [btree_delete(20)] and [btree_delete(25)] on [small_tree]. *)
Lemma btree_delete_single_leaf_witness :
  single_leaf small_tree small_leaf ∧
  btree_delete 1 25 small_tree = Some small_tree ∧
  ∃ s', btree_delete 1 20 small_tree = Some s' ∧
        (p' ← heap s' !! 4096; Some (valid_entries (records p')))
        = Some [mkEntry 10 110; mkEntry 30 130].
Proof.
  assert (Hsl : single_leaf small_tree small_leaf).
  { unfold single_leaf, quiescent. repeat split; try by vm_compute.
    vm_compute. lia. }
  split; [exact Hsl|].
  destruct (btree_delete_single_leaf 0 25 small_tree small_leaf Hsl eq_refl)
    as (H1 & _).
  destruct (btree_delete_single_leaf 0 20 small_tree small_leaf Hsl eq_refl)
    as (H2 & _).
  split; [exact H1|]. eexists. split; [exact H2|]. by vm_compute.
Defined.

(** X14. [btree_search_range] on a tree of one leaf with an even switch
    counter, ascending keys and different handles in neighbouring valid
    entries (no valid entry has the handle of the entry before it), called
    with a buffer at least as long as the number of entries with
    [min < key < max], returns, and the buffer then starts with the handles
    of those entries in ascending key order; the rest of the buffer is
    unchanged. *)
Theorem btree_search_range_single_leaf min max buf s p :
  let es := valid_entries (records p) in
  let hs := in_range min max es in
  single_leaf s p →
  IS_FORWARD (switch_counter (hdr p)) = true →
  key_sorted es = true →
  distinct_neighbours NULL es = true →
  (length hs ≤ length buf)%nat →
  btree_search_range min max buf s = Some (hs ++ drop (length hs) buf).
Proof.
  intros es hs Hsl Hfw Hs Hd Hbuf.
  destruct Hsl as (Hroot & Hp & Hleaf & Hsib & _ & Hq).
  unfold btree_search_range. rewrite loop_fuel_S. cbn [search_range_from].
  destruct (Z.eqb_spec (root s) NULL) as [|_]; [done|].
  rewrite Hp. cbn [mbind option_bind]. rewrite Hleaf. cbn [Z.eqb NULL negb].
  unfold linear_search_range. rewrite Hp. cbn [mbind option_bind].
  cbn [range_chain].
  destruct (Z.eqb_spec (root s) NULL) as [|_]; [done|].
  rewrite Hp. cbn [mbind option_bind].
  rewrite (range_page_forward_spec min max (count p) p buf 0 Hq Hfw Hs Hd)
    by (by fold es hs).
  fold es hs. rewrite take_0. cbn [app Nat.add].
  destruct (existsb _ _); [done|].
  rewrite Hsib. destruct (size_pos _ _ _ Hp) as [n ->].
  done.
Qed.

(** The range (15, 40) on [small_tree]. *)
Lemma btree_search_range_single_leaf_witness :
  single_leaf small_tree small_leaf ∧
  btree_search_range 15 40 [0; 0; 0] small_tree = Some [120; 130; 0].
Proof.
  assert (Hsl : single_leaf small_tree small_leaf).
  { unfold single_leaf, quiescent. repeat split; try by vm_compute.
    vm_compute. lia. }
  split; [exact Hsl|].
  apply (btree_search_range_single_leaf 15 40 [0; 0; 0] small_tree small_leaf Hsl);
    try reflexivity.
  vm_compute. lia.
Defined.

(** ** The two halves of a split *)

Lemma page_ctor_quiescent stale lvl : quiescent (page_ctor stale lvl).
Proof. unfold quiescent. repeat split; try done. vm_compute. lia. Qed.

(** The sibling as [fair_sibling] leaves it is quiescent. *)
Lemma fair_sibling_quiescent stale sa p :
  let es := valid_entries (records p) in
  let n := length es in
  key_sorted es = true →
  (0 < n)%nat → Z.of_nat n < cardinality →
  quiescent (fair_sibling stale sa p n).1.
Proof.
  intros es n Hs Hn Hcard.
  destruct (fair_sibling_spec stale sa p Hs Hn Hcard)
    as (_ & _ & _ & _ & Hval & Hlen & _).
  fold es n in Hval, Hlen.
  set (m := Z.to_nat (split_point (Z.of_nat n))) in *.
  assert (Hm : (m < n)%nat) by by apply split_point_lt.
  assert (Hn29 : (n < 29)%nat).
  { change cardinality with 29 in Hcard. lia. }
  assert (Hli : last_index (hdr (fair_sibling stale sa p n).1) + 1
                = Z.of_nat (length (valid_entries
                                      (records (fair_sibling stale sa p n).1)))).
  { rewrite Hval. unfold fair_sibling. fold m.
    destruct (leftmost_ptr (hdr p) =? NULL) eqn:Hleaf.
    - pose proof (migrate_valid sa (records p) Hs (n - m) m m
                    (page_ctor stale (level (hdr p)))) as Hmig.
      cbn zeta in Hmig. rewrite Nat.sub_diag in Hmig.
      destruct Hmig as (_ & _ & _ & H4).
      { done. }
      { fold es n. lia. }
      { rewrite page_ctor_valid, drop_ge; [done|]. rewrite length_take. lia. }
      { rewrite page_ctor_length. change (Z.to_nat cardinality) with 29%nat. lia. }
      destruct (migrate _ _ _ _ _ _) as [sb' cnt']. cbn [fst snd] in *.
      cbn [hdr last_index set_sibling_ptr set_highest]. rewrite H4.
      rewrite length_drop. fold n.
      destruct (n - m)%nat as [|d] eqn:Ed; [lia|].
      cbn [last_index set_last_index]. rewrite to_int16_small; lia.
    - pose proof (migrate_valid sa (records p) Hs (n - (m + 1)) (m + 1) (m + 1)
                    (page_ctor stale (level (hdr p)))) as Hmig.
      cbn zeta in Hmig. rewrite Nat.sub_diag in Hmig.
      destruct Hmig as (_ & _ & _ & H4).
      { done. }
      { fold es n. lia. }
      { rewrite page_ctor_valid, drop_ge; [done|]. rewrite length_take. lia. }
      { rewrite page_ctor_length. change (Z.to_nat cardinality) with 29%nat. lia. }
      destruct (migrate _ _ _ _ _ _) as [sb' cnt']. cbn [fst snd] in *.
      cbn [hdr last_index set_sibling_ptr set_highest set_leftmost_ptr].
      rewrite H4. rewrite length_drop. fold n.
      destruct (n - (m + 1))%nat as [|d] eqn:Ed.
      + replace (n - S m)%nat with 0%nat by lia. done.
      + cbn [last_index set_last_index]. rewrite to_int16_small; lia. }
  split; [done|]. split; [|split; [done|]].
  - rewrite Hlen, Hval. change (Z.to_nat cardinality) with 29%nat.
    destruct (_ =? NULL); rewrite length_drop; fold n; lia.
  - intros Hnil. rewrite Hval in Hnil.
    apply (f_equal length) in Hnil. cbn [length] in Hnil.
    destruct (leftmost_ptr (hdr p) =? NULL) eqn:Hleaf;
      rewrite length_drop in Hnil; fold n in Hnil; [lia|].
    unfold fair_sibling. fold m. rewrite Hleaf.
    replace (n - (m + 1))%nat with 0%nat by lia. done.
Qed.

(** The node that a split leaves behind, before the new key goes in: the
    entries from the split point on are cut off. *)
Lemma split_lower_half p sa :
  let es := valid_entries (records p) in
  let n := length es in
  let m := Z.to_nat (split_point (Z.of_nat n)) in
  let p3 := mkPage (set_last_index (to_int16 (Z.of_nat m - 1))
                      (fair_counter (set_sibling_ptr sa (hdr p))))
                   (set_ptr m NULL (records p)) in
  quiescent p → (0 < n)%nat →
  valid_entries (records p3) = take m es ∧
  quiescent p3 ∧
  Z.to_nat (last_index (hdr p3) + 1) = m ∧
  leftmost_ptr (hdr p3) = leftmost_ptr (hdr p) ∧
  sibling_ptr (hdr p3) = sa ∧
  is_deleted (hdr p3) = is_deleted (hdr p).
Proof.
  intros es n m p3 Hq Hn.
  destruct Hq as (Hlen & Hroom & Hli & _). fold es n in Hroom, Hli.
  destruct (valid_entries_split (records p)) as (t & tl & Heq & Ht); [done|].
  fold es in Heq.
  pose proof (valid_entries_nonnull (records p)) as Hnn. fold es in Hnn.
  assert (Hm : (m < n)%nat) by by apply split_point_lt.
  assert (Hm2 : m = (n / 2)%nat) by apply split_point_nat.
  assert (Hn29 : (n < 29)%nat).
  { rewrite Hlen in Hroom. change (Z.to_nat cardinality) with 29%nat in Hroom.
    done. }
  assert (Hrs : records p3
                = take m es ++ mkEntry (key (rec_at (records p) m)) NULL
                    :: drop (S m) es ++ t :: tl).
  { unfold p3. cbn [records]. unfold set_ptr.
    set (x := mkEntry (key (rec_at (records p) m)) NULL).
    rewrite Heq.
    rewrite insert_take_drop by (rewrite length_app; fold n; lia).
    rewrite take_app_le, drop_app_le by (fold n; lia). done. }
  assert (Hval : valid_entries (records p3) = take m es).
  { rewrite Hrs. apply valid_entries_app; [|done].
    rewrite <- (take_drop m es) in Hnn. by apply Forall_app in Hnn as [? _]. }
  assert (Hli3 : last_index (hdr p3) = Z.of_nat m - 1).
  { unfold p3. cbn [hdr]. unfold fair_counter.
    destruct (IS_FORWARD (switch_counter (set_sibling_ptr sa (hdr p))));
      cbn [last_index set_last_index]; rewrite to_int16_small; lia. }
  split; [done|]. split; [|split; [rewrite Hli3; lia|]].
  - split; [|split; [|split]].
    + unfold p3. cbn [records]. by rewrite length_set_ptr.
    + rewrite Hval, length_take. unfold p3. cbn [records].
      rewrite length_set_ptr, Hlen. change (Z.to_nat cardinality) with 29%nat.
      fold n. lia.
    + rewrite Hval, length_take, Hli3. fold n. lia.
    + intros Hnil. rewrite Hval in Hnil.
      apply (f_equal length) in Hnil. rewrite length_take in Hnil.
      cbn [length] in Hnil. fold n in Hnil.
      assert (m = 0%nat) by lia.
      assert (n = 1%nat).
      { destruct n as [|[|n']]; [lia|done|].
        rewrite Hm2 in H. change (S (S n')) with (2 + n')%nat in H.
        replace (2 + n')%nat with (n' + 1 * 2)%nat in H by lia.
        rewrite Nat.div_add in H by lia. lia. }
      unfold p3. cbn [records]. rewrite H, rec_at_set_ptr_ne by lia.
      rewrite Heq. destruct es as [|e [|e' es']]; try done.
  - unfold p3. cbn. unfold fair_counter. by destruct (IS_FORWARD _).
Qed.

Lemma ins_perm k v (l : list entry) j :
  take j l ++ mkEntry k v :: drop j l ≡ₚ mkEntry k v :: l.
Proof. by rewrite <- Permutation_middle, take_drop. Qed.

(** The next theorem, in the form that the later proofs use. *)
Lemma fair_split_contents_spec s this p k right :
  let es := valid_entries (records p) in
  let n := length es in
  let m := Z.to_nat (split_point (Z.of_nat n)) in
  let split_key := key (rec_at (records p) m) in
  let leaf := leftmost_ptr (hdr p) =? NULL in
  let upper := if leaf then drop m es else drop (S m) es in
  let ins (l : list entry) :=
    take (ins_pos k l (length l)) l
      ++ mkEntry k right :: drop (ins_pos k l (length l)) l in
  let r := fair_split s this p n k right in
  quiescent p → key_sorted es = true → (0 < n)%nat →
  right ≠ NULL → this ≠ brk s →
  r.1.1.2 = brk s ∧ r.1.2 = split_key ∧
  r.2 = (if k <? split_key then this else brk s) ∧
  ∃ p' sb',
    heap r.1.1.1 !! this = Some p' ∧
    heap r.1.1.1 !! brk s = Some sb' ∧
    valid_entries (records p')
    = (if k <? split_key then ins (take m es) else take m es) ∧
    valid_entries (records sb')
    = (if k <? split_key then upper else ins upper) ∧
    leftmost_ptr (hdr p') = leftmost_ptr (hdr p) ∧
    leftmost_ptr (hdr sb')
    = (if leaf then NULL else ptr (rec_at (records p) m)) ∧
    sibling_ptr (hdr p') = brk s ∧
    sibling_ptr (hdr sb') = sibling_ptr (hdr p) ∧
    highest (hdr sb') = split_key ∧
    quiescent p' ∧ quiescent sb' ∧
    valid_entries (records p')
      ++ (if leaf then [] else [mkEntry split_key (leftmost_ptr (hdr sb'))])
      ++ valid_entries (records sb')
    ≡ₚ mkEntry k right :: es.
Proof.
  intros es n m split_key leaf upper ins r Hq Hs Hn Hright Hne.
  pose proof Hq as (Hlen & Hroom & Hli & _). fold es n in Hroom, Hli.
  assert (Hm : (m < n)%nat) by by apply split_point_lt.
  assert (Hn29 : (n < 29)%nat).
  { rewrite Hlen in Hroom. change (Z.to_nat cardinality) with 29%nat in Hroom.
    done. }
  assert (Hcard : Z.of_nat n < cardinality) by (change cardinality with 29; lia).
  assert (Hhalf : (n - m < 28)%nat).
  { pose proof (split_point_nat n) as Hm2. fold m in Hm2.
    pose proof (Nat.div_mod_eq n 2). pose proof (Nat.mod_upper_bound n 2).
    lia. }
  destruct (fair_sibling_spec (stale s) (brk s) p Hs Hn Hcard)
    as (Hsb1 & Hsb2 & _ & Hsb4 & Hsb5 & Hsb6 & Hsb7).
  pose proof (fair_sibling_quiescent (stale s) (brk s) p Hs Hn Hcard) as Hqsb.
  destruct (split_lower_half p (brk s) Hq Hn)
    as (Hval3 & Hq3 & Hnum & Hl3 & Hs3 & _).
  fold es n m split_key leaf upper in Hsb1, Hsb2, Hsb4, Hsb5, Hsb6, Hsb7, Hqsb,
    Hval3, Hq3, Hnum, Hl3, Hs3.
  assert (Hem : es !! m = Some (rec_at (records p) m)).
  { destruct (lookup_lt_is_Some_2 es m Hm) as [e He].
    destruct (valid_entries_prefix (records p)) as [tl Htl]. fold es in Htl.
    rewrite Htl, rec_at_app_l by done. by rewrite (rec_at_lookup _ _ _ He). }
  assert (Hpart : take m es
                    ++ (if leaf then []
                        else [mkEntry split_key
                                (if leaf then NULL
                                 else ptr (rec_at (records p) m))])
                    ++ upper = es).
  { unfold upper. destruct leaf; cbn [app]; [apply take_drop|].
    rewrite <- (take_drop m es) at 3. f_equal.
    rewrite (drop_S _ _ _ Hem). f_equal. unfold split_key.
    by destruct (rec_at (records p) m). }
  subst r. unfold fair_split. fold n m split_key.
  destruct (fair_sibling (stale s) (brk s) p n) as [sb cnt]. cbn [fst snd] in *.
  cbn [operator_new add_log write_page set_heap heap brk stale root height log].
  cbn [hdr records].
  set (p3 := mkPage (set_last_index _ _) (set_ptr m NULL (records p))) in *.
  assert (Hnum' := Hnum). unfold p3 in Hnum'. cbn [hdr] in Hnum'.
  rewrite Hnum'. clear Hnum'.
  destruct (k <? split_key) eqn:Ek.
  - destruct (insert_key_adds_entry_spec this p3 k right true Hq3)
      as (_ & _ & _ & Hq4 & _); [|done|].
    { rewrite Hval3, length_take. destruct Hq3 as (Hlen3 & _).
      rewrite Hlen3. change (Z.to_nat cardinality) with 29%nat. fold n. lia. }
    pose proof (insert_key_valid this p3 k right true true) as Hval4.
    pose proof (insert_key_hdr this p3 k right m true true) as Hh4.
    cbn zeta in Hval4. rewrite Hval3, length_take in Hq4, Hval4.
    fold n in Hq4, Hval4.
    replace (m `min` n)%nat with m in Hq4, Hval4 by lia.
    specialize (Hval4 ltac:(destruct Hq3 as (Hlen3 & _); rewrite Hlen3;
                            change (Z.to_nat cardinality) with 29%nat; lia)
                      Hright).
    destruct (insert_key this p3 k right m true true) as [[p4 n4] evs].
    cbn [fst snd] in *.
    cbn [operator_new add_log write_page set_heap heap brk stale root height log].
    split; [done|]. split; [done|]. split; [done|].
    exists p4, sb.
    split; [by rewrite lookup_insert_eq|].
    split; [by rewrite !lookup_insert_ne, lookup_insert_eq by done|].
    assert (Hins : ins (take m es)
                   = take (ins_pos k (take m es) m) (take m es)
                       ++ mkEntry k right
                       :: drop (ins_pos k (take m es) m) (take m es)).
    { unfold ins. rewrite length_take. fold n.
      by replace (m `min` n)%nat with m by lia. }
    rewrite Hins.
    split; [done|]. split; [done|].
    split; [rewrite Hh4; cbn; unfold insert_key_counter;
            by destruct (negb _)|].
    split; [done|].
    split; [rewrite Hh4; cbn; unfold insert_key_counter;
            by destruct (negb _)|].
    split; [done|]. split; [done|]. split; [done|]. split; [done|].
    rewrite Hval4, Hsb4, Hsb5, <- app_assoc. cbn [app].
    rewrite <- Permutation_middle. apply Permutation_skip.
    rewrite app_assoc, take_drop. by rewrite Hpart.
  - assert (Hqsb' := Hqsb).
    destruct (insert_key_adds_entry_spec (brk s) sb k right true Hqsb)
      as (_ & _ & _ & Hq4 & _); [|done|].
    { rewrite Hsb5, Hsb6. change (Z.to_nat cardinality) with 29%nat.
      unfold upper. destruct leaf; rewrite length_drop; fold n; lia. }
    pose proof (insert_key_valid (brk s) sb k right true true) as Hval4.
    pose proof (insert_key_hdr (brk s) sb k right cnt true true) as Hh4.
    cbn zeta in Hval4. rewrite <- Hsb7 in Hq4, Hval4.
    specialize (Hval4 ltac:(rewrite Hsb7, Hsb5, Hsb6;
                            change (Z.to_nat cardinality) with 29%nat;
                            unfold upper; destruct leaf; rewrite length_drop;
                            fold n; lia)
                      Hright).
    destruct (insert_key (brk s) sb k right cnt true true) as [[sb4 n4] evs].
    cbn [fst snd] in *.
    cbn [operator_new add_log write_page set_heap heap brk stale root height log].
    split; [done|]. split; [done|]. split; [done|].
    exists p3, sb4.
    split; [by rewrite lookup_insert_ne, lookup_insert_eq by done|].
    split; [by rewrite lookup_insert_eq|].
    assert (Hins : ins upper
                   = take (ins_pos k upper cnt) upper
                       ++ mkEntry k right :: drop (ins_pos k upper cnt) upper).
    { unfold ins. by rewrite Hsb7, Hsb5. }
    rewrite Hins. rewrite Hsb5 in Hval4.
    split; [done|]. split; [by rewrite Hval4, Hsb7, Hsb5|].
    split; [done|].
    split; [rewrite Hh4; cbn; unfold insert_key_counter;
            by destruct (negb _)|].
    split; [done|].
    split; [rewrite Hh4; cbn; unfold insert_key_counter;
            by destruct (negb _)|].
    split; [rewrite Hh4; cbn; unfold insert_key_counter;
            by destruct (negb _)|].
    split; [done|]. split; [done|].
    assert (Hlm : leftmost_ptr (hdr sb4) = leftmost_ptr (hdr sb)).
    { rewrite Hh4. cbn. unfold insert_key_counter. by destruct (negb _). }
    rewrite Hval4, Hsb7, Hsb5, Hval3, Hlm, Hsb4.
    rewrite !app_assoc, <- Permutation_middle. apply Permutation_skip.
    rewrite <- !app_assoc, take_drop. by rewrite Hpart.
Qed.

(** X15. The content of the two nodes after a FAIR split, called with the
    number of valid entries and a new entry whose handle [right] is not
    null, of a quiescent node with at least one valid entry and ascending
    keys that does not lie at the address the allocator hands out next: the
    node keeps the entries below the split point [m], the new sibling gets
    those from [m] on (a leaf) or after [m] (an internal node, whose entry
    [m] gives the sibling's leftmost child), the sibling's [highest] is the
    split key, the chain goes from the node to the sibling to the node's
    former sibling, and the new entry is inserted in key order into the half
    that the comparison with the split key selects.  Both nodes are
    quiescent, and no entry is lost. *)
Theorem fair_split_contents s this p k right :
  let es := valid_entries (records p) in
  let n := length es in
  let m := Z.to_nat (split_point (Z.of_nat n)) in
  let split_key := key (rec_at (records p) m) in
  let leaf := leftmost_ptr (hdr p) =? NULL in
  let upper := if leaf then drop m es else drop (S m) es in
  let ins (l : list entry) :=
    take (ins_pos k l (length l)) l
      ++ mkEntry k right :: drop (ins_pos k l (length l)) l in
  let r := fair_split s this p n k right in
  quiescent p → key_sorted es = true → (0 < n)%nat →
  right ≠ NULL → this ≠ brk s →
  r.1.1.2 = brk s ∧ r.1.2 = split_key ∧
  r.2 = (if k <? split_key then this else brk s) ∧
  ∃ p' sb',
    heap r.1.1.1 !! this = Some p' ∧
    heap r.1.1.1 !! brk s = Some sb' ∧
    valid_entries (records p')
    = (if k <? split_key then ins (take m es) else take m es) ∧
    valid_entries (records sb')
    = (if k <? split_key then upper else ins upper) ∧
    leftmost_ptr (hdr p') = leftmost_ptr (hdr p) ∧
    leftmost_ptr (hdr sb')
    = (if leaf then NULL else ptr (rec_at (records p) m)) ∧
    sibling_ptr (hdr p') = brk s ∧
    sibling_ptr (hdr sb') = sibling_ptr (hdr p) ∧
    highest (hdr sb') = split_key ∧
    quiescent p' ∧ quiescent sb' ∧
    valid_entries (records p')
      ++ (if leaf then [] else [mkEntry split_key (leftmost_ptr (hdr sb'))])
      ++ valid_entries (records sb')
    ≡ₚ mkEntry k right :: es.
Proof. exact (fair_split_contents_spec s this p k right). Qed.

(** The split of [full_leaf] (keys 10, 20, ..., 280) by the key 145. *)
Lemma fair_split_contents_witness :
  quiescent full_leaf ∧
  (fair_split full_tree 4096 full_leaf 28 145 145).1.2 = 150 ∧
  (fair_split full_tree 4096 full_leaf 28 145 145).2 = 4096.
Proof.
  assert (Hq : quiescent full_leaf).
  { unfold quiescent. repeat split; first [by vm_compute|vm_compute; lia]. }
  split; [exact Hq|].
  destruct (fair_split_contents full_tree 4096 full_leaf 145 145 Hq)
    as (_ & H2 & H3 & _).
  - by vm_compute.
  - vm_compute. lia.
  - done.
  - done.
  - split; [exact H2|exact H3].
Defined.

(** ** Cache-line flushes *)

Lemma fast_shift_no_flush this h k v i1 : ∀ rs evs,
  (fast_shift this h false k v i1 rs evs).1.2 = evs.
Proof.
  induction i1 as [|i IH]; intros rs evs; [done|].
  cbn [fast_shift]. destruct (k <? key (rec_at rs i)); [|done].
  cbn [andb]. apply IH.
Qed.

(** X16. With [flush = false] (the migration of a split) [insert_key] issues
    no [clflush]. *)
Theorem insert_key_no_flush this p k v n uli :
  (insert_key this p k v n false uli).2 = [].
Proof.
  unfold insert_key, insert_key_entries. destruct n as [|n']; [done|].
  cbn [andb].
  match goal with
  | |- context [fast_shift ?a ?b false ?d ?e ?f ?g ?ev] =>
      pose proof (fast_shift_no_flush a b d e f g ev) as Hfs;
        destruct (fast_shift a b false d e f g ev) as [[rs' evs'] ins]
  end.
  cbn [fst snd] in Hfs. subst evs'. by destruct ins.
Qed.

(** The shift loop ends with the flush of the slot it fills. *)
Lemma fast_shift_commit this h k v i1 : ∀ rs evs,
  (i1 < length rs)%nat →
  let r := fast_shift this h true k v i1 rs evs in
  r.2 = true →
  ∃ evs0 j,
    r.1.2 = evs0 ++ [EvClflush this (offset_of_record j) sizeof_entry
                       (mkPage h r.1.1)] ∧
    (j ≤ i1)%nat ∧ rec_at r.1.1 j = mkEntry k v.
Proof.
  induction i1 as [|i IH]; intros rs evs Hlen; cbn zeta; [done|].
  cbn [fast_shift]. destruct (k <? key (rec_at rs i)).
  - intros Hins.
    match goal with
    | |- context [fast_shift _ _ _ _ _ _ ?rs' ?evs'] =>
        destruct (IH rs' evs') as (evs0 & j & H1 & H2 & H3)
    end.
    + unfold set_key, set_ptr. rewrite !length_insert. lia.
    + exact Hins.
    + exists evs0, j. split; [exact H1|]. split; [lia|exact H3].
  - intros _. cbn [fst snd]. exists evs, (S i).
    split; [done|]. split; [done|].
    rewrite set_key_ptr, set_ptr_entry.
    apply rec_at_lookup. by rewrite list_lookup_insert_eq.
Qed.

(** X17. With [flush = true] the last [clflush] of [insert_key] covers the
    slot that holds the new entry, and the page it writes back has the final
    content of the array; [last_index] is assigned after it and is not
    flushed. *)
Theorem insert_key_commit_flush this p k v n uli :
  let r := insert_key this p k v n true uli in
  (S n < length (records p))%nat →
  ∃ evs0 off len j,
    r.2 = evs0 ++ [EvClflush this off len
                     (mkPage (insert_key_counter (hdr p)) (records r.1.1))] ∧
    (j ≤ n)%nat ∧
    rec_at (records r.1.1) j = mkEntry k v ∧
    off ≤ offset_of_record j ∧
    offset_of_record j + sizeof_entry ≤ off + len.
Proof.
  intros r Hlen. subst r. unfold insert_key, insert_key_entries.
  destruct n as [|n'].
  - cbn [fst snd records]. exists [], 0, CACHE_LINE_SIZE, 0%nat.
    split; [done|]. split; [done|]. split; [|by vm_compute].
    rewrite rec_at_set_ptr_ne by lia. rewrite set_ptr_key.
    apply rec_at_lookup. rewrite list_lookup_insert_eq; [done|lia].
  - match goal with
    | |- context [fast_shift ?a ?b true ?d ?e ?f ?g ?ev] =>
        pose proof (fast_shift_commit a b d e f g ev) as Hfs;
        pose proof (fast_shift_length a b true d e f g ev) as Hfl;
          destruct (fast_shift a b true d e f g ev) as [[rs' evs'] ins]
    end.
    cbn zeta in Hfs. cbn [fst snd] in Hfs, Hfl.
    rewrite length_set_ptr in Hfs, Hfl.
    destruct ins; cbn [fst snd records].
    + destruct (Hfs ltac:(lia) eq_refl) as (evs0 & j & H1 & H2 & H3).
      exists evs0, (offset_of_record j), sizeof_entry, j.
      split; [done|]. split; [lia|]. split; [done|]. lia.
    + exists evs', (offset_of_record 0), sizeof_entry, 0%nat.
      split; [done|]. split; [lia|]. split; [|lia].
      rewrite set_ptr_key.
      apply rec_at_lookup. rewrite list_lookup_insert_eq; [done|].
      rewrite length_set_ptr, Hfl. lia.
Qed.

(** An insertion into [small_leaf]. *)
Lemma insert_key_commit_flush_witness :
  ∃ evs0 off len j,
    (insert_key 4096 small_leaf 25 125 3 true true).2
    = evs0 ++ [EvClflush 4096 off len
                 (mkPage (insert_key_counter (hdr small_leaf))
                    (records (insert_key 4096 small_leaf 25 125 3 true true).1.1))] ∧
    (j ≤ 3)%nat ∧
    rec_at (records (insert_key 4096 small_leaf 25 125 3 true true).1.1) j
    = mkEntry 25 125 ∧
    off ≤ offset_of_record j ∧
    offset_of_record j + sizeof_entry ≤ off + len.
Proof.
  apply (insert_key_commit_flush 4096 small_leaf 25 125 3 true).
  vm_compute. lia.
Defined.

(** ** The flush schedule on an aligned page *)

(** X18. On a page aligned to the cache line the shift loops flush after
    writing slot [i] exactly when [i mod 4 = 1], that is when the slot starts
    a cache line (the header takes 48 bytes, an entry 16), and the flush that
    [insert_key] issues when the handle of slot [n + 1] starts a cache line
    never happens. *)
Theorem aligned_flush_schedule this i :
  this mod CACHE_LINE_SIZE = 0 →
  do_flush (addr_of_record this i) = (Z.of_nat i mod 4 =? 1) ∧
  ((addr_of_record this i + offsetof_ptr) mod CACHE_LINE_SIZE =? 0) = false.
Proof.
  intros Hal. unfold do_flush, addr_of_record, offset_of_record.
  change CACHE_LINE_SIZE with 64 in *. change sizeof_header with 48.
  change sizeof_entry with 16. change offsetof_ptr with 8.
  cbn zeta.
  assert (Hr : (this + (48 + 16 * Z.of_nat i)) mod 64
               = (48 + 16 * (Z.of_nat i mod 4)) mod 64).
  { pose proof (Z.div_mod (Z.of_nat i) 4 ltac:(lia)) as Hi.
    pose proof (Z.div_mod this 64 ltac:(lia)) as Ht.
    rewrite Hal in Ht.
    replace (this + (48 + 16 * Z.of_nat i))
      with (48 + 16 * (Z.of_nat i mod 4)
            + (this / 64 + Z.of_nat i / 4) * 64) by lia.
    by rewrite Z.mod_add. }
  assert (Hr8 : (this + (48 + 16 * Z.of_nat i) + 8) mod 64
                = (56 + 16 * (Z.of_nat i mod 4)) mod 64).
  { pose proof (Z.div_mod (Z.of_nat i) 4 ltac:(lia)) as Hi.
    pose proof (Z.div_mod this 64 ltac:(lia)) as Ht.
    rewrite Hal in Ht.
    replace (this + (48 + 16 * Z.of_nat i) + 8)
      with (56 + 16 * (Z.of_nat i mod 4)
            + (this / 64 + Z.of_nat i / 4) * 64) by lia.
    by rewrite Z.mod_add. }
  rewrite Hr, Hr8.
  pose proof (Z.mod_pos_bound (Z.of_nat i) 4 ltac:(lia)) as Hb.
  assert (Hc : Z.of_nat i mod 4 = 0 ∨ Z.of_nat i mod 4 = 1 ∨
               Z.of_nat i mod 4 = 2 ∨ Z.of_nat i mod 4 = 3) by lia.
  destruct Hc as [Hc|[Hc|[Hc|Hc]]]; rewrite Hc; by vm_compute.
Qed.

(** The page at address 4096, slot 5. *)
Lemma aligned_flush_schedule_witness :
  4096 mod CACHE_LINE_SIZE = 0 ∧ do_flush (addr_of_record 4096 5) = true.
Proof.
  split; [reflexivity|].
  destruct (aligned_flush_schedule 4096 5 eq_refl) as [H _]. exact H.
Defined.

(** ** [remove_key] of an absent key *)

Lemma remove_loop_absent this h k suf : ∀ pre t tl fuel evs,
  Forall (λ e, ptr e ≠ NULL) suf → ptr t = NULL →
  (length suf < fuel)%nat →
  has_key k suf = false →
  remove_loop fuel this h k (length pre) false (pre ++ suf ++ t :: tl) evs
  = (pre ++ suf ++ t :: tl, evs, false).
Proof.
  induction suf as [|x suf IH]; intros pre t tl fuel evs Hnn Ht Hfuel Hk;
    (destruct fuel as [|fuel]; [simpl in Hfuel; lia|]).
  - rewrite remove_loop_stop; [done|].
    replace (length pre) with (length pre + 0)%nat by lia.
    by rewrite rec_at_app_r.
  - apply Forall_cons in Hnn as [Hx Hnn].
    assert (Hrd : rec_at (pre ++ (x :: suf) ++ t :: tl) (length pre) = x).
    { replace (length pre) with (length pre + 0)%nat by lia.
      by rewrite rec_at_app_r. }
    cbn [has_key existsb] in Hk. apply orb_false_iff in Hk as [Hkx Hk].
    rewrite remove_loop_skip; [|by rewrite Hrd|rewrite Hrd; by apply Z.eqb_neq].
    replace ((x :: suf) ++ t :: tl) with ([x] ++ suf ++ t :: tl) by done.
    rewrite app_assoc.
    replace (S (length pre)) with (length (pre ++ [x]))
      by (rewrite length_app; simpl; lia).
    apply IH; try done. simpl in Hfuel. lia.
Qed.

(** X19. [remove_key] of a key that no valid entry has leaves the array and
    [last_index] as they are, issues no [clflush] and returns false; the
    switch counter is made odd all the same. *)
Theorem remove_key_absent this p k :
  let es := valid_entries (records p) in
  (length es < length (records p))%nat →
  has_key k es = false →
  remove_key this p k
  = (mkPage (remove_key_counter (hdr p)) (records p), [], false).
Proof.
  intros es Hroom Hk.
  destruct (valid_entries_split (records p)) as (t & tl & Heq & Ht); [done|].
  fold es in Heq.
  pose proof (valid_entries_nonnull (records p)) as Hnn. fold es in Hnn.
  unfold remove_key.
  pose proof (remove_loop_absent this (remove_key_counter (hdr p)) k es [] t tl
                (length (records p)) [] Hnn Ht Hroom Hk) as Hloop.
  cbn [app length] in Hloop. rewrite <- Heq in Hloop. by rewrite Hloop.
Qed.

(** Key 25 is not in [small_leaf]. *)
Lemma remove_key_absent_witness :
  remove_key 4096 small_leaf 25
  = (mkPage (remove_key_counter (hdr small_leaf)) (records small_leaf), [], false).
Proof.
  apply (remove_key_absent 4096 small_leaf 25); [vm_compute; lia|reflexivity].
Defined.

(** ** The split of the root *)

Lemma page_ctor_root_spec stale left k right lvl :
  right ≠ NULL →
  let r := page_ctor_root stale left k right lvl in
  valid_entries (records r) = [mkEntry k right] ∧
  quiescent r ∧
  leftmost_ptr (hdr r) = left ∧ sibling_ptr (hdr r) = NULL ∧
  level (hdr r) = lvl ∧ is_deleted (hdr r) = 0 ∧
  IS_FORWARD (switch_counter (hdr r)) = true.
Proof.
  intros Hr r.
  assert (Hv : valid_entries (records r) = [mkEntry k right]).
  { unfold r, page_ctor_root. cbn [records].
    change (Z.to_nat cardinality) with 29%nat. cbn [replicate].
    unfold set_ptr, set_key, rec_at. cbn.
    by destruct (Z.eqb_spec right NULL). }
  split; [done|]. split; [|done].
  split; [done|]. rewrite Hv. split; [vm_compute; lia|]. split; done.
Qed.

(** The next theorem, in the form that the later proofs use. *)
Lemma store_splits_root_spec f s this p k right flush inv :
  let es := valid_entries (records p) in
  let m := Z.to_nat (split_point (Z.of_nat (length es))) in
  let split_key := key (rec_at (records p) m) in
  let sa := brk s in
  let ra := brk s + PAGESIZE in
  heap s !! this = Some p →
  is_deleted (hdr p) = 0 →
  sibling_overshoot (heap s) p k inv = Some false →
  quiescent p →
  cardinality - 1 ≤ Z.of_nat (length es) →
  root s = this → this < brk s →
  ∃ s',
    store (S f) s this k right flush inv
    = Some (s', if k <? split_key then this else sa) ∧
    root s' = ra ∧
    height s' = height s + 1 ∧
    brk s' = brk s + 2 * PAGESIZE ∧
    heap s' !! ra
    = Some (page_ctor_root (stale s) this split_key sa
              (to_uint32 (level (hdr p) + 1))) ∧
    heap s' !! this = heap (fair_split s this p (length es) k right).1.1.1 !! this ∧
    heap s' !! sa = heap (fair_split s this p (length es) k right).1.1.1 !! sa ∧
    (∀ a, a ≠ this → a ≠ sa → a ≠ ra → heap s' !! a = heap s !! a).
Proof.
  intros es m split_key sa ra Hp Hdel Hover Hq Hfull Hroot Hlt.
  pose proof (quiescent_count p Hq) as Hcount. fold es in Hcount.
  rewrite (store_fair f s this p k right flush inv Hp Hdel Hover)
    by (by rewrite Hcount).
  rewrite Hcount.
  destruct (fair_split_spec s this p (length es) k right ltac:(lia))
    as (H1 & H2 & H3 & H4 & H5 & H6 & H7 & _).
  cbn zeta in *.
  assert (Hret : (fair_split s this p (length es) k right).2
                 = if k <? split_key then this else sa).
  { unfold fair_split.
    destruct (fair_sibling _ _ _ _) as [sb cnt].
    cbn [operator_new add_log write_page set_heap heap brk stale root height
         log hdr records].
    fold m split_key sa.
    destruct (k <? split_key).
    - by destruct (insert_key this _ k right _ true true) as [[? ?] ?].
    - by destruct (insert_key sa sb k right cnt true true) as [[? ?] ?]. }
  assert (Hh : height (fair_split s this p (length es) k right).1.1.1 = height s).
  { unfold fair_split.
    destruct (fair_sibling _ _ _ _) as [sb cnt].
    cbn [operator_new add_log write_page set_heap heap brk stale root height
         log hdr records].
    fold m split_key sa.
    destruct (k <? split_key).
    - by destruct (insert_key this _ k right _ true true) as [[? ?] ?].
    - by destruct (insert_key sa sb k right cnt true true) as [[? ?] ?]. }
  destruct (fair_split s this p (length es) k right) as [[[s1 sa'] sk] ret].
  cbn [fst snd] in *. subst sa' sk ret.
  rewrite H4, Hroot, Z.eqb_refl.
  unfold new_root, operator_new.
  cbn [add_log setNewRoot heap brk stale root height log].
  eexists. split; [reflexivity|].
  cbn [add_log setNewRoot heap brk stale root height log].
  rewrite H5, H6. fold sa ra split_key m.
  split; [done|]. split; [by rewrite Hh|]. split; [unfold ra, sa; lia|].
  split; [by rewrite lookup_insert_eq|].
  split; [rewrite lookup_insert_ne; [done|unfold ra, PAGESIZE; lia]|].
  split; [rewrite lookup_insert_ne; [done|unfold ra, sa, PAGESIZE; lia]|].
  intros a Ha1 Ha2 Ha3. rewrite lookup_insert_ne by done. by apply H7.
Qed.

(** X20. [store] on a full root: the node is split, a new root is allocated
    after the sibling, with the old root as leftmost child and the sibling
    as the child right of the split key, one level above; the tree's root
    pointer moves to it and the height grows by one.  The call returns for
    every positive fuel, with the node that received the key. *)
Theorem store_splits_root f s this p k right flush inv :
  let es := valid_entries (records p) in
  let m := Z.to_nat (split_point (Z.of_nat (length es))) in
  let split_key := key (rec_at (records p) m) in
  let sa := brk s in
  let ra := brk s + PAGESIZE in
  heap s !! this = Some p →
  is_deleted (hdr p) = 0 →
  sibling_overshoot (heap s) p k inv = Some false →
  quiescent p →
  cardinality - 1 ≤ Z.of_nat (length es) →
  root s = this → this < brk s →
  ∃ s',
    store (S f) s this k right flush inv
    = Some (s', if k <? split_key then this else sa) ∧
    root s' = ra ∧
    height s' = height s + 1 ∧
    brk s' = brk s + 2 * PAGESIZE ∧
    heap s' !! ra
    = Some (page_ctor_root (stale s) this split_key sa
              (to_uint32 (level (hdr p) + 1))) ∧
    heap s' !! this = heap (fair_split s this p (length es) k right).1.1.1 !! this ∧
    heap s' !! sa = heap (fair_split s this p (length es) k right).1.1.1 !! sa ∧
    (∀ a, a ≠ this → a ≠ sa → a ≠ ra → heap s' !! a = heap s !! a).
Proof. exact (store_splits_root_spec f s this p k right flush inv). Qed.

(** The key 145 stored into [full_tree]: the root moves to 5120. *)
Lemma store_splits_root_witness :
  quiescent full_leaf ∧
  ∃ s', store 1 full_tree 4096 145 145 true NULL = Some (s', 4096) ∧
        root s' = 5120 ∧ height s' = 2.
Proof.
  assert (Hq : quiescent full_leaf).
  { unfold quiescent. repeat split; first [by vm_compute|vm_compute; lia]. }
  split; [exact Hq|].
  destruct (store_splits_root 0 full_tree 4096 full_leaf 145 145 true NULL)
    as (s' & H1 & H2 & H3 & _).
  - reflexivity.
  - reflexivity.
  - reflexivity.
  - exact Hq.
  - by vm_compute.
  - reflexivity.
  - by vm_compute.
  - exists s'. split; [exact H1|]. split; [exact H2|exact H3].
Defined.

(** ** Search below a root with two leaves *)

Section TwoLeaves.
Variables (s : state) (rt pa pb : page).
Hypothesis Htl : two_leaves s rt pa pb.

Local Abbreviation a := (leftmost_ptr (hdr rt)).
Local Abbreviation b := (sibling_ptr (hdr pa)).
Local Abbreviation sk := (highest (hdr pb)).

Lemma two_leaves_descend k :
  descend_to_leaf (loop_fuel s) (heap s) (root s) k
  = Some (if k <? sk then a else b).
Proof.
  destruct Htl as (Hrt & Hpa & Hpb & Ha & Hb & Hab & Hsib & Hval & Hla & Hlb
                   & Hsb & Hqr & Hqa & Hqb).
  rewrite loop_fuel_S. destruct (size_pos _ _ _ Hrt) as [n ->].
  cbn [descend_to_leaf]. rewrite Hrt. cbn [mbind option_bind].
  destruct (Z.eqb_spec a NULL) as [|_]; [done|].
  destruct (linear_search_internal_child_spec (heap s) rt k Ha Hqr) as [Hls _].
  { rewrite Hval. cbn. destruct (Z.eqb_spec a b); done. }
  { intros _. by rewrite Hval. }
  rewrite Hls, Hsib, Hval. cbn [Z.eqb NULL mbind option_bind child_for key ptr].
  destruct (k <? sk).
  - destruct n; cbn [descend_to_leaf]; rewrite Hpa; cbn [mbind option_bind];
      by rewrite Hla.
  - destruct n; cbn [descend_to_leaf]; rewrite Hpb; cbn [mbind option_bind];
      by rewrite Hlb.
Qed.

Lemma two_leaves_follow k :
  distinct_neighbours NULL (valid_entries (records pa)) = true →
  distinct_neighbours NULL (valid_entries (records pb)) = true →
  Forall (λ e, ptr e ≠ b) (valid_entries (records pa)) →
  let leaf := if k <? sk then pa else pb in
  let found := if IS_FORWARD (switch_counter (hdr leaf))
               then first_with_key k (valid_entries (records leaf))
               else last_with_key k (valid_entries (records leaf)) in
  ∃ p', follow_siblings (loop_fuel s) (heap s) (if k <? sk then a else b) k
        = Some (p', default NULL found).
Proof.
  intros Hda Hdb Hnb leaf found.
  destruct Htl as (Hrt & Hpa & Hpb & Ha & Hb & Hab & Hsib & Hval & Hla & Hlb
                   & Hsb & Hqr & Hqa & Hqb).
  rewrite loop_fuel_S. cbn [follow_siblings]. subst leaf found.
  destruct (Z.ltb_spec k sk) as [Hk|Hk].
  - rewrite Hpa. cbn [mbind option_bind].
    destruct (linear_search_leaf_lookup_spec (heap s) pa k Hla Hqa Hda)
      as (-> & _ & Hsome).
    destruct (if IS_FORWARD _ then _ else _) as [v|].
    + cbn [mbind option_bind default].
      destruct (Hsome v eq_refl) as (Hv & e & He & _ & Hpe).
      rewrite Forall_forall in Hnb. specialize (Hnb e He).
      rewrite Hpe in Hnb.
      destruct (Z.eqb_spec v b); [done|]. by eexists.
    + destruct (Z.eqb_spec b NULL) as [|_]; [done|].
      rewrite Hpb. cbn [mbind option_bind default].
      destruct (Z.leb_spec sk k); [lia|].
      destruct (Z.eqb_spec NULL b) as [E|_]; [by rewrite <- E in Hb|].
      by eexists.
  - rewrite Hpb. cbn [mbind option_bind].
    destruct (linear_search_leaf_lookup_spec (heap s) pb k Hlb Hqb Hdb)
      as (-> & _ & Hsome).
    rewrite Hsb.
    destruct (if IS_FORWARD _ then _ else _) as [v|].
    + cbn [mbind option_bind default Z.eqb NULL].
      destruct (Hsome v eq_refl) as (Hv & _).
      destruct (Z.eqb_spec v NULL); [done|]. by eexists.
    + cbn. by eexists.
Qed.
End TwoLeaves.

(** The next theorem, in the form that the later proofs use. *)
Lemma btree_search_two_leaves_spec k s rt pa pb :
  let leaf := if k <? highest (hdr pb) then pa else pb in
  let found := if IS_FORWARD (switch_counter (hdr leaf))
               then first_with_key k (valid_entries (records leaf))
               else last_with_key k (valid_entries (records leaf)) in
  two_leaves s rt pa pb →
  distinct_neighbours NULL (valid_entries (records pa)) = true →
  distinct_neighbours NULL (valid_entries (records pb)) = true →
  Forall (λ e, ptr e ≠ sibling_ptr (hdr pa)) (valid_entries (records pa)) →
  btree_search k s
  = Some (match found with
          | Some v => if v =? k then k else NULL
          | None => NULL
          end).
Proof.
  intros leaf found Htl Hda Hdb Hnb. unfold btree_search.
  rewrite (two_leaves_descend s rt pa pb Htl). cbn [mbind option_bind].
  destruct (two_leaves_follow s rt pa pb Htl k Hda Hdb Hnb) as [p' ->].
  fold leaf found. cbn [mbind option_bind].
  destruct found as [v|]; [|done].
  change (default NULL (Some v)) with v.
  destruct (Z.eqb_spec v k) as [->|]; cbn [negb orb].
  - destruct (k =? NULL) eqn:E; [|done]. apply Z.eqb_eq in E. by rewrite E.
  - by rewrite orb_true_r.
Qed.

(** X21. [btree_search] on a root with two leaves (the root has the left
    leaf as leftmost child and one entry, whose key is the right leaf's
    [highest] and whose pointer is the right leaf, the sibling of the left
    leaf; the three nodes are quiescent), where in each leaf neighbouring
    valid entries have different handles (no valid entry has the handle of
    the entry before it) and no handle of the left leaf is the address of
    the right leaf: the root sends a key below the separator to the left
    leaf and any other key to the right leaf, and the handle found there
    (the first or the last entry with the key, by the parity of the leaf's
    switch counter) is returned when it equals the key; otherwise the search
    returns null. *)
Theorem btree_search_two_leaves k s rt pa pb :
  let leaf := if k <? highest (hdr pb) then pa else pb in
  let found := if IS_FORWARD (switch_counter (hdr leaf))
               then first_with_key k (valid_entries (records leaf))
               else last_with_key k (valid_entries (records leaf)) in
  two_leaves s rt pa pb →
  distinct_neighbours NULL (valid_entries (records pa)) = true →
  distinct_neighbours NULL (valid_entries (records pb)) = true →
  Forall (λ e, ptr e ≠ sibling_ptr (hdr pa)) (valid_entries (records pa)) →
  btree_search k s
  = Some (match found with
          | Some v => if v =? k then k else NULL
          | None => NULL
          end).
Proof. exact (btree_search_two_leaves_spec k s rt pa pb). Qed.

(** The tree of the keys 1..29: root at 5120, leaves at 4096 and 4608. *)
Lemma btree_search_two_leaves_witness :
  two_leaves tree_1_29 (page_of tree_1_29 5120) (page_of tree_1_29 4096)
    (page_of tree_1_29 4608) ∧
  btree_search 20 tree_1_29 = Some 20.
Proof.
  assert (Htl : two_leaves tree_1_29 (page_of tree_1_29 5120)
                  (page_of tree_1_29 4096) (page_of tree_1_29 4608)).
  { unfold two_leaves, quiescent. cbn zeta.
    vm_compute. repeat split; first [lia|by intros]. }
  split; [exact Htl|].
  pose proof (btree_search_two_leaves 20 tree_1_29 _ _ _ Htl) as H.
  cbn zeta in H.
  assert (H1 : distinct_neighbours NULL
                 (valid_entries (records (page_of tree_1_29 4096))) = true)
    by (vm_compute; reflexivity).
  assert (H2 : distinct_neighbours NULL
                 (valid_entries (records (page_of tree_1_29 4608))) = true)
    by (vm_compute; reflexivity).
  assert (H3 : Forall (λ e, ptr e ≠ sibling_ptr (hdr (page_of tree_1_29 4096)))
                 (valid_entries (records (page_of tree_1_29 4096))))
    by (apply (bool_decide_unpack _); vm_compute; exact I).
  specialize (H H1 H2 H3). vm_compute in H. vm_compute. exact H.
Defined.

(** ** The first split of a tree, end to end *)

Lemma has_key_true k es : has_key k es = true ↔ ∃ e, e ∈ es ∧ key e = k.
Proof.
  unfold has_key. rewrite existsb_exists. split.
  - intros (e & He & Hk). exists e. split; [by apply list_elem_of_In|].
    by apply Z.eqb_eq.
  - intros (e & He & Hk). exists e. split; [by apply list_elem_of_In|].
    by apply Z.eqb_eq.
Qed.

Lemma has_key_perm k l1 l2 : l1 ≡ₚ l2 → has_key k l1 = has_key k l2.
Proof.
  intros Hp. apply eq_true_iff_eq. rewrite !has_key_true.
  by setoid_rewrite Hp.
Qed.

Lemma has_key_none k es : Forall (λ e, key e ≠ k) es → has_key k es = false.
Proof.
  intros Hall. destruct (has_key k es) eqn:E; [|done].
  apply has_key_true in E as (e & He & Hk).
  rewrite Forall_forall in Hall. by destruct (Hall e He).
Qed.

(** In a node whose handles are the keys the scans return the key. *)
Lemma with_key_keys k es :
  Forall (λ e, ptr e = key e) es →
  first_with_key k es = (if has_key k es then Some k else None) ∧
  last_with_key k es = (if has_key k es then Some k else None).
Proof.
  induction 1 as [|e es He _ [IH1 IH2]]; [done|].
  cbn [first_with_key last_with_key has_key existsb].
  fold (has_key k es). rewrite IH1, IH2, He.
  destruct (Z.eqb_spec (key e) k) as [->|]; cbn [orb];
    by destruct (has_key k es).
Qed.

Lemma key_sorted_strict es i j x y :
  key_sorted es = true → NoDup (key <$> es) → (i < j)%nat →
  es !! i = Some x → es !! j = Some y → key x < key y.
Proof.
  intros Hs Hnd Hij Hx Hy.
  pose proof (key_sorted_lookup es i j x y Hs Hij Hx Hy) as Hle.
  assert (key x ≠ key y); [|lia].
  intros Heq.
  assert (i = j); [|lia].
  eapply NoDup_lookup; [exact Hnd| |].
  - by rewrite list_lookup_fmap, Hx.
  - by rewrite list_lookup_fmap, Hy, Heq.
Qed.

(** X22. [btree_insert(k, k)] into a tree that is one full leaf (28
    entries) with ascending, pairwise distinct keys whose handles are its
    keys, where [k] is not null and not a key of the leaf, the root's
    address is positive and below the address that the allocator hands out
    next, and neither [k] nor a key of the leaf equals that next address
    (the address of the new sibling): the call returns, the tree has grown
    by one level, and afterwards [btree_search] returns the key for the new
    key and for each key that the leaf held, and null for every other
    key. *)
Theorem first_split_keeps_keys f k s p :
  let es := valid_entries (records p) in
  single_leaf s p →
  cardinality - 1 ≤ Z.of_nat (length es) →
  key_sorted es = true →
  Forall (λ e, ptr e = key e) es →
  NoDup (key <$> es) →
  k ≠ NULL → has_key k es = false →
  0 < root s < brk s →
  brk s ∉ k :: (key <$> es) →
  ∃ s', btree_insert (S (S f)) k k s = Some s' ∧
        height s' = height s + 1 ∧
        ∀ k', btree_search k' s'
              = Some (if has_key k' (mkEntry k k :: es) then k' else NULL).
Proof.
  intros es Hsl Hfull Hs Hkeys Hnd Hk Hnew [Hpos Hlt] Hfresh.
  pose proof Hsl as (Hroot & Hp & Hleaf & Hsib & Hdel & Hq).
  assert (Hn : (0 < length es)%nat).
  { change cardinality with 29 in Hfull. lia. }
  set (m := Z.to_nat (split_point (Z.of_nat (length es)))).
  set (sk := key (rec_at (records p) m)).
  assert (Hm : (m < length es)%nat) by by apply split_point_lt.
  destruct (store_splits_root_spec f s (root s) p k k true NULL Hp Hdel
              (single_leaf_overshoot s p Hsl k NULL) Hq Hfull eq_refl Hlt)
    as (s' & Hstore & Hr' & Hh' & _ & HR & Hthis & Hsa' & _).
  destruct (fair_split_contents_spec s (root s) p k k Hq Hs Hn Hk ltac:(lia))
    as (_ & _ & _ & p' & sb' & Hp' & Hsb' & Hvp & Hvs & Hlp & Hls & Hsp & Hss
        & Hhs & Hqp & Hqs & Hperm).
  fold es m sk in Hstore, HR, Hthis, Hsa', Hp', Hsb', Hvp, Hvs, Hls, Hhs, Hperm.
  rewrite Hp' in Hthis. rewrite Hsb' in Hsa'.
  rewrite Hleaf in Hvs, Hls, Hperm. cbn [Z.eqb NULL app] in Hvs, Hls, Hperm.
  set (R := page_ctor_root (stale s) (root s) sk (brk s)
              (to_uint32 (level (hdr p) + 1))) in *.
  assert (Hbrk : brk s ≠ NULL) by (unfold NULL; lia).
  destruct (page_ctor_root_spec (stale s) (root s) sk (brk s)
              (to_uint32 (level (hdr p) + 1)) Hbrk)
    as (HvR & HqR & HlR & HsR & _).
  fold R in HvR, HqR, HlR, HsR.
  exists s'. split; [|split; [done|]].
  { rewrite btree_insert_S, (single_leaf_descend s p Hsl).
    cbn [mbind option_bind]. rewrite Hstore. cbn [mbind option_bind].
    destruct (k <? sk).
    - by destruct (Z.eqb_spec (root s) NULL).
    - by destruct (Z.eqb_spec (brk s) NULL). }
  intros k'.
  (* the keys of the two halves *)
  assert (Hem : es !! m = Some (rec_at (records p) m)).
  { destruct (lookup_lt_is_Some_2 es m Hm) as [e He].
    destruct (valid_entries_prefix (records p)) as [tl Htl]. fold es in Htl.
    rewrite Htl, rec_at_app_l by done. by rewrite (rec_at_lookup _ _ _ He). }
  assert (Hlow : Forall (λ e, key e < sk) (take m es)).
  { apply Forall_forall. intros e [i Hi]%list_elem_of_lookup_1.
    apply lookup_take_Some in Hi as [Hi Him].
    exact (key_sorted_strict es i m _ _ Hs Hnd Him Hi Hem). }
  assert (Hup : Forall (λ e, sk ≤ key e) (drop m es)).
  { apply Forall_forall. intros e [i Hi]%list_elem_of_lookup_1.
    rewrite lookup_drop in Hi. destruct i as [|i].
    - rewrite Nat.add_0_r, Hem in Hi. injection Hi as <-. unfold sk. lia.
    - exact (key_sorted_lookup es m (m + S i) _ _ Hs ltac:(lia) Hem Hi). }
  assert (Hvp' : valid_entries (records p')
                 ≡ₚ (if k <? sk then mkEntry k k :: take m es else take m es)).
  { rewrite Hvp. destruct (k <? sk); [apply ins_perm|done]. }
  assert (Hvs' : valid_entries (records sb')
                 ≡ₚ (if k <? sk then drop m es else mkEntry k k :: drop m es)).
  { rewrite Hvs. destruct (k <? sk); [done|apply ins_perm]. }
  assert (Hlow' : Forall (λ e, key e < sk) (valid_entries (records p'))).
  { rewrite Hvp'. destruct (Z.ltb_spec k sk); [|done].
    by apply Forall_cons. }
  assert (Hup' : Forall (λ e, sk ≤ key e) (valid_entries (records sb'))).
  { rewrite Hvs'. destruct (Z.ltb_spec k sk); [done|].
    by apply Forall_cons. }
  assert (Hall : Forall (λ e, ptr e = key e) (mkEntry k k :: es))
    by (by apply Forall_cons).
  assert (Hallp : Forall (λ e, ptr e = key e)
                    (valid_entries (records p') ++ valid_entries (records sb')))
    by (by rewrite Hperm).
  apply Forall_app in Hallp as [Hkp Hks].
  assert (Hndk : NoDup (key <$> (mkEntry k k :: es))).
  { cbn. apply NoDup_cons. split; [|done].
    intros (e & He & Hin)%list_elem_of_fmap.
    assert (has_key k es = true); [|congruence].
    apply has_key_true. by exists e. }
  assert (Hptr : ∀ l : list entry,
            Forall (λ e, ptr e = key e) l → ptr <$> l = key <$> l).
  { intros l Hl. induction Hl as [|e l He _ IH]; [done|]. cbn. by rewrite He, IH. }
  assert (Hndp : NoDup (ptr <$> (valid_entries (records p')
                                  ++ valid_entries (records sb')))).
  { rewrite Hperm, Hptr by done. exact Hndk. }
  rewrite fmap_app in Hndp. apply NoDup_app in Hndp as (Hnda & _ & Hndb).
  assert (Hda : distinct_neighbours NULL (valid_entries (records p')) = true).
  { apply leaf_distinct_neighbours; [apply valid_entries_nonnull|done]. }
  assert (Hdb : distinct_neighbours NULL (valid_entries (records sb')) = true).
  { apply leaf_distinct_neighbours; [apply valid_entries_nonnull|done]. }
  assert (Hnb : Forall (λ e, ptr e ≠ sibling_ptr (hdr p'))
                  (valid_entries (records p'))).
  { rewrite Hsp. apply Forall_forall. intros e He Heq.
    apply Hfresh.
    assert (Hin : e ∈ mkEntry k k :: es).
    { rewrite <- Hperm. apply elem_of_app. by left. }
    rewrite Forall_forall in Hkp. rewrite (Hkp e He) in Heq. rewrite <- Heq.
    apply elem_of_cons in Hin as [->|Hin]; [by left|].
    right. apply list_elem_of_fmap. by exists e. }
  assert (Htl : two_leaves s' R p' sb').
  { unfold two_leaves. cbn zeta. rewrite HlR, Hsp, Hr', HR, Hthis, Hsa', Hhs.
    split; [done|]. split; [done|]. split; [done|].
    split; [unfold NULL; lia|]. split; [done|]. split; [lia|].
    split; [done|]. split; [done|]. split; [congruence|].
    split; [done|]. split; [congruence|]. done. }
  rewrite (btree_search_two_leaves_spec k' s' R p' sb' Htl Hda Hdb Hnb).
  rewrite Hhs. f_equal.
  assert (Hhk : has_key k' (mkEntry k k :: es)
                = has_key k' (valid_entries (records p'))
                  || has_key k' (valid_entries (records sb')))
    by (by rewrite <- has_key_app, (has_key_perm _ _ _ Hperm)).
  rewrite Hhk.
  destruct (Z.ltb_spec k' sk) as [Hlt'|Hge'].
  - assert (Hno : has_key k' (valid_entries (records sb')) = false).
    { apply has_key_none. eapply Forall_impl; [exact Hup'|].
      cbn. intros. lia. }
    rewrite Hno, orb_false_r.
    destruct (with_key_keys k' _ Hkp) as [-> ->].
    destruct (IS_FORWARD _), (has_key k' (valid_entries (records p')));
      try done; by rewrite Z.eqb_refl.
  - assert (Hno : has_key k' (valid_entries (records p')) = false).
    { apply has_key_none. eapply Forall_impl; [exact Hlow'|].
      cbn. intros. lia. }
    rewrite Hno, orb_false_l.
    destruct (with_key_keys k' _ Hks) as [-> ->].
    destruct (IS_FORWARD _), (has_key k' (valid_entries (records sb')));
      try done; by rewrite Z.eqb_refl.
Qed.

(** The key 145 inserted into [full_tree] (keys 10, 20, ..., 280). *)
Lemma first_split_keeps_keys_witness :
  single_leaf full_tree full_leaf ∧
  ∃ s', btree_insert 2 145 145 full_tree = Some s' ∧
        btree_search 145 s' = Some 145 ∧
        btree_search 280 s' = Some 280 ∧
        btree_search 15 s' = Some NULL.
Proof.
  assert (Hsl : single_leaf full_tree full_leaf).
  { unfold single_leaf, quiescent. vm_compute.
    repeat split; first [lia|by intros]. }
  split; [exact Hsl|].
  destruct (first_split_keeps_keys 0 145 full_tree full_leaf Hsl)
    as (s' & H1 & _ & H2).
  - by vm_compute.
  - by vm_compute.
  - by apply (bool_decide_unpack _); vm_compute.
  - by apply (bool_decide_unpack _); vm_compute.
  - done.
  - reflexivity.
  - by vm_compute.
  - by apply (bool_decide_unpack _); vm_compute.
  - exists s'. split; [exact H1|].
    split; [exact (H2 145)|]. split; [exact (H2 280)|exact (H2 15)].
Defined.

(** ** A new tree and its first insertions *)

(** The next theorem, in the form that the later proofs use. *)
Lemma btree_ctor_single_leaf_spec base stale :
  base ≠ NULL →
  single_leaf (btree_ctor base stale) (page_ctor stale 0) ∧
  valid_entries (records (page_ctor stale 0)) = [] ∧
  height (btree_ctor base stale) = 1 ∧
  ∀ k, btree_search k (btree_ctor base stale) = Some NULL.
Proof.
  intros Hbase.
  assert (Hsl : single_leaf (btree_ctor base stale) (page_ctor stale 0)).
  { split; [done|]. split; [apply lookup_singleton_eq|].
    split; [done|]. split; [done|]. split; [done|].
    apply page_ctor_quiescent. }
  split; [done|]. split; [done|]. split; [done|].
  intros k.
  by rewrite (btree_search_single_leaf_spec k _ _ Hsl eq_refl).
Qed.

(** X23. [btree::btree()] makes a tree of one empty quiescent leaf, of
    height 1, in which every search returns null. *)
Theorem btree_ctor_single_leaf base stale :
  base ≠ NULL →
  single_leaf (btree_ctor base stale) (page_ctor stale 0) ∧
  valid_entries (records (page_ctor stale 0)) = [] ∧
  height (btree_ctor base stale) = 1 ∧
  ∀ k, btree_search k (btree_ctor base stale) = Some NULL.
Proof. exact (btree_ctor_single_leaf_spec base stale). Qed.

(** The tree whose first page is at 4096. *)
Lemma btree_ctor_single_leaf_witness :
  single_leaf empty_tree (page_ctor 0 0) ∧ btree_search 7 empty_tree = Some NULL.
Proof.
  destruct (btree_ctor_single_leaf 4096 0) as (H1 & _ & _ & H2); [done|].
  split; [exact H1|exact (H2 7)].
Defined.

Lemma insert_keys_cons k ks s :
  insert_keys (k :: ks) s
  = (s1 ← btree_insert 8 k k s; insert_keys ks s1).
Proof.
  unfold insert_keys. cbn [foldl mbind option_bind].
  destruct (btree_insert 8 k k s) as [s1|]; [done|].
  cbn. induction ks as [|k' ks IH]; [done|]. exact IH.
Qed.

Lemma keys_as_handles (l : list entry) :
  Forall (λ e, ptr e = key e) l → ptr <$> l = key <$> l.
Proof. induction 1 as [|e l He _ IH]; [done|]. cbn. by rewrite He, IH. Qed.

(** The warm-up loop of the test programs on a tree of one leaf, as long as
    the leaf has room. *)
Lemma insert_keys_single_leaf ks : ∀ s p,
  let es := valid_entries (records p) in
  single_leaf s p →
  Forall (λ e, ptr e = key e) es →
  key_sorted es = true →
  NoDup ((key <$> es) ++ ks) →
  NULL ∉ ks →
  (length es + length ks < 28)%nat →
  ∃ s' p',
    insert_keys ks s = Some s' ∧
    single_leaf s' p' ∧
    valid_entries (records p') ≡ₚ es ++ ((λ k, mkEntry k k) <$> ks) ∧
    key_sorted (valid_entries (records p')) = true ∧
    root s' = root s ∧ height s' = height s.
Proof.
  induction ks as [|k ks IH]; intros s p es Hsl Hkeys Hs Hnd H0 Hlen;
    subst es.
  - exists s, p. cbn. by rewrite app_nil_r.
  - pose proof Hsl as (_ & _ & _ & _ & _ & Hq).
    pose proof Hq as (Hrl & _).
    assert (Hk : k ≠ NULL).
    { intros ->. apply H0. left. }
    assert (Hroom : (S (length (valid_entries (records p)))
                     < length (records p))%nat).
    { rewrite Hrl. change (Z.to_nat cardinality) with 29%nat.
      cbn [length] in Hlen. lia. }
    destruct (btree_insert_single_leaf_spec 6 k k s p Hsl Hroom Hk)
      as (Hins & Hr1 & Hh1 & _ & _ & Hsl1 & Hperm).
    pose proof (insert_key_valid (root s) p k k true true Hroom Hk) as Hval.
    cbn zeta in Hval.
    set (p1 := (insert_key (root s) p k k _ true true).1.1) in *.
    set (s1 := add_log _ (write_page (root s) p1 s)) in *.
    destruct (IH s1 p1) as (s' & p' & H1 & H2 & H3 & H4 & H5 & H6).
    + exact Hsl1.
    + rewrite Hperm. by apply Forall_cons.
    + rewrite Hval. by apply insert_sorted.
    + rewrite Hperm. cbn [fmap list_fmap key].
      apply (NoDup_Permutation_proper _ _ (Permutation_middle _ _ _)).
      exact Hnd.
    + intros Hin. apply H0. by right.
    + rewrite Hperm. cbn [length] in *. lia.
    + exists s', p'. rewrite insert_keys_cons, Hins. cbn [mbind option_bind].
      split; [done|]. split; [done|].
      split; [|split; [done|split; congruence]].
      rewrite H3, Hperm. cbn [fmap list_fmap].
      by rewrite <- Permutation_middle.
Qed.

(** X24. The warm-up loop of the test programs,
    [btree_insert(keys[i], (char* )keys[i])] for each key in turn, on a new
    tree with fewer than 28 distinct non-null keys: every call returns, the
    tree stays one leaf, which holds the keys in ascending order, and then
    [btree_search] returns the key for each inserted key and null for any
    other key. *)
Theorem insert_keys_then_search ks base stale :
  base ≠ NULL → NoDup ks → NULL ∉ ks → (length ks < 28)%nat →
  ∃ s' p',
    insert_keys ks (btree_ctor base stale) = Some s' ∧
    single_leaf s' p' ∧
    valid_entries (records p') ≡ₚ (λ k, mkEntry k k) <$> ks ∧
    key_sorted (valid_entries (records p')) = true ∧
    height s' = 1 ∧
    ∀ k, btree_search k s' = Some (if bool_decide (k ∈ ks) then k else NULL).
Proof.
  intros Hbase Hnd H0 Hlen.
  destruct (btree_ctor_single_leaf_spec base stale Hbase) as (Hsl & Hval & Hh & _).
  pose proof (insert_keys_single_leaf ks (btree_ctor base stale)
                (page_ctor stale 0)) as Hloop.
  cbn zeta in Hloop. rewrite Hval in Hloop.
  destruct (Hloop Hsl ltac:(done) eq_refl Hnd H0 Hlen)
    as (s' & p' & H1 & H2 & H3 & H4 & _ & H6).
  cbn [app] in H3.
  exists s', p'. split; [done|]. split; [done|]. split; [done|].
  split; [done|]. split; [congruence|].
  intros k.
  assert (Hkeys : Forall (λ e, ptr e = key e) (valid_entries (records p'))).
  { rewrite H3. apply Forall_fmap. by apply Forall_true. }
  assert (Hd : distinct_neighbours NULL (valid_entries (records p')) = true).
  { apply leaf_distinct_neighbours; [apply valid_entries_nonnull|].
    rewrite H3, <- list_fmap_compose. cbn.
    by rewrite list_fmap_id. }
  rewrite (btree_search_single_leaf_spec k s' p' H2 Hd).
  destruct (with_key_keys k _ Hkeys) as [-> ->]. f_equal.
  assert (Hhas : has_key k (valid_entries (records p')) = bool_decide (k ∈ ks)).
  { rewrite (has_key_perm _ _ _ H3). apply eq_true_iff_eq.
    rewrite has_key_true, bool_decide_eq_true. split.
    - intros (e & (k0 & -> & Hk0)%list_elem_of_fmap & <-). done.
    - intros Hin. exists (mkEntry k k). split; [|done].
      apply list_elem_of_fmap. by exists k. }
  rewrite Hhas.
  destruct (IS_FORWARD _), (bool_decide (k ∈ ks)); try done;
    by rewrite Z.eqb_refl.
Qed.

(** The keys of the first scenario. *)
Lemma insert_keys_then_search_witness :
  ∃ s' p',
    insert_keys [5; 3; 8; 1; 4; 7; 9; 2; 6] empty_tree = Some s' ∧
    single_leaf s' p' ∧
    btree_search 4 s' = Some 4 ∧ btree_search 10 s' = Some NULL.
Proof.
  destruct (insert_keys_then_search [5; 3; 8; 1; 4; 7; 9; 2; 6] 4096 0)
    as (s' & p' & H1 & H2 & _ & _ & _ & H3).
  - done.
  - by apply (bool_decide_unpack _); vm_compute.
  - by apply (bool_decide_unpack _); vm_compute.
  - vm_compute. lia.
  - exists s', p'. split; [exact H1|]. split; [exact H2|].
    split; [exact (H3 4)|exact (H3 10)].
Defined.

(** ** The cache lines that [clflush] writes back *)

Lemma line_mask data :
  Z.land data (Z.lnot (CACHE_LINE_SIZE - 1)) = CACHE_LINE_SIZE * (data / CACHE_LINE_SIZE).
Proof.
  change (CACHE_LINE_SIZE - 1) with (Z.ones 6).
  rewrite <- Z.ldiff_land, Z.ldiff_ones_r by lia.
  rewrite Z.shiftr_div_pow2, Z.shiftl_mul_pow2 by lia.
  change (2 ^ 6) with CACHE_LINE_SIZE. lia.
Qed.

Section ClflushLoop.
Variable lim : Z.

Lemma clflush_loop_cover fuel : ∀ ptr a,
  ptr ≤ a < lim → a - ptr < CACHE_LINE_SIZE * Z.of_nat fuel →
  ∃ l, l ∈ clflush_loop fuel ptr lim ∧ l ≤ a < l + CACHE_LINE_SIZE.
Proof.
  change CACHE_LINE_SIZE with 64.
  induction fuel as [|f IH]; intros ptr a Ha Hfuel; [lia|].
  cbn [clflush_loop]. destruct (Z.ltb_spec ptr lim); [|lia].
  destruct (decide (a < ptr + 64)) as [Hin|Hout].
  - exists ptr. split; [left|lia].
  - destruct (IH (ptr + 64) a) as (l & Hl & Hr); [lia|lia|].
    exists l. split; [by right|done].
Qed.

Lemma clflush_loop_lines fuel : ∀ ptr,
  Forall (λ l, l mod CACHE_LINE_SIZE = ptr mod CACHE_LINE_SIZE ∧ ptr ≤ l < lim)
         (clflush_loop fuel ptr lim).
Proof.
  change CACHE_LINE_SIZE with 64.
  induction fuel as [|f IH]; intros ptr; [constructor|].
  cbn [clflush_loop]. destruct (Z.ltb_spec ptr lim); [|constructor].
  constructor; [split; [done|lia]|].
  eapply Forall_impl; [apply IH|]. cbn. intros l [Hm Hl].
  change CACHE_LINE_SIZE with 64 in *.
  split; [|lia]. rewrite Hm.
  replace (ptr + 64) with (ptr + 1 * 64) by lia. apply Z.mod_add. lia.
Qed.

Lemma clflush_loop_length fuel : ∀ ptr,
  lim - ptr ≤ CACHE_LINE_SIZE * Z.of_nat fuel →
  Z.of_nat (length (clflush_loop fuel ptr lim))
  = Z.max 0 ((lim - ptr + (CACHE_LINE_SIZE - 1)) / CACHE_LINE_SIZE).
Proof.
  change CACHE_LINE_SIZE with 64. change (64 - 1) with 63.
  induction fuel as [|f IH]; intros ptr Hfuel.
  - cbn [clflush_loop length].
    assert ((lim - ptr + 63) / 64 < 1); [|lia].
    apply Z.div_lt_upper_bound; lia.
  - cbn [clflush_loop]. change CACHE_LINE_SIZE with 64.
    destruct (Z.ltb_spec ptr lim).
    + cbn [length]. rewrite Nat2Z.inj_succ, IH by lia.
      replace (lim - ptr + 63) with (lim - (ptr + 64) + 63 + 1 * 64) by lia.
      rewrite Z.div_add by lia.
      assert (0 ≤ (lim - (ptr + 64) + 63) / 64); [|lia].
      apply Z.div_pos; lia.
    + cbn [length].
      assert ((lim - ptr + 63) / 64 < 1); [|lia].
      apply Z.div_lt_upper_bound; lia.
Qed.
End ClflushLoop.

(** X25. [clflush(data, len)] with a positive length issues the [clflush]
    instruction on cache-line aligned addresses only, on a line for every
    byte of [data, data + len), on no line outside that range, and on each
    such line once: their number is the number of lines that the range
    touches. *)
Theorem clflush_covers data len :
  0 < len →
  Forall (λ l, l mod CACHE_LINE_SIZE = 0 ∧
               data - CACHE_LINE_SIZE < l < data + len) (clflush data len) ∧
  (∀ a, data ≤ a < data + len →
        ∃ l, l ∈ clflush data len ∧ l ≤ a < l + CACHE_LINE_SIZE) ∧
  Z.of_nat (length (clflush data len))
  = (data mod CACHE_LINE_SIZE + len + (CACHE_LINE_SIZE - 1)) / CACHE_LINE_SIZE.
Proof.
  intros Hlen. unfold clflush. rewrite line_mask.
  pose proof (Z.div_mod data CACHE_LINE_SIZE ltac:(done)) as Hd.
  pose proof (Z.mod_pos_bound data CACHE_LINE_SIZE ltac:(done)) as Hm.
  pose proof (Z.div_mod len CACHE_LINE_SIZE ltac:(done)) as Hl.
  pose proof (Z.mod_pos_bound len CACHE_LINE_SIZE ltac:(done)) as Hlm.
  assert (Hq : 0 ≤ len / CACHE_LINE_SIZE) by (apply Z.div_pos; [lia|done]).
  change CACHE_LINE_SIZE with 64 in *. change (64 - 1) with 63.
  split; [|split].
  - eapply Forall_impl; [apply clflush_loop_lines|].
    cbn. change CACHE_LINE_SIZE with 64. intros l [Hal Hr]. split; [|lia].
    rewrite Hal, Z.mul_comm. apply Z.mod_mul. lia.
  - intros a Ha. apply clflush_loop_cover; [lia|].
    change CACHE_LINE_SIZE with 64. rewrite Z2Nat.id by lia. lia.
  - rewrite clflush_loop_length.
    + change CACHE_LINE_SIZE with 64. change (64 - 1) with 63.
      replace (data + len - 64 * (data / 64) + 63)
        with (data mod 64 + len + 63) by lia.
      assert (0 ≤ (data mod 64 + len + 63) / 64); [|lia].
      apply Z.div_pos; lia.
    + change CACHE_LINE_SIZE with 64. rewrite Z2Nat.id by lia. lia.
Qed.

(** The flush of the entry in slot 4 of the page at 4096: one line. *)
Lemma clflush_covers_witness :
  clflush (addr_of_record 4096 4) sizeof_entry = [4160] ∧
  ∃ l, l ∈ clflush (addr_of_record 4096 4) sizeof_entry ∧
       l ≤ addr_of_record 4096 4 + 15 < l + CACHE_LINE_SIZE.
Proof.
  split; [reflexivity|].
  destruct (clflush_covers (addr_of_record 4096 4) sizeof_entry) as (_ & H & _).
  - done.
  - apply H. by vm_compute.
Defined.
